(** * A shallow embedding of the quantum simulator of [gates.js]

    The development follows the JavaScript source closely:

    - JavaScript numbers that carry amplitudes, angles and probabilities are
      idealised as exact reals extended with [NaN] (the value produced when an
      absent field is read arithmetically); rounding, infinities and overflow
      of IEEE doubles are outside this idealisation.
    - JavaScript numbers used as basis indices and qubit indices are integers
      ([Z]); the bitwise operators act on them through [ToInt32] and take
      their shift count modulo 32, as ECMAScript prescribes.
    - An array is a [length] together with a finite map from integer keys to
      values: a write beyond the end extends the array, a write at a negative
      key adds a property without touching [length], and a read of an absent
      key yields [undefined].
    - Methods of [QuantumSimulator] are computations in a state-and-exception
      monad over the simulator instance and the console.
    - Of [BlochSphere] the numeric fields and the methods that compute with
      them are embedded, not the drawing; [QuantumCircuit] of [visualizer.js]
      is a record, its methods return the new circuit together with what the
      change listeners have made of the rest of the program. *)

From Stdlib Require Import ZArith Reals Lra Lia Ascii.
From stdpp Require Import gmap strings list sorting.

Local Open Scope Z_scope.

(** ** JavaScript numbers *)

Inductive num : Type :=
  | NaN
  | Fin (x : R).

Definition num_lift1 (f : R → R) (a : num) : num :=
  match a with Fin x => Fin (f x) | NaN => NaN end.

Definition num_lift2 (f : R → R → R) (a b : num) : num :=
  match a, b with Fin x, Fin y => Fin (f x y) | _, _ => NaN end.

Definition num_add : num → num → num := num_lift2 Rplus.
Definition num_sub : num → num → num := num_lift2 Rminus.
Definition num_mul : num → num → num := num_lift2 Rmult.
Definition num_neg : num → num := num_lift1 Ropp.

(** [a <= b]: false as soon as one side is [NaN]. *)
Definition num_le (a b : num) : bool :=
  match a, b with
  | Fin x, Fin y => if Rle_dec x y then true else false
  | _, _ => false
  end.

(** [Math.sqrt]: [NaN] on a negative argument. *)
Definition Math_sqrt (a : num) : num :=
  match a with
  | Fin x => if Rlt_dec x 0 then NaN else Fin (sqrt x)
  | NaN => NaN
  end.

(** [Math.cos(theta/2)] and [Math.sin(theta/2)]. *)
Definition cos_half : num → num := num_lift1 (λ t, cos (t / 2))%R.
Definition sin_half : num → num := num_lift1 (λ t, sin (t / 2))%R.

(** [x || 0] on a number that may be absent: [undefined], [NaN] and [0] are
    falsy. *)
Definition or_zero (x : option num) : num :=
  match x with
  | None => Fin 0
  | Some NaN => Fin 0
  | Some (Fin t) => if Req_dec_T t 0 then Fin 0 else Fin t
  end.

(** ** 32-bit integer operators *)

Definition ToInt32 (x : Z) : Z := (x + 2 ^ 31) `mod` 2 ^ 32 - 2 ^ 31.

(** [a >> b] *)
Definition js_shr (a b : Z) : Z := Z.shiftr (ToInt32 a) (b `mod` 32).
(** [a << b] *)
Definition js_shl (a b : Z) : Z := ToInt32 (Z.shiftl (ToInt32 a) (b `mod` 32)).
(** [a & b] *)
Definition js_and (a b : Z) : Z := Z.land (ToInt32 a) (ToInt32 b).
(** [a | b] *)
Definition js_or (a b : Z) : Z := Z.lor (ToInt32 a) (ToInt32 b).
(** [~a] *)
Definition js_not (a : Z) : Z := Z.lnot (ToInt32 a).

(** ** Values, errors and completions *)

Record Complex : Type := mkComplex { re : num; im : num }.

(** The values that occur as matrix entries, array slots and arguments of the
    [Complex] utilities.  The modelled code reads the fields of an object only
    arithmetically, where an absent field behaves as [NaN]; the empty object
    [{}] is therefore represented by [empty_object]. *)
Inductive value : Type :=
  | VUndefined
  | VNumber (x : num)
  | VObject (c : Complex).

Definition empty_object : value := VObject (mkComplex NaN NaN).

Inductive error : Type :=
  | TypeError
  | RangeError.

Inductive completion (A : Type) : Type :=
  | Normal (a : A)
  | Throw (e : error).
Arguments Normal {A} a.
Arguments Throw {A} e.

#[global] Instance completion_ret : MRet completion := λ A a, Normal a.
#[global] Instance completion_bind : MBind completion := λ A B f m,
  match m with
  | Normal a => f a
  | Throw e => Throw e
  end.

(** [v.re] and [v.im]: a [TypeError] on [undefined], [undefined] (read as
    [NaN]) on a number. *)
Definition get_re (v : value) : completion num :=
  match v with
  | VUndefined => Throw TypeError
  | VNumber _ => Normal NaN
  | VObject c => Normal (re c)
  end.

Definition get_im (v : value) : completion num :=
  match v with
  | VUndefined => Throw TypeError
  | VNumber _ => Normal NaN
  | VObject c => Normal (im c)
  end.

(** [{ ...v }] *)
Definition spread (v : value) : value :=
  match v with
  | VObject c => VObject c
  | _ => empty_object
  end.

(** ** Complex number utilities *)

Module Complex.

Definition create (re : num) (im : num) : value := VObject (mkComplex re im).

Definition fromNumber (n : value) : value :=
  match n with
  | VNumber x => VObject (mkComplex x (Fin 0))
  | _ => n
  end.

Definition add (a b : value) : completion value :=
  let a := fromNumber a in
  let b := fromNumber b in
  are ← get_re a; bre ← get_re b;
  aim ← get_im a; bim ← get_im b;
  mret (VObject (mkComplex (num_add are bre) (num_add aim bim))).

Definition multiply (a b : value) : completion value :=
  let a := fromNumber a in
  let b := fromNumber b in
  are ← get_re a; bre ← get_re b;
  aim ← get_im a; bim ← get_im b;
  mret (VObject (mkComplex (num_sub (num_mul are bre) (num_mul aim bim))
                           (num_add (num_mul are bim) (num_mul aim bre)))).

Definition magnitude (c : value) : completion num :=
  let c := fromNumber c in
  cre ← get_re c; cim ← get_im c;
  mret (Math_sqrt (num_add (num_mul cre cre) (num_mul cim cim))).

Definition conjugate (c : value) : completion value :=
  let c := fromNumber c in
  cre ← get_re c; cim ← get_im c;
  mret (VObject (mkComplex cre (num_neg cim))).

End Complex.

(** ** Gate definitions *)

Definition Matrix : Type := list (list value).

(** [matrix[r][c]] *)
Definition matrix_get (m : Matrix) (r c : Z) : completion value :=
  match m !! Z.to_nat r with
  | None => Throw TypeError
  | Some row => Normal (default VUndefined (row !! Z.to_nat c))
  end.

(** The fields of a gate definition that the simulator reads. *)
Record GateDef : Type := mkGate {
  gate_type : option string;
  gate_matrix : option Matrix;
  gate_getMatrix : option (num → Matrix)
}.

(** Matrix entries: a number literal, and an object literal [{re: x, im: y}]. *)
Definition lit (x : R) : value := VNumber (Fin x).
Definition obj (x y : R) : value := VObject (mkComplex (Fin x) (Fin y)).

Definition fixed_gate (ty : string) (m : Matrix) : GateDef :=
  mkGate (Some ty) (Some m) None.

Definition GATE_H : GateDef := fixed_gate "single"
  [ [lit (1 / sqrt 2); lit (1 / sqrt 2)];
    [lit (1 / sqrt 2); lit (- (1 / sqrt 2))] ]%R.

Definition GATE_X : GateDef := fixed_gate "single"
  [ [lit 0; lit 1];
    [lit 1; lit 0] ]%R.

Definition GATE_Y : GateDef := fixed_gate "single"
  [ [lit 0; obj 0 (-1)];
    [obj 0 1; lit 0] ]%R.

Definition GATE_Z : GateDef := fixed_gate "single"
  [ [lit 1; lit 0];
    [lit 0; lit (-1)] ]%R.

Definition GATE_S : GateDef := fixed_gate "single"
  [ [lit 1; lit 0];
    [lit 0; obj 0 1] ]%R.

Definition GATE_T : GateDef := fixed_gate "single"
  [ [lit 1; lit 0];
    [lit 0; obj (cos (PI / 4)) (sin (PI / 4))] ]%R.

Definition GATE_RX : GateDef := mkGate (Some "rotation") None (Some (λ theta,
  [ [VNumber (cos_half theta); Complex.create (Fin 0) (num_neg (sin_half theta))];
    [Complex.create (Fin 0) (num_neg (sin_half theta)); VNumber (cos_half theta)] ])).

Definition GATE_RY : GateDef := mkGate (Some "rotation") None (Some (λ theta,
  [ [VNumber (cos_half theta); VNumber (num_neg (sin_half theta))];
    [VNumber (sin_half theta); VNumber (cos_half theta)] ])).

Definition GATE_RZ : GateDef := mkGate (Some "rotation") None (Some (λ theta,
  [ [Complex.create (cos_half theta) (num_neg (sin_half theta)); lit 0];
    [lit 0; Complex.create (cos_half theta) (sin_half theta)] ])).

Definition GATE_CNOT : GateDef := fixed_gate "controlled"
  [ [lit 1; lit 0; lit 0; lit 0];
    [lit 0; lit 1; lit 0; lit 0];
    [lit 0; lit 0; lit 0; lit 1];
    [lit 0; lit 0; lit 1; lit 0] ]%R.

Definition GATE_CZ : GateDef := fixed_gate "controlled"
  [ [lit 1; lit 0; lit 0; lit 0];
    [lit 0; lit 1; lit 0; lit 0];
    [lit 0; lit 0; lit 1; lit 0];
    [lit 0; lit 0; lit 0; lit (-1)] ]%R.

Definition GATE_SWAP : GateDef := fixed_gate "swap"
  [ [lit 1; lit 0; lit 0; lit 0];
    [lit 0; lit 0; lit 1; lit 0];
    [lit 0; lit 1; lit 0; lit 0];
    [lit 0; lit 0; lit 0; lit 1] ]%R.

Definition GATE_M : GateDef := mkGate (Some "measure") None None.

(** The keys of the [GATES] object itself. *)
Definition GATES_own : list (string * GateDef) :=
  [ ("H", GATE_H); ("X", GATE_X); ("Y", GATE_Y); ("Z", GATE_Z);
    ("S", GATE_S); ("T", GATE_T);
    ("RX", GATE_RX); ("RY", GATE_RY); ("RZ", GATE_RZ);
    ("CNOT", GATE_CNOT); ("CZ", GATE_CZ); ("SWAP", GATE_SWAP);
    ("M", GATE_M) ]%string.

(** [GATES] is an object literal, so a lookup that misses its own keys falls
    through to [Object.prototype]; what is found there is truthy and has
    neither [type], [matrix] nor [getMatrix]. *)
Definition Object_prototype_keys : list string :=
  [ "constructor"; "toString"; "toLocaleString"; "valueOf"; "hasOwnProperty";
    "isPrototypeOf"; "propertyIsEnumerable"; "__proto__";
    "__defineGetter__"; "__defineSetter__";
    "__lookupGetter__"; "__lookupSetter__" ]%string.

Definition inherited_member : GateDef := mkGate None None None.

Fixpoint assoc (k : string) (l : list (string * GateDef)) : option GateDef :=
  match l with
  | [] => None
  | (k', g) :: l => if decide (k = k') then Some g else assoc k l
  end.

(** [GATES[gateName]]; [None] stands for [undefined]. *)
Definition GATES (gateName : string) : option GateDef :=
  match assoc gateName GATES_own with
  | Some g => Some g
  | None =>
      if decide (gateName ∈ Object_prototype_keys) then Some inherited_member
      else None
  end.

(** ** Arrays *)

Record jsarray : Type := mkArray {
  arr_length : Z;
  arr_slots : gmap Z value
}.

(** [a[k]] *)
Definition arr_get (a : jsarray) (k : Z) : value :=
  default VUndefined (arr_slots a !! k).

(** [a[k] = v] *)
Definition arr_set (a : jsarray) (k : Z) (v : value) : jsarray :=
  mkArray (if decide (0 ≤ k) then arr_length a `max` (k + 1) else arr_length a)
          (<[k := v]> (arr_slots a)).

(** The indices [0 .. size-1] visited by [for (let i = 0; i < size; i++)]. *)
Definition indices (size : Z) : list Z := seqZ 0 size.

(** The slots that hold [f k] at every key [k] of [ks]. *)
Definition tabulate (f : Z → value) (ks : list Z) : gmap Z value :=
  list_to_map ((λ k, (k, f k)) <$> ks).

(** [new Array(size).fill(null).map(() => v)]; [new Array] refuses a length
    above [2^32 - 1]. *)
Definition arr_make (size : Z) (v : value) : completion jsarray :=
  if decide (size ≤ 2 ^ 32 - 1) then
    Normal (mkArray size (tabulate (λ _, v) (indices size)))
  else Throw RangeError.

(** [a.map(f)]: the callback runs on the indices that are present, holes stay
    holes, other properties are not carried over. *)
Fixpoint arr_map_loop (f : value → completion value) (a : jsarray)
    (ks : list Z) (out : jsarray) : completion jsarray :=
  match ks with
  | [] => Normal out
  | k :: ks =>
      match arr_slots a !! k with
      | None => arr_map_loop f a ks out
      | Some v =>
          r ← f v;
          arr_map_loop f a ks (mkArray (arr_length out) (<[k := r]> (arr_slots out)))
      end
  end.

Definition arr_map (f : value → completion value) (a : jsarray) : completion jsarray :=
  arr_map_loop f a (indices (arr_length a)) (mkArray (arr_length a) ∅).

(** [[...a]]: a dense copy of the indices below [length]. *)
Definition arr_spread (a : jsarray) : jsarray :=
  mkArray (arr_length a) (tabulate (arr_get a) (indices (arr_length a))).

(** The number that [+=] adds for an array element: the probabilities are
    numbers, and a missing one is [undefined], which adds as [NaN]. *)
Definition to_number (v : value) : num :=
  match v with
  | VNumber x => x
  | _ => NaN
  end.

(** ** Strings of binary digits *)

Fixpoint pos_toString2 (p : positive) : string :=
  match p with
  | xH => "1"
  | xO p => pos_toString2 p +:+ "0"
  | xI p => pos_toString2 p +:+ "1"
  end.

(** [i.toString(2)] *)
Definition toString2 (i : Z) : string :=
  match i with
  | Z0 => "0"
  | Zpos p => pos_toString2 p
  | Zneg p => "-" +:+ pos_toString2 p
  end.

(** ['0'.repeat(n)] *)
Fixpoint repeat0 (n : nat) : string :=
  match n with
  | O => ""
  | S n => "0" +:+ repeat0 n
  end.

(** [s.padStart(n, '0')] *)
Definition padStart0 (s : string) (n : nat) : string :=
  repeat0 (n - String.length s) +:+ s.

(** ** The simulator *)

Record Simulator : Type := mkSimulator {
  numQubits : nat;
  stateVector : jsarray
}.

Inductive level : Type := LogError | LogWarn.

(** What a method can observe and change: the instance it is called on and the
    console. *)
Record world : Type := mkWorld {
  this : Simulator;
  console : list (level * string)
}.

Definition M (A : Type) : Type := world → completion A * world.

#[global] Instance M_ret : MRet M := λ A a w, (Normal a, w).
#[global] Instance M_bind : MBind M := λ A B f m w,
  match m w with
  | (Normal a, w') => f a w'
  | (Throw e, w') => (Throw e, w')
  end.

(** A pure computation that may throw. *)
Definition lift {A} (c : completion A) : M A := λ w, (c, w).

Definition get_numQubits : M nat := λ w, (Normal (numQubits (this w)), w).
Definition get_stateVector : M jsarray := λ w, (Normal (stateVector (this w)), w).

(** [this.stateVector = a] *)
Definition set_stateVector (a : jsarray) : M unit := λ w,
  (Normal tt, mkWorld (mkSimulator (numQubits (this w)) a) (console w)).

(** [this.stateVector[k] = v] *)
Definition set_amplitude (k : Z) (v : value) : M unit := λ w,
  (Normal tt,
   mkWorld (mkSimulator (numQubits (this w)) (arr_set (stateVector (this w)) k v))
           (console w)).

Definition console_log (l : level) (msg : string) : M unit := λ w,
  (Normal tt, mkWorld (this w) (console w ++ [(l, msg)])).

(** A [for] loop over [ks] that threads the local variable [acc]. *)
Fixpoint for_each {A} (ks : list Z) (body : Z → A → M A) (acc : A) : M A :=
  match ks with
  | [] => mret acc
  | k :: ks => acc' ← body k acc; for_each ks body acc'
  end.

(** The argument [params] of [applySingleQubitGate]; [theta] may be absent. *)
Record Params : Type := mkParams { theta : option num }.

(** A gate operation of the circuit.  [targetQubit] is read for the kinds
    CNOT, CZ and SWAP only; [params] may be absent. *)
Record GateOp : Type := mkGateOp {
  gate : string;
  qubit : Z;
  targetQubit : Z;
  params : option Params;
  position : Z
}.

(** The object returned by [getQubitState]. *)
Record QubitState : Type := mkQubitState {
  qs_x : num; qs_y : num; qs_z : num; qs_purity : num;
  qs_rho00 : value; qs_rho11 : value; qs_rho01 : value
}.

Module QuantumSimulator.

Definition zero : value := Complex.create (Fin 0) (Fin 0).

(** [Math.pow(2, this.numQubits)] *)
Definition size_of (n : nat) : Z := 2 ^ Z.of_nat n.

(** The shift count [n - 1 - qubitIndex]. *)
Definition shift (n : nat) (qubitIndex : Z) : Z := Z.of_nat n - 1 - qubitIndex.

Definition reset : M unit :=
  n ← get_numQubits;
  let size := size_of n in
  a ← lift (arr_make size zero);
  set_stateVector (arr_set a 0 (Complex.create (Fin 1) (Fin 0))).

(** [new QuantumSimulator(numQubits)], with the console as it is; the
    constructor's [this.stateVector = null] is overwritten by [reset] before
    anything reads it. *)
Definition new (numQubits : nat) (console : list (level * string))
    : completion unit * world :=
  reset (mkWorld (mkSimulator numQubits (mkArray 0 ∅)) console).

Definition setNumQubits (n : nat) : M unit := λ w,
  reset (mkWorld (mkSimulator n (stateVector (this w))) (console w)).

Definition getStateVector : M jsarray :=
  sv ← get_stateVector;
  lift (arr_map (λ c, Normal (spread c)) sv).

Definition getProbabilities : M jsarray :=
  sv ← get_stateVector;
  lift (arr_map (λ c, mag ← Complex.magnitude c;
                      mret (VNumber (num_mul mag mag))) sv).

Definition applySingleQubitGate (gateName : string) (qubitIndex : Z)
    (params : option Params) : M unit :=
  let params := default (mkParams None) params in
  match GATES gateName with
  | None => console_log LogError ("Unknown gate: " +:+ gateName)
  | Some gate =>
      matrix ← lift (if decide (gate_type gate = Some "rotation"%string) then
                       let theta := or_zero (theta params) in
                       match gate_getMatrix gate with
                       | Some getMatrix => Normal (Some (getMatrix theta))
                       | None => Throw TypeError
                       end
                     else Normal (gate_matrix gate));
      match matrix with
      | None => mret tt
      | Some matrix =>
          n ← get_numQubits;
          let size := size_of n in
          newState ← lift (arr_make size zero);
          newState ← for_each (indices size) (λ i newState,
            let bit := js_and (js_shr i (shift n qubitIndex)) 1 in
            for_each [0; 1] (λ newBit newState,
              let newIndex :=
                js_or (js_and i (js_not (js_shl 1 (shift n qubitIndex))))
                      (js_shl newBit (shift n qubitIndex)) in
              entry ← lift (matrix_get matrix newBit bit);
              let matrixElement := Complex.fromNumber entry in
              sv ← get_stateVector;
              contribution ← lift (Complex.multiply matrixElement (arr_get sv i));
              sum ← lift (Complex.add (arr_get newState newIndex) contribution);
              mret (arr_set newState newIndex sum)) newState) newState;
          set_stateVector newState
      end
  end.

Definition applyCNOT (controlQubit targetQubit : Z) : M unit :=
  n ← get_numQubits;
  let size := size_of n in
  sv ← get_stateVector;
  copy ← lift (arr_map (λ c, Normal (spread c)) sv);
  let newState := arr_spread copy in
  newState ← for_each (indices size) (λ i newState,
    let controlBit := js_and (js_shr i (shift n controlQubit)) 1 in
    if decide (controlBit = 1) then
      let targetBit := js_and (js_shr i (shift n targetQubit)) 1 in
      let newTargetBit := 1 - targetBit in
      let newIndex :=
        js_or (js_and i (js_not (js_shl 1 (shift n targetQubit))))
              (js_shl newTargetBit (shift n targetQubit)) in
      let temp := arr_get newState i in
      let newState := arr_set newState i (arr_get newState newIndex) in
      mret (arr_set newState newIndex temp)
    else mret newState) newState;
  set_stateVector newState.

Definition applyCZ (controlQubit targetQubit : Z) : M unit :=
  n ← get_numQubits;
  let size := size_of n in
  for_each (indices size) (λ i _,
    let controlBit := js_and (js_shr i (shift n controlQubit)) 1 in
    let targetBit := js_and (js_shr i (shift n targetQubit)) 1 in
    if bool_decide (controlBit = 1) && bool_decide (targetBit = 1) then
      sv ← get_stateVector;
      v ← lift (Complex.multiply (arr_get sv i) (Complex.create (Fin (-1)) (Fin 0)));
      set_amplitude i v
    else mret tt) tt.

Definition applySWAP (qubit1 qubit2 : Z) : M unit :=
  n ← get_numQubits;
  let size := size_of n in
  newState ← lift (arr_make size zero);
  newState ← for_each (indices size) (λ i newState,
    let bit1 := js_and (js_shr i (shift n qubit1)) 1 in
    let bit2 := js_and (js_shr i (shift n qubit2)) 1 in
    let newIndex := i in
    let newIndex :=
      js_or (js_and newIndex (js_not (js_shl 1 (shift n qubit1))))
            (js_shl bit2 (shift n qubit1)) in
    let newIndex :=
      js_or (js_and newIndex (js_not (js_shl 1 (shift n qubit2))))
            (js_shl bit1 (shift n qubit2)) in
    sv ← get_stateVector;
    mret (arr_set newState newIndex (spread (arr_get sv i)))) newState;
  set_stateVector newState.

Definition single_kinds : list string := ["H"; "X"; "Y"; "Z"; "S"; "T"]%string.
Definition rotation_kinds : list string := ["RX"; "RY"; "RZ"]%string.

Definition applyGate (gateOp : GateOp) : M unit :=
  let '(mkGateOp gate qubit targetQubit params _) := gateOp in
  if decide (gate ∈ single_kinds) then applySingleQubitGate gate qubit None
  else if decide (gate ∈ rotation_kinds) then applySingleQubitGate gate qubit params
  else if decide (gate = "CNOT"%string) then applyCNOT qubit targetQubit
  else if decide (gate = "CZ"%string) then applyCZ qubit targetQubit
  else if decide (gate = "SWAP"%string) then applySWAP qubit targetQubit
  else if decide (gate = "M"%string) then mret tt
  else console_log LogWarn ("Unknown gate: " +:+ gate).

(** [for (const gateOp of sortedGates) this.applyGate(gateOp)] *)
Fixpoint applyGates (ops : list GateOp) : M unit :=
  match ops with
  | [] => mret tt
  | gateOp :: ops => applyGate gateOp;; applyGates ops
  end.

(** [[...gates].sort((a, b) => a.position - b.position)]: the sort is
    stable, so a gate goes behind the gates of the same position that came
    before it. *)
Fixpoint insert_gate (g : GateOp) (sorted : list GateOp) : list GateOp :=
  match sorted with
  | [] => [g]
  | h :: t =>
      if decide (position g < position h) then g :: h :: t
      else h :: insert_gate g t
  end.

Definition sort_gates (gates : list GateOp) : list GateOp :=
  foldl (λ sorted g, insert_gate g sorted) [] gates.

(** [simulateCircuit(circuit)], on [circuit.gates]. *)
Definition simulateCircuit (gates : list GateOp) : M (jsarray * jsarray) :=
  reset;;
  let sortedGates := sort_gates gates in
  applyGates sortedGates;;
  sv ← getStateVector;
  probabilities ← getProbabilities;
  mret (sv, probabilities).

(** [measure()]; [rand] is the value drawn by [Math.random()]. *)
Fixpoint measure_loop (probs : jsarray) (rand : R) (n : nat) (ks : list Z)
    (cumulative : num) : string :=
  match ks with
  | [] => repeat0 n
  | i :: ks =>
      let cumulative := num_add cumulative (to_number (arr_get probs i)) in
      if num_le (Fin rand) cumulative then padStart0 (toString2 i) n
      else measure_loop probs rand n ks cumulative
  end.

Definition measure (rand : R) : M string :=
  probs ← getProbabilities;
  n ← get_numQubits;
  mret (measure_loop probs rand n (indices (arr_length probs)) (Fin 0)).

Definition getQubitState (qubitIndex : Z) : M QubitState :=
  n ← get_numQubits;
  let size := size_of n in
  let rho00 := Complex.create (Fin 0) (Fin 0) in
  let rho01 := Complex.create (Fin 0) (Fin 0) in
  let rho10 := Complex.create (Fin 0) (Fin 0) in
  let rho11 := Complex.create (Fin 0) (Fin 0) in
  '(rho00, rho01, rho10, rho11) ←
    for_each (indices size) (λ i rhos,
      for_each (indices size) (λ j '(rho00, rho01, rho10, rho11),
        let bitI := js_and (js_shr i (shift n qubitIndex)) 1 in
        let bitJ := js_and (js_shr j (shift n qubitIndex)) 1 in
        let mask := js_not (js_shl 1 (shift n qubitIndex)) in
        let otherBitsI := js_and i mask in
        let otherBitsJ := js_and j mask in
        if decide (otherBitsI = otherBitsJ) then
          sv ← get_stateVector;
          let amp_i := arr_get sv i in
          let amp_j := arr_get sv j in
          conj ← lift (Complex.conjugate amp_j);
          contrib ← lift (Complex.multiply amp_i conj);
          if bool_decide (bitI = 0) && bool_decide (bitJ = 0) then
            r ← lift (Complex.add rho00 contrib); mret (r, rho01, rho10, rho11)
          else if bool_decide (bitI = 0) && bool_decide (bitJ = 1) then
            r ← lift (Complex.add rho01 contrib); mret (rho00, r, rho10, rho11)
          else if bool_decide (bitI = 1) && bool_decide (bitJ = 0) then
            r ← lift (Complex.add rho10 contrib); mret (rho00, rho01, r, rho11)
          else
            r ← lift (Complex.add rho11 contrib); mret (rho00, rho01, rho10, r)
        else mret (rho00, rho01, rho10, rho11)) rhos)
      (rho00, rho01, rho10, rho11);
  r00 ← lift (get_re rho00); r11 ← lift (get_re rho11);
  r01 ← lift (get_re rho01); i01 ← lift (get_im rho01);
  let x := num_mul (Fin 2) r01 in
  let y := num_mul (Fin 2) i01 in
  let z := num_sub r00 r11 in
  let purity :=
    num_add (num_add (num_mul r00 r00) (num_mul r11 r11))
            (num_mul (Fin 2) (num_add (num_mul r01 r01) (num_mul i01 i01))) in
  mret (mkQubitState x y z purity rho00 rho11 rho01).

End QuantumSimulator.

Import QuantumSimulator.

(** ** Vocabulary of the statements *)

(** An amplitude: an object whose two fields are finite numbers. *)
Definition is_amplitude (v : value) : Prop := ∃ x y : R, v = obj x y.

(** The state vectors that the methods build from [reset]: [2^n] amplitudes,
    for a qubit count that [new Array] accepts. *)
Definition well_formed (w : world) : Prop :=
  (numQubits (this w) ≤ 31)%nat ∧
  arr_length (stateVector (this w)) = size_of (numQubits (this w)) ∧
  ∀ k, 0 ≤ k < size_of (numQubits (this w)) →
       is_amplitude (arr_get (stateVector (this w)) k).

Definition in_range (w : world) (q : Z) : Prop :=
  0 ≤ q < Z.of_nat (numQubits (this w)).

(** The real and imaginary part of an amplitude, and its squared modulus. *)
Definition re_of (v : value) : R :=
  match v with VObject (mkComplex (Fin x) _) => x | _ => 0%R end.
Definition im_of (v : value) : R :=
  match v with VObject (mkComplex _ (Fin y)) => y | _ => 0%R end.
Definition modulus2 (v : value) : R :=
  (re_of v * re_of v + im_of v * im_of v)%R.

(** The real carried by a probability. *)
Definition real_of (v : value) : R :=
  match v with VNumber (Fin x) => x | _ => 0%R end.

Definition Rsum (l : list R) : R := foldr Rplus 0%R l.

(** Sum of the entries of an array of numbers over its indices. *)
Definition total (ps : jsarray) : R :=
  Rsum ((λ k, real_of (arr_get ps k)) <$> indices (arr_length ps)).

(** Probability mass accumulated up to and including index [i]. *)
Definition cumulative_mass (ps : jsarray) (i : Z) : R :=
  Rsum ((λ k, real_of (arr_get ps k)) <$> indices (i + 1)).

Definition two_qubit_kinds : list string := ["CNOT"; "CZ"; "SWAP"]%string.

(** The supported gate operations of a circuit over [n] qubits: one of the
    twelve unitary kinds, on qubit indices below [n]. *)
Definition valid_op (n : nat) (op : GateOp) : Prop :=
  0 ≤ qubit op < Z.of_nat n ∧
  (gate op ∈ single_kinds ++ rotation_kinds ∨
   gate op ∈ two_qubit_kinds ∧ 0 ≤ targetQubit op < Z.of_nat n).

(** ** Definitions used by the proofs *)

Definition put_bit (i s : Z) (b : bool) : Z :=
  Z.lor (Z.clearbit i s) (Z.shiftl (Z.b2z b) s).

(** The squared norm of the state vector. *)
Definition norm2 (w : world) : R :=
  Rsum ((λ k, modulus2 (arr_get (stateVector (this w)) k))
          <$> indices (size_of (numQubits (this w)))).

(** [w'] is a well-formed state of the same simulator with the norm of [w]. *)
Definition norm_step (w w' : world) : Prop :=
  well_formed w' ∧ numQubits (this w') = numQubits (this w) ∧
  norm2 w' = norm2 w.

(** The basis index with the bits at positions [s1] and [s2] exchanged. *)
Definition swap_bits (s1 s2 i : Z) : Z :=
  put_bit (put_bit i s1 (Z.testbit i s2)) s2 (Z.testbit i s1).

(** The part of [applySingleQubitGate] that follows the choice of [matrix]. *)
Definition apply_matrix (matrix : Matrix) (qubitIndex : Z) : M unit :=
  n ← get_numQubits;
  let size := size_of n in
  newState ← lift (arr_make size zero);
  newState ← for_each (indices size) (λ i newState,
    let bit := js_and (js_shr i (shift n qubitIndex)) 1 in
    for_each [0; 1] (λ newBit newState,
      let newIndex :=
        js_or (js_and i (js_not (js_shl 1 (shift n qubitIndex))))
              (js_shl newBit (shift n qubitIndex)) in
      entry ← lift (matrix_get matrix newBit bit);
      let matrixElement := Complex.fromNumber entry in
      sv ← get_stateVector;
      contribution ← lift (Complex.multiply matrixElement (arr_get sv i));
      sum ← lift (Complex.add (arr_get newState newIndex) contribution);
      mret (arr_set newState newIndex sum)) newState) newState;
  set_stateVector newState.

(** The matrix element [matrix[r][c]] as a complex number. *)
Definition entry (m : Matrix) (r c : bool) : value :=
  match matrix_get m (Z.b2z r) (Z.b2z c) with
  | Normal v => Complex.fromNumber v
  | Throw _ => VUndefined
  end.

Definition finite_matrix (m : Matrix) : Prop :=
  ∀ r c, (∃ v, matrix_get m (Z.b2z r) (Z.b2z c) = Normal v) ∧
         is_amplitude (entry m r c).

(** Product and sum of two complex numbers with finite parts. *)
Definition cmul (a b : value) : value :=
  obj (re_of a * re_of b - im_of a * im_of b)
      (re_of a * im_of b + im_of a * re_of b).
Definition cadd (a b : value) : value :=
  obj (re_of a + re_of b) (im_of a + im_of b).

(** A 2x2 matrix with orthonormal columns. *)
Definition unitary (m : Matrix) : Prop :=
  finite_matrix m ∧
  let a := entry m false false in let b := entry m false true in
  let c := entry m true false in let d := entry m true true in
  (modulus2 a + modulus2 c = 1 ∧ modulus2 b + modulus2 d = 1 ∧
   re_of a * re_of b + im_of a * im_of b
     + re_of c * re_of d + im_of c * im_of d = 0 ∧
   re_of a * im_of b - im_of a * re_of b
     + re_of c * im_of d - im_of c * re_of d = 0)%R.

(** What index [i] adds to the new amplitude at [k], for the matrix [m] applied
    at bit position [s] of the state vector [sv]. *)
Definition contribution (m : Matrix) (s : Z) (sv : jsarray) (k i : Z) : value :=
  if decide (put_bit i s false = put_bit k s false)
  then cmul (entry m (Z.testbit k s) (Z.testbit i s)) (arr_get sv i)
  else obj 0 0.

(** The index with the bit at position [s] flipped. *)
Definition flip_bit (s k : Z) : Z := put_bit k s (negb (Z.testbit k s)).

(** The shift count of [q], reduced modulo 32 as the operators reduce it,
    selects none of the [n] bits of a basis index. *)
Definition beyond_register (n : nat) (q : Z) : Prop :=
  Z.of_nat n ≤ shift n q `mod` 32.

Definition is_object (v : value) : Prop := ∃ c, v = VObject c.

Definition four_objects (rhos : value * value * value * value) : Prop :=
  let '(r00, r01, r10, r11) := rhos in
  is_object r00 ∧ is_object r01 ∧ is_object r10 ∧ is_object r11.

Definition supported_kinds : list string := fst <$> GATES_own.

(** Mass of the indices [lo .. lo+len-1]. *)
Definition mass (ps : jsarray) (lo len : Z) : R :=
  Rsum ((λ k, real_of (arr_get ps k)) <$> seqZ lo len).

(** While the loop is between the two members of the pair of [k], the pair
    is exchanged. *)
Definition pair_open (s m k : Z) : bool :=
  bool_decide (put_bit k s false < m ≤ put_bit k s true).

(** A fresh two-qubit simulator, before its constructor has run [reset]. *)
Definition two_qubits : world := mkWorld (mkSimulator 2 (mkArray 0 ∅)) [].

(** The circuit [H(0); CNOT(0,1); RZ(0.5) on qubit 1; SWAP(0,1)]. *)
Definition sample_circuit : list GateOp :=
  [ mkGateOp "H" 0 0 None 0;
    mkGateOp "CNOT" 0 1 None 1;
    mkGateOp "RZ" 1 0 (Some (mkParams (Some (Fin (1 / 2))))) 2;
    mkGateOp "SWAP" 0 1 None 3 ].

(** The one-qubit and the two-qubit simulator as their constructor leaves
    them. *)
Definition one_qubit : world := snd (new 1 []).
Definition two_qubits_reset : world := snd (new 2 []).

(** A one-qubit simulator whose state vector has the amplitude 1/2 at both
    indices. *)
Definition half_half : world :=
  mkWorld (mkSimulator 1
             (mkArray 2 (<[0 := obj (1 / 2) 0]> (<[1 := obj (1 / 2) 0]> ∅))))
          [].

(** ** The Bloch sphere *)

(** [a / b]; the divisions of the modelled code are by the literal 2 and by a
    length that was tested to be positive. A division by zero, which yields
    an infinity or [NaN] in JavaScript, is represented by [NaN]. *)
Definition num_div (a b : num) : num :=
  match a, b with
  | Fin x, Fin y => if Req_dec_T y 0 then NaN else Fin (x / y)
  | _, _ => NaN
  end.

(** [a > b]: false as soon as one side is [NaN]. *)
Definition num_gt (a b : num) : bool :=
  match a, b with
  | Fin x, Fin y => if Rlt_dec y x then true else false
  | _, _ => false
  end.

Definition Math_cos : num → num := num_lift1 cos.
Definition Math_sin : num → num := num_lift1 sin.
Definition Math_min : num → num → num := num_lift2 Rmin.
Definition Math_abs : num → num := num_lift1 Rabs.

(** The numeric fields of a [BlochSphere]; the canvas, its drawing context,
    the colours and the handle of the pending animation frame are not
    numbers and are left out. *)
Record BlochSphere : Type := mkBlochSphere {
  width : num; height : num;
  centerX : num; centerY : num; radius : num;
  viewAngleX : num; viewAngleZ : num;
  stateX : num; stateY : num; stateZ : num;
  targetX : num; targetY : num; targetZ : num
}.

(** The object returned by [project]. *)
Record Projected : Type := mkProjected {
  proj_x : num; proj_y : num; proj_depth : num
}.

Module BlochSphere.

(** [new BlochSphere(canvas)], from [canvas.width] and [canvas.height]; the
    drawing done by the first [render] leaves the fields as they are. *)
Definition new (canvas_width canvas_height : num) : BlochSphere :=
  let width := canvas_width in
  let height := canvas_height in
  mkBlochSphere width height
    (num_div width (Fin 2)) (num_div height (Fin 2))
    (num_sub (num_div (Math_min width height) (Fin 2)) (Fin 20))
    (Fin (4 / 10)) (Fin (- (5 / 10)))
    (Fin 0) (Fin 0) (Fin 1)
    (Fin 0) (Fin 0) (Fin 1).

Definition project (this : BlochSphere) (x y z : num) : Projected :=
  let cosX := Math_cos (viewAngleX this) in
  let sinX := Math_sin (viewAngleX this) in
  let y1 := num_sub (num_mul y cosX) (num_mul z sinX) in
  let z1 := num_add (num_mul y sinX) (num_mul z cosX) in
  let cosZ := Math_cos (viewAngleZ this) in
  let sinZ := Math_sin (viewAngleZ this) in
  let x2 := num_sub (num_mul x cosZ) (num_mul y1 sinZ) in
  let y2 := num_add (num_mul x sinZ) (num_mul y1 cosZ) in
  let screenX := num_add (centerX this) (num_mul x2 (radius this)) in
  let screenY := num_sub (centerY this) (num_mul z1 (radius this)) in
  mkProjected screenX screenY y2.

(** [setState(x, y, z, animate)]: the fields when the call returns. With
    [animate] the state moves later, one [animate] frame at a time. *)
Definition setState (this : BlochSphere) (x y z : num) (animate : bool)
    : BlochSphere :=
  let this :=
    mkBlochSphere (width this) (height this) (centerX this) (centerY this)
      (radius this) (viewAngleX this) (viewAngleZ this)
      (stateX this) (stateY this) (stateZ this) x y z in
  if animate then this
  else mkBlochSphere (width this) (height this) (centerX this) (centerY this)
         (radius this) (viewAngleX this) (viewAngleZ this) x y z x y z.

(** [setStateFromQubit(qubitState)] *)
Definition setStateFromQubit (this : BlochSphere) (qubitState : QubitState)
    : BlochSphere :=
  setState this (qs_x qubitState) (qs_y qubitState) (qs_z qubitState) true.

(** One run of the callback [animate] of [_animateToTarget]: the fields
    after it, and whether it has requested another frame. *)
Definition animate (this : BlochSphere) : BlochSphere * bool :=
  let ease := Fin (15 / 100) in
  let stateX' :=
    num_add (stateX this) (num_mul (num_sub (targetX this) (stateX this)) ease) in
  let stateY' :=
    num_add (stateY this) (num_mul (num_sub (targetY this) (stateY this)) ease) in
  let stateZ' :=
    num_add (stateZ this) (num_mul (num_sub (targetZ this) (stateZ this)) ease) in
  let this :=
    mkBlochSphere (width this) (height this) (centerX this) (centerY this)
      (radius this) (viewAngleX this) (viewAngleZ this)
      stateX' stateY' stateZ' (targetX this) (targetY this) (targetZ this) in
  let diff :=
    num_add (num_add (Math_abs (num_sub (stateX this) (targetX this)))
                     (Math_abs (num_sub (stateY this) (targetY this))))
            (Math_abs (num_sub (stateZ this) (targetZ this))) in
  (this, num_gt diff (Fin (1 / 1000))).

(** The frames of an animation: [animate] runs again as long as it asks
    for another frame; [None] when [fuel] frames were not enough. *)
Fixpoint frames (fuel : nat) (this : BlochSphere) : option BlochSphere :=
  match fuel with
  | O => None
  | S fuel =>
      let '(this, again) := animate this in
      if again then frames fuel this else Some this
  end.

(** The point [end] at which [_drawStateVector] draws the tip of the state
    vector. *)
Definition stateVector_end (this : BlochSphere) : Projected :=
  let length :=
    Math_sqrt (num_add (num_add (num_mul (stateX this) (stateX this))
                                (num_mul (stateY this) (stateY this)))
                       (num_mul (stateZ this) (stateZ this))) in
  let nx := if num_gt length (Fin 0) then num_div (stateX this) length else Fin 0 in
  let ny := if num_gt length (Fin 0) then num_div (stateY this) length else Fin 0 in
  let nz := if num_gt length (Fin 0) then num_div (stateZ this) length else Fin 1 in
  project this nx ny nz.

End BlochSphere.

(** ** The circuit *)

(** A gate operation as [QuantumCircuit] stores it: [id] is the number
    [Date.now() + Math.random()], [targetQubit] may be absent. *)
Record CircuitGate : Type := mkCircuitGate {
  cg_id : R;
  cg_gate : string;
  cg_qubit : Z;
  cg_position : Z;
  cg_params : Params;
  cg_targetQubit : option Z
}.

(** The argument [options] of [addGate]; each field may be absent. *)
Record AddOptions : Type := mkAddOptions {
  opt_targetQubit : option Z;
  opt_params : option Params;
  opt_position : option Z
}.

(** A gate of the object returned by [toJSON]: a gate without its [id]. *)
Record JsonGate : Type := mkJsonGate {
  jg_gate : string;
  jg_qubit : Z;
  jg_targetQubit : option Z;
  jg_position : Z;
  jg_params : Params
}.

(** The argument of [fromJSON]; both fields may be absent. *)
Record JsonCircuit : Type := mkJsonCircuit {
  json_numQubits : option Z;
  json_gates : option (list JsonGate)
}.

Section circuit.

(** What the change listeners act on: the rest of the program. A listener
    is called with the circuit, of which it reads [numQubits] and [gates]. *)
Variable E : Type.

Definition Listener : Type := Z → list CircuitGate → E → E.

Record QuantumCircuit : Type := mkQuantumCircuit {
  qc_numQubits : Z;
  qc_gates : list CircuitGate;
  qc_nextPosition : Z;
  qc_onChangeCallbacks : list Listener
}.

(** [new QuantumCircuit(numQubits)] *)
Definition qc_new (numQubits : Z) : QuantumCircuit :=
  mkQuantumCircuit numQubits [] 0 [].

Definition onChange (this : QuantumCircuit) (callback : Listener)
    : QuantumCircuit :=
  mkQuantumCircuit (qc_numQubits this) (qc_gates this) (qc_nextPosition this)
    (qc_onChangeCallbacks this ++ [callback]).

Definition _notifyChange (this : QuantumCircuit) (env : E) : E :=
  foldl (λ env cb, cb (qc_numQubits this) (qc_gates this) env) env
        (qc_onChangeCallbacks this).

(** The test of the filter of [setNumQubits]. *)
Definition fits (n : Z) (g : CircuitGate) : bool :=
  if decide (n ≤ cg_qubit g) then false
  else match cg_targetQubit g with
       | Some t => if decide (n ≤ t) then false else true
       | None => true
       end.

Definition qc_setNumQubits (this : QuantumCircuit) (n : Z) (env : E)
    : QuantumCircuit * E :=
  let this :=
    mkQuantumCircuit n (List.filter (fits n) (qc_gates this))
      (qc_nextPosition this) (qc_onChangeCallbacks this) in
  (this, _notifyChange this env).

(** [g.qubit === qubit || g.targetQubit === qubit] *)
Definition touches (qubit : Z) (g : CircuitGate) : bool :=
  bool_decide (cg_qubit g = qubit) || bool_decide (cg_targetQubit g = Some qubit).

Definition _findNextPosition (this : QuantumCircuit) (qubit : Z) : Z :=
  let qubitGates := List.filter (touches qubit) (qc_gates this) in
  match qubitGates with
  | [] => 0
  | g :: rest =>
      let maxPos := foldl Z.max (cg_position g) (cg_position <$> rest) in
      maxPos + 1
  end.

(** [addGate(gate, qubit, options)]; [id] is the value of
    [Date.now() + Math.random()]. *)
Definition addGate (this : QuantumCircuit) (gate : string) (qubit : Z)
    (options : AddOptions) (id : R) (env : E) : R * QuantumCircuit * E :=
  let gateOp :=
    mkCircuitGate id gate qubit
      (match opt_position options with
       | Some position => position
       | None => _findNextPosition this qubit
       end)
      (default (mkParams None) (opt_params options))
      (opt_targetQubit options) in
  let this :=
    mkQuantumCircuit (qc_numQubits this) (qc_gates this ++ [gateOp])
      (qc_nextPosition this) (qc_onChangeCallbacks this) in
  (cg_id gateOp, this, _notifyChange this env).

(** [gates.splice(index, 1)] at the first gate that passes [test]. *)
Fixpoint remove_first (test : CircuitGate → bool) (gates : list CircuitGate)
    : option (list CircuitGate) :=
  match gates with
  | [] => None
  | g :: gates =>
      if test g then Some gates
      else rest ← remove_first test gates; Some (g :: rest)
  end.

Definition removeGate (this : QuantumCircuit) (gateId : R) (env : E)
    : QuantumCircuit * E :=
  match remove_first (λ g, if Req_dec_T (cg_id g) gateId then true else false)
          (qc_gates this) with
  | Some gates =>
      let this :=
        mkQuantumCircuit (qc_numQubits this) gates (qc_nextPosition this)
          (qc_onChangeCallbacks this) in
      (this, _notifyChange this env)
  | None => (this, env)
  end.

Definition clear (this : QuantumCircuit) (env : E) : QuantumCircuit * E :=
  let this :=
    mkQuantumCircuit (qc_numQubits this) [] 0 (qc_onChangeCallbacks this) in
  (this, _notifyChange this env).

Definition getDepth (this : QuantumCircuit) : Z :=
  match qc_gates this with
  | [] => 0
  | g :: rest => foldl Z.max (cg_position g) (cg_position <$> rest) + 1
  end.

Definition getGatesAtPosition (this : QuantumCircuit) (position : Z)
    : list CircuitGate :=
  List.filter (λ g, bool_decide (cg_position g = position)) (qc_gates this).

Definition toJSON (this : QuantumCircuit) : JsonCircuit :=
  mkJsonCircuit (Some (qc_numQubits this))
    (Some ((λ g, mkJsonGate (cg_gate g) (cg_qubit g) (cg_targetQubit g)
                   (cg_position g) (cg_params g)) <$> qc_gates this)).

(** [fromJSON(data)]; [ids k] is the value of [Date.now() + Math.random()]
    drawn for the gate at index [k]. *)
Definition fromJSON (this : QuantumCircuit) (data : JsonCircuit)
    (ids : nat → R) (env : E) : QuantumCircuit * E :=
  let numQubits :=
    match json_numQubits data with
    | Some n => if decide (n = 0) then 3 else n
    | None => 3
    end in
  let gates :=
    imap (λ k g, mkCircuitGate (ids k) (jg_gate g) (jg_qubit g) (jg_position g)
                   (jg_params g) (jg_targetQubit g))
         (default [] (json_gates data)) in
  let this :=
    mkQuantumCircuit numQubits gates (qc_nextPosition this)
      (qc_onChangeCallbacks this) in
  (this, _notifyChange this env).

End circuit.

Arguments qc_numQubits {E}.
Arguments qc_gates {E}.
Arguments qc_nextPosition {E}.
Arguments qc_onChangeCallbacks {E}.
Arguments _notifyChange {E}.
Arguments qc_setNumQubits {E}.
Arguments _findNextPosition {E}.
Arguments addGate {E}.
Arguments removeGate {E}.
Arguments clear {E}.
Arguments getDepth {E}.
Arguments getGatesAtPosition {E}.
Arguments toJSON {E}.
Arguments fromJSON {E}.
Arguments onChange {E}.

(** ** Vocabulary of the further properties *)

(** The loop test of [applyCZ] at the basis index [k]. *)
Definition cz_hits (n : nat) (c t k : Z) : bool :=
  bool_decide (js_and (js_shr k (shift n c)) 1 = 1)
  && bool_decide (js_and (js_shr k (shift n t)) 1 = 1).

(** The amplitude at [k] after the 2x2 matrix with entries [e] has acted on
    the bit at position [s] of the state vector [sv]. *)
Definition act (e : bool → bool → value) (s : Z) (sv : jsarray) (k : Z) : value :=
  cadd (cmul (e (Z.testbit k s) false) (arr_get sv (put_bit k s false)))
       (cmul (e (Z.testbit k s) true) (arr_get sv (put_bit k s true))).

(** The entries of the product [e2 · e1]. *)
Definition product (e2 e1 : bool → bool → value) (r c : bool) : value :=
  cadd (cmul (e2 r false) (e1 false c)) (cmul (e2 r true) (e1 true c)).

(** The entries of the identity matrix. *)
Definition identity (r c : bool) : value :=
  if Bool.eqb r c then obj 1 0 else obj 0 0.

Definition self_inverse_kinds : list string := ["H"; "X"; "Y"; "Z"]%string.

Definition diagonal_kinds : list string := ["Z"; "S"; "T"; "RZ"]%string.

Definition by_position (g h : GateOp) : Prop := position g ≤ position h.

(** [m] appends to the console and is otherwise independent of it. *)
Definition console_blind {A} (m : M A) : Prop :=
  ∀ s, ∃ r s' l, ∀ c, m (mkWorld s c) = (r, mkWorld s' (c ++ l)).

(** The same completion and the same simulator, on consoles that may differ. *)
Definition same_outcome {A} (x y : completion A * world) : Prop :=
  fst x = fst y ∧ this (snd x) = this (snd y).

(** A string of binary digits. *)
Fixpoint binary_digits (s : string) : bool :=
  match s with
  | EmptyString => true
  | String c s =>
      (bool_decide (c = "0"%char) || bool_decide (c = "1"%char))
      && binary_digits s
  end.

(** A number, or an object whose two fields are finite numbers. *)
Definition finite_complex (v : value) : Prop :=
  is_amplitude (Complex.fromNumber v).

(** The matrix that [applySingleQubitGate] reads for the kind [name] and the
    angle [theta]. *)
Definition matrix_for (name : string) (theta : num) : option Matrix :=
  match GATES name with
  | None => None
  | Some g =>
      if decide (gate_type g = Some "rotation"%string) then
        match gate_getMatrix g with
        | Some getMatrix => Some (getMatrix theta)
        | None => None
        end
      else gate_matrix g
  end.

Definition sel (bi bj : bool) (rhos : value * value * value * value) : value :=
  let '(r00, r01, r10, r11) := rhos in
  if bi then (if bj then r11 else r10) else (if bj then r01 else r00).

Definition conj_of (v : value) : value := obj (re_of v) (- im_of v).

(** What the pair [(i, j)] of the double loop adds to the accumulator
    [rho_{bi bj}]. *)
Definition pair_term (sv : jsarray) (s : Z) (bi bj : bool) (i j : Z) : value :=
  if decide (put_bit i s false = put_bit j s false) then
    if bool_decide (Z.testbit i s = bi) && bool_decide (Z.testbit j s = bj)
    then cmul (arr_get sv i) (conj_of (arr_get sv j)) else obj 0 0
  else obj 0 0.

Definition row_re (sv : jsarray) (s : Z) (bi bj : bool) (size i : Z) : R :=
  Rsum ((λ j, re_of (pair_term sv s bi bj i j)) <$> indices size).
Definition row_im (sv : jsarray) (s : Z) (bi bj : bool) (size i : Z) : R :=
  Rsum ((λ j, im_of (pair_term sv s bi bj i j)) <$> indices size).

(** The probability that the qubit at bit position [s] reads [b]. *)
Definition marginal (sv : jsarray) (n : nat) (s : Z) (b : bool) : R :=
  Rsum ((λ k, if bool_decide (Z.testbit k s = b)
              then modulus2 (arr_get sv k) else 0%R) <$> indices (size_of n)).

(** The off-diagonal element of the reduced density matrix: the sum of
    [a_k · conj(a_k')] over the indices [k] whose bit [s] is 0, where [k']
    is [k] with that bit set. *)
Definition coherence_re (sv : jsarray) (n : nat) (s : Z) : R :=
  Rsum ((λ k, if Z.testbit k s then 0%R
              else (re_of (arr_get sv k) * re_of (arr_get sv (flip_bit s k))
                    + im_of (arr_get sv k) * im_of (arr_get sv (flip_bit s k)))%R)
          <$> indices (size_of n)).
Definition coherence_im (sv : jsarray) (n : nat) (s : Z) : R :=
  Rsum ((λ k, if Z.testbit k s then 0%R
              else (im_of (arr_get sv k) * re_of (arr_get sv (flip_bit s k))
                    - re_of (arr_get sv k) * im_of (arr_get sv (flip_bit s k)))%R)
          <$> indices (size_of n)).

(** [b] has the geometry of [b0]: the same centre, radius and viewing
    angles. *)
Definition same_geometry (b b0 : BlochSphere) : Prop :=
  centerX b = centerX b0 ∧ centerY b = centerY b0 ∧ radius b = radius b0 ∧
  viewAngleX b = viewAngleX b0 ∧ viewAngleZ b = viewAngleZ b0.

(** The one-qubit state |1>: amplitude 0 at index 0 and 1 at index 1. *)
Definition basis_one : world :=
  mkWorld (mkSimulator 1 (mkArray 2 (<[0 := obj 0 0]> (<[1 := obj 1 0]> ∅)))) [].

(** * Integer operators on the values that occur *)

Lemma ToInt32_small x : - 2 ^ 31 ≤ x < 2 ^ 31 → ToInt32 x = x.
Proof.
  intros Hx. unfold ToInt32.
  rewrite Z.mod_small; lia.
Qed.

Lemma pow2_le_mono (a b : Z) : 0 ≤ a ≤ b → 2 ^ a ≤ 2 ^ b.
Proof. intros. apply Z.pow_le_mono_r; lia. Qed.

Lemma pow2_pos (a : Z) : 0 ≤ a → 0 < 2 ^ a.
Proof. intros. apply Z.pow_pos_nonneg; lia. Qed.

Lemma testbit_b2z_shiftl (b : bool) (s j : Z) :
  0 ≤ s → 0 ≤ j →
  Z.testbit (Z.shiftl (Z.b2z b) s) j = bool_decide (j = s) && b.
Proof.
  intros Hs Hj. rewrite Z.shiftl_spec by done.
  case_bool_decide as E.
  - subst j. rewrite Z.sub_diag. destruct b; reflexivity.
  - destruct (Z_lt_dec j s).
    + rewrite Z.testbit_neg_r by lia. done.
    + destruct b; simpl; [|apply Z.testbit_0_l].
      change 1 with (2 ^ 0). rewrite Z.pow2_bits_eqb by lia.
      apply Z.eqb_neq. lia.
Qed.

Lemma put_bit_spec (i s j : Z) (b : bool) :
  0 ≤ s → 0 ≤ j →
  Z.testbit (put_bit i s b) j = if bool_decide (j = s) then b else Z.testbit i j.
Proof.
  intros Hs Hj. unfold put_bit.
  rewrite Z.lor_spec, testbit_b2z_shiftl by done.
  case_bool_decide as E.
  - subst j. rewrite Z.clearbit_eq by done. done.
  - rewrite Z.clearbit_neq by lia. simpl. apply orb_false_r.
Qed.

Lemma put_bit_nonneg (i s : Z) (b : bool) : 0 ≤ i → 0 ≤ s → 0 ≤ put_bit i s b.
Proof.
  intros Hi Hs. unfold put_bit. apply Z.lor_nonneg. split.
  - unfold Z.clearbit. apply Z.ldiff_nonneg. lia.
  - apply Z.shiftl_nonneg. destruct b; simpl; lia.
Qed.

Lemma bits_above_lt (a n : Z) :
  0 ≤ a → 0 ≤ n → (∀ j, n ≤ j → Z.testbit a j = false) → a < 2 ^ n.
Proof.
  intros Ha Hn Hbits.
  assert (a `mod` 2 ^ n = a) as <-.
  { apply Z.bits_inj'. intros j Hj.
    destruct (Z_lt_dec j n).
    - apply Z.mod_pow2_bits_low. lia.
    - rewrite Z.mod_pow2_bits_high by lia. symmetry. apply Hbits. lia. }
  apply Z.mod_pos_bound. by apply pow2_pos.
Qed.

Lemma lt_bits_above (a n j : Z) :
  0 ≤ a < 2 ^ n → n ≤ j → Z.testbit a j = false.
Proof.
  intros [Ha Hlt] Hj.
  destruct (decide (a = 0)) as [->|]; [apply Z.testbit_0_l|].
  apply Z.bits_above_log2; [done|].
  assert (0 ≤ n).
  { destruct (Z_lt_dec n 0); [|lia]. rewrite Z.pow_neg_r in Hlt; lia. }
  assert (Z.log2 a < n); [|lia].
  apply Z.log2_lt_pow2; lia.
Qed.

Lemma put_bit_range (i s n : Z) (b : bool) :
  0 ≤ i < 2 ^ n → 0 ≤ s < n → 0 ≤ put_bit i s b < 2 ^ n.
Proof.
  intros Hi Hs. split; [apply put_bit_nonneg; lia|].
  apply bits_above_lt; [apply put_bit_nonneg; lia|lia|].
  intros j Hj. rewrite put_bit_spec by lia.
  rewrite bool_decide_eq_false_2 by lia.
  by apply (lt_bits_above i n).
Qed.

Lemma put_bit_same (i s : Z) : 0 ≤ s → put_bit i s (Z.testbit i s) = i.
Proof.
  intros Hs. apply Z.bits_inj'. intros j Hj.
  rewrite put_bit_spec by done. case_bool_decide; by subst.
Qed.

Lemma put_bit_put_bit (i s : Z) (b c : bool) :
  0 ≤ s → put_bit (put_bit i s b) s c = put_bit i s c.
Proof.
  intros Hs. apply Z.bits_inj'. intros j Hj.
  rewrite !put_bit_spec by done. by case_bool_decide.
Qed.

(** The JavaScript expressions, for a basis index below [2^31] and a shift
    count that is not reduced modulo 32. *)

Lemma js_bit (i s : Z) :
  0 ≤ i < 2 ^ 31 → 0 ≤ s ≤ 31 →
  js_and (js_shr i s) 1 = Z.b2z (Z.testbit i s).
Proof.
  intros Hi Hs. unfold js_and, js_shr.
  rewrite (ToInt32_small i) by lia.
  rewrite (Z.mod_small s) by lia.
  assert (0 ≤ Z.shiftr i s < 2 ^ 31) as Hr.
  { rewrite Z.shiftr_div_pow2 by lia. split.
    - apply Z.div_pos; [lia|]. apply pow2_pos; lia.
    - apply Z.div_lt_upper_bound; [apply pow2_pos; lia|].
      pose proof (pow2_pos s). nia. }
  rewrite (ToInt32_small (Z.shiftr i s)) by lia.
  rewrite (ToInt32_small 1) by lia.
  change 1 with (Z.ones 1) at 1. rewrite Z.land_ones by lia.
  change (2 ^ 1) with 2. rewrite <- Z.bit0_mod.
  rewrite Z.shiftr_spec by lia. done.
Qed.

Lemma js_shl_bit (b : bool) (s : Z) :
  0 ≤ s ≤ 30 → js_shl (Z.b2z b) s = Z.shiftl (Z.b2z b) s.
Proof.
  intros Hs. unfold js_shl.
  rewrite (Z.mod_small s) by lia.
  rewrite (ToInt32_small (Z.b2z b)) by (destruct b; simpl; lia).
  apply ToInt32_small. rewrite Z.shiftl_mul_pow2 by lia.
  pose proof (pow2_le_mono s 30 ltac:(lia)). pose proof (pow2_pos s).
  change (2 ^ 30) with 1073741824 in *.
  destruct b; simpl; lia.
Qed.

Lemma js_put_bit (i s : Z) (b : bool) :
  0 ≤ i < 2 ^ 31 → 0 ≤ s ≤ 30 →
  js_or (js_and i (js_not (js_shl 1 s))) (js_shl (Z.b2z b) s) = put_bit i s b.
Proof.
  intros Hi Hs.
  rewrite (js_shl_bit b s) by done.
  change 1 with (Z.b2z true) at 1. rewrite (js_shl_bit true s) by done.
  simpl Z.b2z.
  assert (0 < 2 ^ s ≤ 2 ^ 30) as Hp.
  { split; [apply pow2_pos; lia|apply pow2_le_mono; lia]. }
  change (2 ^ 30) with 1073741824 in Hp.
  unfold js_or, js_and, js_not.
  rewrite Z.shiftl_1_l.
  rewrite (ToInt32_small (2 ^ s)) by lia.
  rewrite (ToInt32_small i) by lia.
  rewrite (ToInt32_small (Z.lnot (2 ^ s))) by (unfold Z.lnot; lia).
  rewrite <- Z.ldiff_land.
  assert (0 ≤ Z.ldiff i (2 ^ s) < 2 ^ 31) as Hd.
  { split; [apply Z.ldiff_nonneg; lia|].
    apply bits_above_lt; [apply Z.ldiff_nonneg; lia|lia|].
    intros j Hj. rewrite Z.ldiff_spec.
    rewrite (lt_bits_above i 31 j) by lia. done. }
  rewrite (ToInt32_small (Z.ldiff i (2 ^ s))) by lia.
  assert (0 ≤ Z.shiftl (Z.b2z b) s < 2 ^ 31) as Hb.
  { rewrite Z.shiftl_mul_pow2 by lia. destruct b; simpl; lia. }
  rewrite (ToInt32_small (Z.shiftl (Z.b2z b) s)) by lia.
  unfold put_bit, Z.clearbit. by rewrite Z.shiftl_1_l.
Qed.

Lemma elem_of_indices (size k : Z) : k ∈ indices size ↔ 0 ≤ k < size.
Proof. unfold indices. rewrite elem_of_seqZ. lia. Qed.

Lemma NoDup_indices (size : Z) : NoDup (indices size).
Proof. apply NoDup_seqZ. Qed.

Lemma lookup_tabulate (f : Z → value) (l : list Z) (k : Z) :
  tabulate f l !! k = if decide (k ∈ l) then Some (f k) else None.
Proof.
  unfold tabulate. induction l as [|a l IH].
  - rewrite fmap_nil, list_to_map_nil, lookup_empty.
    rewrite decide_False; [done|]. apply not_elem_of_nil.
  - rewrite fmap_cons, list_to_map_cons, lookup_insert.
    destruct (decide (a = k)) as [->|E1].
    + rewrite decide_True by left. done.
    + rewrite IH. destruct (decide (k ∈ l)) as [E2|E2].
      * rewrite decide_True by (by right). done.
      * rewrite decide_False; [done|]. intros [?|?]%elem_of_cons; congruence.
Qed.

Lemma arr_make_ok (size : Z) (v : value) :
  size ≤ 2 ^ 32 - 1 →
  ∃ a, arr_make size v = Normal a ∧ arr_length a = size ∧
       (∀ k, 0 ≤ k < size → arr_get a k = v) ∧
       (∀ k, ¬ 0 ≤ k < size → arr_get a k = VUndefined).
Proof.
  intros Hs. unfold arr_make. rewrite decide_True by done.
  eexists. split; [done|]. split; [done|].
  unfold arr_get; simpl. split; intros k Hk; rewrite lookup_tabulate.
  - rewrite decide_True by (by apply elem_of_indices). done.
  - rewrite decide_False by (by rewrite elem_of_indices). done.
Qed.

Lemma arr_get_set (a : jsarray) (j k : Z) (v : value) :
  arr_get (arr_set a j v) k = if decide (j = k) then v else arr_get a k.
Proof.
  unfold arr_get, arr_set; simpl. rewrite lookup_insert.
  by case_decide.
Qed.

Lemma arr_length_set (a : jsarray) (j : Z) (v : value) :
  0 ≤ j < arr_length a → arr_length (arr_set a j v) = arr_length a.
Proof. intros Hj. unfold arr_set; simpl. rewrite decide_True by lia. lia. Qed.

Lemma arr_get_spread (a : jsarray) (k : Z) :
  arr_get (arr_spread a) k
  = if decide (0 ≤ k < arr_length a) then arr_get a k else VUndefined.
Proof.
  unfold arr_spread, arr_get at 1; simpl. rewrite lookup_tabulate.
  case_decide as E; rewrite elem_of_indices in E.
  - rewrite decide_True by done. done.
  - rewrite decide_False by done. done.
Qed.

Lemma arr_map_loop_ok (f : value → completion value) (g : value → value)
    (a : jsarray) (ks : list Z) (out : jsarray) :
  (∀ k, k ∈ ks → ∃ v, arr_slots a !! k = Some v ∧ f v = Normal (g v)) →
  ∃ out', arr_map_loop f a ks out = Normal out' ∧
          arr_length out' = arr_length out ∧
          ∀ k, arr_slots out' !! k
               = if decide (k ∈ ks) then Some (g (arr_get a k))
                 else arr_slots out !! k.
Proof.
  revert out. induction ks as [|k0 ks IH]; intros out Hks.
  - exists out. split; [done|]. split; [done|]. intros k.
    rewrite decide_False; [done|]. apply not_elem_of_nil.
  - destruct (Hks k0) as (v & Hv & Hf); [left|].
    cbn [arr_map_loop]. rewrite Hv.
    unfold mbind, completion_bind. rewrite Hf.
    destruct (IH (mkArray (arr_length out) (<[k0:=g v]> (arr_slots out))))
      as (out' & Hrun & Hlen & Hget).
    { intros k Hk. apply Hks. by right. }
    exists out'. split; [done|]. split; [done|]. intros k.
    rewrite Hget. destruct (decide (k ∈ ks)) as [E1|E1].
    + rewrite decide_True by (by right). done.
    + cbn [arr_slots]. rewrite lookup_insert.
      destruct (decide (k0 = k)) as [->|E2].
      * rewrite decide_True by left. unfold arr_get. by rewrite Hv.
      * rewrite decide_False; [done|]. intros [?|?]%elem_of_cons; congruence.
Qed.

Lemma arr_map_slots (f : value → completion value) (g : value → value) (a : jsarray) :
  (∀ k, 0 ≤ k < arr_length a →
        ∃ v, arr_slots a !! k = Some v ∧ f v = Normal (g v)) →
  ∃ out, arr_map f a = Normal out ∧ arr_length out = arr_length a ∧
         ∀ k, arr_slots out !! k
              = if decide (0 ≤ k < arr_length a) then Some (g (arr_get a k))
                else None.
Proof.
  intros Ha. unfold arr_map.
  destruct (arr_map_loop_ok f g a (indices (arr_length a))
              (mkArray (arr_length a) ∅)) as (out & Hrun & Hlen & Hget).
  { intros k Hk. apply Ha. by apply elem_of_indices. }
  exists out. split; [done|]. split; [done|]. intros k. rewrite Hget.
  destruct (decide (0 ≤ k < arr_length a)) as [Hk|Hk].
  - rewrite decide_True by (by apply elem_of_indices). done.
  - rewrite decide_False by (by rewrite elem_of_indices). done.
Qed.

Lemma arr_map_ok (f : value → completion value) (g : value → value) (a : jsarray) :
  (∀ k, 0 ≤ k < arr_length a →
        ∃ v, arr_slots a !! k = Some v ∧ f v = Normal (g v)) →
  ∃ out, arr_map f a = Normal out ∧ arr_length out = arr_length a ∧
         (∀ k, 0 ≤ k < arr_length a → arr_get out k = g (arr_get a k)) ∧
         (∀ k, ¬ 0 ≤ k < arr_length a → arr_get out k = VUndefined).
Proof.
  intros Ha. destruct (arr_map_slots f g a Ha) as (out & Hrun & Hlen & Hget).
  exists out. split; [done|]. split; [done|].
  split; intros k Hk; unfold arr_get at 1; rewrite Hget.
  - by rewrite decide_True.
  - by rewrite decide_False.
Qed.

Lemma jsarray_eq (a b : jsarray) :
  arr_length a = arr_length b →
  (∀ k, arr_slots a !! k = arr_slots b !! k) → a = b.
Proof.
  destruct a as [la sa], b as [lb sb]. simpl. intros -> H.
  f_equal. by apply map_eq.
Qed.

Lemma slot_of_amplitude (a : jsarray) (k : Z) :
  is_amplitude (arr_get a k) → arr_slots a !! k = Some (arr_get a k).
Proof.
  intros (x & y & H). unfold arr_get in *.
  destruct (arr_slots a !! k); simpl in *; [done|discriminate].
Qed.

(** * Loops *)

Lemma for_each_invariant {A} (Inv : Z → A → world → Prop)
    (body : Z → A → M A) (len : nat) (lo : Z) (acc : A) (w : world) :
  Inv lo acc w →
  (∀ i a w, lo ≤ i < lo + Z.of_nat len → Inv i a w →
     ∃ a' w', body i a w = (Normal a', w') ∧ Inv (i + 1) a' w') →
  ∃ a' w', for_each (seqZ lo (Z.of_nat len)) body acc w = (Normal a', w')
           ∧ Inv (lo + Z.of_nat len) a' w'.
Proof.
  revert lo acc w. induction len as [|len IH]; intros lo acc w H0 Hstep.
  - exists acc, w. simpl. rewrite Z.add_0_r. done.
  - rewrite seqZ_cons by lia. simpl.
    destruct (Hstep lo acc w) as (a1 & w1 & Hb & H1); [lia|done|].
    unfold mbind, M_bind. rewrite Hb.
    replace (Z.pred (Z.of_nat (S len))) with (Z.of_nat len) by lia.
    destruct (IH (Z.succ lo) a1 w1) as (a' & w' & Hrun & Hinv).
    { by replace (Z.succ lo) with (lo + 1) by lia. }
    { intros i a w2 Hi. apply Hstep. lia. }
    exists a', w'. split; [done|].
    by replace (lo + Z.of_nat (S len)) with (Z.succ lo + Z.of_nat len) by lia.
Qed.

Lemma for_each_indices {A} (Inv : Z → A → world → Prop)
    (body : Z → A → M A) (size : Z) (acc : A) (w : world) :
  0 ≤ size →
  Inv 0 acc w →
  (∀ i a w, 0 ≤ i < size → Inv i a w →
     ∃ a' w', body i a w = (Normal a', w') ∧ Inv (i + 1) a' w') →
  ∃ a' w', for_each (indices size) body acc w = (Normal a', w')
           ∧ Inv size a' w'.
Proof.
  intros Hs H0 Hstep. unfold indices.
  destruct (for_each_invariant Inv body (Z.to_nat size) 0 acc w)
    as (a' & w' & Hrun & Hinv); [done| |].
  { intros i a w0 Hi. apply Hstep. lia. }
  rewrite Z2Nat.id in * by done. eauto.
Qed.

Ltac monad_unfold :=
  unfold mbind, M_bind, mret, M_ret, completion_bind, completion_ret, lift,
    get_numQubits, get_stateVector, set_stateVector, set_amplitude,
    console_log.

(** [loop_invariant Inv a w H1 H2] runs the first loop of the goal under the
    invariant [Inv]. *)
Ltac loop_invariant Inv a' w' Hrun Hinv :=
  match goal with
  | |- context [for_each (indices ?s) ?b ?a ?w] =>
      destruct (for_each_indices Inv b s a w) as (a' & w' & Hrun & Hinv)
  end.

Lemma size_of_bounds (n : nat) : (n ≤ 31)%nat → 0 < size_of n ≤ 2 ^ 31.
Proof.
  intros Hn. unfold size_of. split; [apply pow2_pos; lia|].
  apply pow2_le_mono; lia.
Qed.

Lemma shift_in_range (n : nat) (q : Z) :
  0 ≤ q < Z.of_nat n → 0 ≤ shift n q < Z.of_nat n.
Proof. unfold shift. lia. Qed.

Lemma put_bit_in_range (n : nat) (i s : Z) (b : bool) :
  0 ≤ i < size_of n → 0 ≤ s < Z.of_nat n → 0 ≤ put_bit i s b < size_of n.
Proof. unfold size_of. apply put_bit_range. Qed.

Lemma Rsum_ext {A} (f g : A → R) (l : list A) :
  (∀ k, k ∈ l → f k = g k) → Rsum (f <$> l) = Rsum (g <$> l).
Proof.
  induction l as [|a l IH]; intros H; [done|].
  rewrite !fmap_cons. unfold Rsum in *. cbn [foldr].
  rewrite H by left. rewrite IH; [done|]. intros k Hk. apply H. by right.
Qed.

Lemma multiply_minus_one (x y : R) :
  Complex.multiply (obj x y) (Complex.create (Fin (-1)) (Fin 0))
  = Normal (obj (x * -1 - y * 0) (x * 0 + y * -1)).
Proof. reflexivity. Qed.

Lemma modulus2_obj (x y : R) : modulus2 (obj x y) = (x * x + y * y)%R.
Proof. reflexivity. Qed.

Lemma applyCZ_spec (c t : Z) (w : world) :
  well_formed w →
  ∃ w', applyCZ c t w = (Normal tt, w') ∧
        numQubits (this w') = numQubits (this w) ∧
        console w' = console w ∧
        arr_length (stateVector (this w')) = arr_length (stateVector (this w)) ∧
        ∀ k, 0 ≤ k < size_of (numQubits (this w)) →
             is_amplitude (arr_get (stateVector (this w')) k) ∧
             modulus2 (arr_get (stateVector (this w')) k)
             = modulus2 (arr_get (stateVector (this w)) k).
Proof.
  intros (Hn & Hlen & Hamp).
  pose proof (size_of_bounds _ Hn) as Hsize.
  unfold applyCZ. monad_unfold.
  set (n := numQubits (this w)) in *.
  loop_invariant (λ (i : Z) (_ : unit) w',
       numQubits (this w') = n ∧ console w' = console w ∧
       arr_length (stateVector (this w')) = arr_length (stateVector (this w)) ∧
       ∀ k, 0 ≤ k < size_of n →
            is_amplitude (arr_get (stateVector (this w')) k) ∧
            modulus2 (arr_get (stateVector (this w')) k)
            = modulus2 (arr_get (stateVector (this w)) k))
    u w' Hrun Hinv.

  - lia.
  - split; [done|]. split; [done|]. split; [done|]. intros k Hk. split; [|done].
    by apply Hamp.
  - intros i [] w0 Hi (Hn0 & Hc0 & Hl0 & Hk0). cbv beta.
    destruct (_ && _).
    + destruct (Hk0 i Hi) as ((x & y & Hxy) & Hm).
      rewrite Hxy, multiply_minus_one.
      eexists tt, _. split; [reflexivity|]. cbn.
      split; [done|]. split; [done|]. split.
      { rewrite decide_True by lia. lia. }
      intros k Hk. rewrite arr_get_set. case_decide as E.
      * subst k. split; [by eexists _, _|].
        rewrite <- Hm, Hxy, !modulus2_obj. lra.
      * by apply Hk0.
    + eexists tt, w0. done.
  - destruct u. exists w'. split; [exact Hrun|]. tauto.
Qed.

(** * Sums over index lists *)

Lemma Rsum_app (l1 l2 : list R) : Rsum (l1 ++ l2) = (Rsum l1 + Rsum l2)%R.
Proof.
  unfold Rsum. induction l1 as [|a l1 IH]; simpl; [lra|]. rewrite IH. lra.
Qed.

Lemma Rsum_Permutation (l1 l2 : list R) : l1 ≡ₚ l2 → Rsum l1 = Rsum l2.
Proof.
  unfold Rsum. induction 1; simpl; lra.
Qed.

Lemma Rsum_plus {A} (f g : A → R) (l : list A) :
  Rsum ((λ k, f k + g k)%R <$> l) = (Rsum (f <$> l) + Rsum (g <$> l))%R.
Proof.
  induction l as [|a l IH]; [unfold Rsum; simpl; lra|].
  rewrite !fmap_cons. unfold Rsum in *. cbn [foldr]. rewrite IH. lra.
Qed.

Lemma Rsum_zero {A} (f : A → R) (l : list A) :
  (∀ k, k ∈ l → f k = 0%R) → Rsum (f <$> l) = 0%R.
Proof.
  induction l as [|a l IH]; intros H; [done|].
  rewrite fmap_cons. unfold Rsum in *. cbn [foldr].
  rewrite H by left. rewrite IH; [lra|]. intros k Hk. apply H. by right.
Qed.

Lemma Rsum_update (f f' : Z → R) (l : list Z) (p : Z) :
  NoDup l → p ∈ l → (∀ k, k ∈ l → k ≠ p → f' k = f k) →
  Rsum (f' <$> l) = (Rsum (f <$> l) - f p + f' p)%R.
Proof.
  intros Hnd Hp Hf. induction l as [|a l IH]; [by apply elem_of_nil in Hp|].
  apply NoDup_cons in Hnd as [Ha Hnd].
  rewrite !fmap_cons. unfold Rsum in *. cbn [foldr].
  destruct (decide (a = p)) as [->|Hne].
  - assert (foldr Rplus 0%R (f' <$> l) = foldr Rplus 0%R (f <$> l)) as ->.
    { apply (Rsum_ext f' f). intros k Hk. apply Hf; [by right|congruence]. }
    lra.
  - apply elem_of_cons in Hp as [?|Hp]; [congruence|].
    rewrite IH; [|done|done|intros k Hk; apply Hf; by right].
    rewrite Hf; [lra|left|done].
Qed.

Lemma Rsum_two (f : Z → R) (l : list Z) (p q : Z) :
  NoDup l → p ∈ l → q ∈ l → p ≠ q →
  (∀ k, k ≠ p → k ≠ q → f k = 0%R) →
  Rsum (f <$> l) = (f p + f q)%R.
Proof.
  intros Hnd Hp Hq Hpq Hf.
  rewrite (Rsum_update (λ k, if decide (k = p) then 0%R else f k) f l p Hnd Hp).
  2:{ intros k _ Hk. by rewrite decide_False. }
  rewrite (Rsum_update (λ _, 0%R) (λ k, if decide (k = p) then 0%R else f k)
             l q Hnd Hq).
  2:{ intros k _ Hk. case_decide; [done|]. by apply Hf. }
  rewrite (Rsum_zero (λ _ : Z, 0%R) l) by done.
  cbv beta. destruct (decide (q = p)); [congruence|].
  destruct (decide (p = p)); [lra|congruence].
Qed.

Lemma indices_snoc (m : Z) : 0 ≤ m → indices (m + 1) = indices m ++ [m].
Proof.
  intros Hm. unfold indices.
  rewrite seqZ_app by lia. rewrite Z.add_0_l.
  rewrite (seqZ_cons m 1) by lia. rewrite (seqZ_nil (Z.succ m)) by lia. done.
Qed.

Lemma indices_Permutation (f : Z → Z) (size : Z) :
  (∀ k, 0 ≤ k < size → 0 ≤ f k < size) →
  (∀ k, 0 ≤ k < size → f (f k) = k) →
  f <$> indices size ≡ₚ indices size.
Proof.
  intros Hrange Hinv. apply NoDup_Permutation.
  - apply NoDup_fmap_2_strong; [|apply NoDup_indices].
    intros x y Hx%elem_of_indices Hy%elem_of_indices Hxy.
    rewrite <- (Hinv x), <- (Hinv y) by done. by rewrite Hxy.
  - apply NoDup_indices.
  - intros k. rewrite list_elem_of_fmap. setoid_rewrite elem_of_indices. split.
    + intros (y & -> & Hy). by apply Hrange.
    + intros Hk. exists (f k). split; [by rewrite Hinv|by apply Hrange].
Qed.

Lemma Rsum_reindex (g : Z → R) (f : Z → Z) (size : Z) :
  (∀ k, 0 ≤ k < size → 0 ≤ f k < size) →
  (∀ k, 0 ≤ k < size → f (f k) = k) →
  Rsum ((λ k, g (f k)) <$> indices size) = Rsum (g <$> indices size).
Proof.
  intros Hrange Hinv.
  change (λ k, g (f k)) with (g ∘ f).
  rewrite (list_fmap_compose f g (indices size)).
  apply Rsum_Permutation, fmap_Permutation. by apply indices_Permutation.
Qed.

(** * SWAP *)

Lemma swap_bits_spec (s1 s2 i j : Z) :
  0 ≤ s1 → 0 ≤ s2 → 0 ≤ j →
  Z.testbit (swap_bits s1 s2 i) j
  = if bool_decide (j = s2) then Z.testbit i s1
    else if bool_decide (j = s1) then Z.testbit i s2
    else Z.testbit i j.
Proof.
  intros. unfold swap_bits. rewrite !put_bit_spec by done. done.
Qed.

Lemma swap_bits_involutive (s1 s2 i : Z) :
  0 ≤ s1 → 0 ≤ s2 → swap_bits s1 s2 (swap_bits s1 s2 i) = i.
Proof.
  intros H1 H2. apply Z.bits_inj'. intros j Hj.
  rewrite !swap_bits_spec by done.
  repeat case_bool_decide; subst; congruence.
Qed.

Lemma swap_bits_range (n : nat) (s1 s2 i : Z) :
  0 ≤ i < size_of n → 0 ≤ s1 < Z.of_nat n → 0 ≤ s2 < Z.of_nat n →
  0 ≤ swap_bits s1 s2 i < size_of n.
Proof.
  intros Hi H1 H2. unfold swap_bits.
  apply put_bit_in_range; [|done]. by apply put_bit_in_range.
Qed.

Lemma js_swap_bits (n : nat) (s1 s2 i : Z) :
  (n ≤ 31)%nat → 0 ≤ i < size_of n →
  0 ≤ s1 < Z.of_nat n → 0 ≤ s2 < Z.of_nat n →
  js_or (js_and (js_or (js_and i (js_not (js_shl 1 s1)))
                       (js_shl (js_and (js_shr i s2) 1) s1))
                (js_not (js_shl 1 s2)))
        (js_shl (js_and (js_shr i s1) 1) s2)
  = swap_bits s1 s2 i.
Proof.
  intros Hn Hi H1 H2. pose proof (size_of_bounds n Hn) as Hsz.
  rewrite !js_bit by lia.
  rewrite (js_put_bit i s1) by lia.
  assert (0 ≤ put_bit i s1 (Z.testbit i s2) < size_of n) as Hr.
  { apply put_bit_in_range; [done|lia]. }
  rewrite js_put_bit by lia. done.
Qed.

Lemma spread_amplitude (v : value) : is_amplitude v → spread v = v.
Proof. by intros (x & y & ->). Qed.

Lemma applySWAP_spec (a b : Z) (w : world) :
  well_formed w → in_range w a → in_range w b →
  let n := numQubits (this w) in
  ∃ sv', applySWAP a b w
         = (Normal tt, mkWorld (mkSimulator n sv') (console w)) ∧
         arr_length sv' = size_of n ∧
         ∀ k, 0 ≤ k < size_of n →
              arr_get sv' k
              = arr_get (stateVector (this w)) (swap_bits (shift n a) (shift n b) k).
Proof.
  intros (Hn & Hlen & Hamp) Ha Hb n. unfold in_range in *. fold n in Hn, Hlen, Hamp, Ha, Hb.
  pose proof (size_of_bounds _ Hn) as Hsize.
  pose proof (shift_in_range n a Ha) as Hsa.
  pose proof (shift_in_range n b Hb) as Hsb.
  set (σ := swap_bits (shift n a) (shift n b)).
  unfold applySWAP. monad_unfold. fold n.
  destruct (arr_make_ok (size_of n) zero) as (ns & -> & Hnl & Hin & Hout); [lia|].
  loop_invariant (λ (m : Z) (ns' : jsarray) (w' : world),
      w' = w ∧ arr_length ns' = size_of n ∧
      ∀ k, 0 ≤ k < size_of n →
           arr_get ns' k = if decide (σ k < m)
                           then arr_get (stateVector (this w)) (σ k)
                           else zero)
    ns' w' Hrun Hinv.
  - lia.
  - split; [done|]. split; [done|]. intros k Hk.
    assert (0 ≤ σ k < size_of n) by (by apply swap_bits_range).
    rewrite decide_False by lia. by apply Hin.
  - intros i ns0 w0 Hi (-> & Hl0 & Hk0). cbv beta.
    rewrite (js_swap_bits n) by (done || lia). fold σ.
    assert (0 ≤ σ i < size_of n) as Hσi by (by apply swap_bits_range).
    eexists _, w. split; [reflexivity|]. split; [done|]. split.
    { rewrite arr_length_set; lia. }
    intros k Hk. rewrite arr_get_set.
    assert (0 ≤ σ k < size_of n) as Hσk by (by apply swap_bits_range).
    destruct (decide (σ i = k)) as [E|E].
    + assert (σ k = i) as -> by (rewrite <- E; apply swap_bits_involutive; lia).
      rewrite decide_True by lia. apply spread_amplitude. by apply Hamp.
    + assert (σ k ≠ i).
      { intros <-. apply E. apply swap_bits_involutive; lia. }
      rewrite Hk0 by done. destruct (decide (σ k < i)).
      * rewrite decide_True by lia. done.
      * rewrite decide_False by lia. done.
  - destruct Hinv as (-> & Hl' & Hk'). rewrite Hrun.
    exists ns'. split; [done|]. split; [done|]. intros k Hk.
    rewrite Hk' by done.
    assert (0 ≤ σ k < size_of n) as Hσk by (by apply swap_bits_range).
    rewrite decide_True by lia. done.
Qed.

(** * CNOT *)

Lemma copy_state (w : world) :
  well_formed w →
  ∃ copy, arr_map (λ c, Normal (spread c)) (stateVector (this w)) = Normal copy ∧
          arr_length copy = size_of (numQubits (this w)) ∧
          (∀ k, 0 ≤ k < size_of (numQubits (this w)) →
                arr_get copy k = arr_get (stateVector (this w)) k) ∧
          (∀ k, ¬ 0 ≤ k < size_of (numQubits (this w)) →
                arr_get copy k = VUndefined).
Proof.
  intros (Hn & Hlen & Hamp).
  destruct (arr_map_ok (λ c, Normal (spread c)) spread (stateVector (this w)))
    as (copy & Hrun & Hl & Hin & Hout).
  { intros k Hk. rewrite Hlen in Hk. eexists. split; [|done].
    by apply slot_of_amplitude, Hamp. }
  rewrite Hlen in *. exists copy. split; [done|]. split; [done|].
  split; [|done]. intros k Hk. rewrite Hin by done.
  by apply spread_amplitude, Hamp.
Qed.

Lemma one_minus_bit (b : bool) : 1 - Z.b2z b = Z.b2z (negb b).
Proof. by destruct b. Qed.

Lemma b2z_eq_1 (b : bool) : Z.b2z b = 1 ↔ b = true.
Proof. destruct b; simpl; split; (done || lia). Qed.

Lemma applyCNOT_spec (c t : Z) (w : world) :
  well_formed w → in_range w c → in_range w t →
  ∃ w', applyCNOT c t w = (Normal tt, w') ∧ console w' = console w ∧
        norm_step w w'.
Proof.
  intros Hwf Hc Ht. destruct (copy_state w Hwf) as (copy & Hcopy & Hcl & Hcin & _).
  destruct Hwf as (Hn & Hlen & Hamp). unfold in_range in *.
  set (n := numQubits (this w)) in *.
  pose proof (size_of_bounds _ Hn) as Hsize.
  pose proof (shift_in_range n c Hc) as Hsc.
  pose proof (shift_in_range n t Ht) as Hst.
  unfold applyCNOT. monad_unfold. fold n. rewrite Hcopy.
  set (g := λ a k, modulus2 (arr_get a k)).
  loop_invariant (λ (m : Z) (ns : jsarray) (w' : world),
      w' = w ∧ arr_length ns = size_of n ∧
      (∀ k, 0 ≤ k < size_of n → is_amplitude (arr_get ns k)) ∧
      Rsum (g ns <$> indices (size_of n))
      = Rsum (g (stateVector (this w)) <$> indices (size_of n)))
    ns' w' Hrun Hinv.
  - lia.
  - split; [done|]. split; [by rewrite <- Hcl|]. split.
    + intros k Hk. rewrite arr_get_spread.
      rewrite decide_True by lia.
      rewrite Hcin by done. by apply Hamp.
    + apply Rsum_ext. intros k Hk%elem_of_indices. unfold g.
      rewrite arr_get_spread. rewrite decide_True by lia. by rewrite Hcin.
  - intros i ns w0 Hi (-> & Hl0 & Ha0 & Hs0). cbv beta.
    rewrite !js_bit by lia. case_decide as Hcb; [|by eexists ns, w].
    rewrite one_minus_bit, js_put_bit by lia.
    set (j := put_bit i (shift n t) (negb (Z.testbit i (shift n t)))).
    assert (0 ≤ j < size_of n) as Hj by (apply put_bit_in_range; lia).
    eexists _, w. split; [reflexivity|]. split; [done|]. split.
    { rewrite !arr_length_set; rewrite ?arr_length_set; lia. }
    split.
    + intros k Hk. rewrite !arr_get_set. repeat case_decide; by apply Ha0.
    + rewrite <- Hs0.
      rewrite (Rsum_update (g (arr_set ns i (arr_get ns j))) _ _ j);
        [|apply NoDup_indices|by apply elem_of_indices|].
      2:{ intros k _ Hk. unfold g. rewrite arr_get_set. by rewrite decide_False. }
      rewrite (Rsum_update (g ns) _ _ i);
        [|apply NoDup_indices|by apply elem_of_indices|].
      2:{ intros k _ Hk. unfold g. rewrite arr_get_set. by rewrite decide_False. }
      unfold g. rewrite !arr_get_set.
      rewrite (decide_True (P := j = j)) by done.
      rewrite (decide_True (P := i = i)) by done.
      clearbody j. case_decide; subst; lra.
  - destruct Hinv as (-> & Hl' & Ha' & Hs'). rewrite Hrun.
    eexists. split; [reflexivity|]. split; [done|].
    split; [|split]; [|done|done]. split; [done|]. split; done.
Qed.

(** * The single-qubit gate *)

Lemma multiply_amplitudes (a b : value) :
  is_amplitude a → is_amplitude b → Complex.multiply a b = Normal (cmul a b).
Proof. by intros (x & y & ->) (x' & y' & ->). Qed.

Lemma add_amplitudes (a b : value) :
  is_amplitude a → is_amplitude b → Complex.add a b = Normal (cadd a b).
Proof. by intros (x & y & ->) (x' & y' & ->). Qed.

Lemma is_amplitude_obj (x y : R) : is_amplitude (obj x y).
Proof. by exists x, y. Qed.

Lemma is_amplitude_cmul (a b : value) : is_amplitude (cmul a b).
Proof. apply is_amplitude_obj. Qed.

Lemma is_amplitude_cadd (a b : value) : is_amplitude (cadd a b).
Proof. apply is_amplitude_obj. Qed.

Lemma fromNumber_amplitude (v : value) :
  is_amplitude v → Complex.fromNumber v = v.
Proof. by intros (x & y & ->). Qed.

Lemma js_put_bit0 (i s : Z) :
  0 ≤ i < 2 ^ 31 → 0 ≤ s ≤ 30 →
  js_or (js_and i (js_not (js_shl 1 s))) (js_shl 0 s) = put_bit i s false.
Proof. apply (js_put_bit i s false). Qed.

Lemma js_put_bit1 (i s : Z) :
  0 ≤ i < 2 ^ 31 → 0 ≤ s ≤ 30 →
  js_or (js_and i (js_not (js_shl 1 s))) (js_shl 1 s) = put_bit i s true.
Proof. apply (js_put_bit i s true). Qed.

Lemma put_bit_testbit (i s : Z) (b : bool) :
  0 ≤ s → Z.testbit (put_bit i s b) s = b.
Proof. intros. rewrite put_bit_spec by done. by rewrite bool_decide_eq_true_2. Qed.

Lemma put_bit_false_true (i j s : Z) : 0 ≤ s → put_bit i s false ≠ put_bit j s true.
Proof.
  intros Hs E. apply (f_equal (λ x, Z.testbit x s)) in E.
  rewrite !put_bit_testbit in E by done. done.
Qed.

Lemma put_bit_cases (i k s : Z) :
  0 ≤ s → put_bit i s false = put_bit k s false →
  k = put_bit i s (Z.testbit k s).
Proof.
  intros Hs E. rewrite <- (put_bit_put_bit i s false) by done.
  rewrite E, put_bit_put_bit by done. symmetry. by apply put_bit_same.
Qed.

Lemma amplitude_eq (v : value) (x y : R) :
  is_amplitude v → re_of v = x → im_of v = y → v = obj x y.
Proof. intros (x' & y' & ->) <- <-. done. Qed.

Lemma Rsum_snoc (f : Z → R) (i : Z) :
  0 ≤ i → Rsum (f <$> indices (i + 1)) = (Rsum (f <$> indices i) + f i)%R.
Proof.
  intros Hi. rewrite indices_snoc, fmap_app, Rsum_app by done.
  unfold Rsum at 2. simpl. lra.
Qed.

Section single_qubit_gate.
Variables (m : Matrix) (q : Z) (w : world).
Hypothesis Hwf : well_formed w.
Hypothesis Hq : in_range w q.
Hypothesis Hm : finite_matrix m.

Local Abbreviation n := (numQubits (this w)).
Local Abbreviation s := (shift (numQubits (this w)) q).
Local Abbreviation sv := (stateVector (this w)).
Local Abbreviation contribution := (contribution m s sv).

Lemma contribution_other (k i : Z) :
  k ≠ put_bit i s false → k ≠ put_bit i s true → 0 ≤ s →
  contribution k i = obj 0 0.
Proof.
  intros H0 H1 Hs. unfold contribution. case_decide as E; [|done].
  apply put_bit_cases in E; [|done]. destruct (Z.testbit k s); congruence.
Qed.

Lemma apply_matrix_spec :
  ∃ sv', apply_matrix m q w
         = (Normal tt, mkWorld (mkSimulator n sv') (console w)) ∧
         arr_length sv' = size_of n ∧
         ∀ k, 0 ≤ k < size_of n →
              arr_get sv' k
              = cadd (cmul (entry m (Z.testbit k s) false)
                           (arr_get sv (put_bit k s false)))
                     (cmul (entry m (Z.testbit k s) true)
                           (arr_get sv (put_bit k s true))).
Proof.
  destruct Hwf as (Hn & Hlen & Hamp). unfold in_range in Hq.
  pose proof (size_of_bounds _ Hn) as Hsize.
  pose proof (shift_in_range n q Hq) as Hs.
  unfold apply_matrix. monad_unfold.
  destruct (arr_make_ok (size_of n) zero) as (ns & -> & Hnl & Hin & Hout); [lia|].
  loop_invariant (λ (i : Z) (ns' : jsarray) (w' : world),
      w' = w ∧ arr_length ns' = size_of n ∧
      ∀ k, 0 ≤ k < size_of n →
           is_amplitude (arr_get ns' k) ∧
           re_of (arr_get ns' k)
           = Rsum ((λ j, re_of (contribution k j)) <$> indices i) ∧
           im_of (arr_get ns' k)
           = Rsum ((λ j, im_of (contribution k j)) <$> indices i))
    ns' w' Hrun Hinv.
  - lia.
  - split; [done|]. split; [done|]. intros k Hk. rewrite Hin by done.
    split; [apply is_amplitude_obj|done].
  - intros i ns0 w0 Hi (-> & Hl0 & Hk0). cbv beta. cbn [for_each].
    monad_unfold.
    rewrite js_bit by lia. rewrite js_put_bit0, js_put_bit1 by lia.
    set (bi := Z.testbit i s).
    set (i0 := put_bit i s false). set (i1 := put_bit i s true).
    assert (0 ≤ i0 < size_of n) as Hi0 by (apply put_bit_in_range; lia).
    assert (0 ≤ i1 < size_of n) as Hi1 by (apply put_bit_in_range; lia).
    assert (i0 ≠ i1) as Hne by (apply put_bit_false_true; lia).
    destruct (Hm false bi) as ((v0 & Hv0) & Ha0).
    destruct (Hm true bi) as ((v1 & Hv1) & Ha1).
    assert (entry m false bi = Complex.fromNumber v0) as He0
      by (unfold entry; by rewrite Hv0).
    assert (entry m true bi = Complex.fromNumber v1) as He1
      by (unfold entry; by rewrite Hv1).
    rewrite He0 in Ha0. rewrite He1 in Ha1.
    simpl Z.b2z in Hv0, Hv1. rewrite Hv0, Hv1.
    destruct (Hk0 i0 Hi0) as (Hamp0 & Hre0 & Him0).
    destruct (Hk0 i1 Hi1) as (Hamp1 & Hre1 & Him1).
    rewrite (multiply_amplitudes _ _ Ha0 (Hamp i Hi)).
    rewrite (add_amplitudes _ _ Hamp0 (is_amplitude_cmul _ _)).
    rewrite (multiply_amplitudes _ _ Ha1 (Hamp i Hi)).
    rewrite arr_get_set, decide_False by done.
    rewrite (add_amplitudes _ _ Hamp1 (is_amplitude_cmul _ _)).
    eexists _, w. split; [reflexivity|]. split; [done|]. split.
    { rewrite !arr_length_set; rewrite ?arr_length_set; lia. }
    intros k Hk. rewrite !arr_get_set, !Rsum_snoc by lia.
    destruct (Hk0 k Hk) as (Hak & Hrek & Himk).
    destruct (decide (i1 = k)) as [<-|E1]; [|destruct (decide (i0 = k)) as [<-|E0]].
    + split; [apply is_amplitude_cadd|].
      unfold contribution at 2 4. fold i0 i1.
      rewrite decide_True by (unfold i0, i1; by rewrite put_bit_put_bit by lia).
      unfold i1 at 3 6. rewrite put_bit_testbit by lia. fold bi.
      rewrite He1. simpl. rewrite Hre1, Him1. done.
    + split; [apply is_amplitude_cadd|].
      unfold contribution at 2 4. fold i0 i1.
      rewrite decide_True by (unfold i0; by rewrite put_bit_put_bit by lia).
      unfold i0 at 3 6. rewrite put_bit_testbit by lia. fold bi.
      rewrite He0. simpl. rewrite Hre0, Him0. done.
    + split; [done|]. rewrite contribution_other by (done || lia).
      simpl. rewrite Hrek, Himk. split; lra.
  - destruct Hinv as (-> & Hl' & Hk'). rewrite Hrun.
    exists ns'. split; [done|]. split; [done|]. intros k Hk.
    destruct (Hk' k Hk) as (Hak & Hrek & Himk).
    set (k0 := put_bit k s false). set (k1 := put_bit k s true).
    assert (0 ≤ k0 < size_of n) as Hk0 by (apply put_bit_in_range; lia).
    assert (0 ≤ k1 < size_of n) as Hk1 by (apply put_bit_in_range; lia).
    assert (k0 ≠ k1) as Hne by (apply put_bit_false_true; lia).
    assert (contribution k k0
            = cmul (entry m (Z.testbit k s) false) (arr_get sv k0)) as Hc0.
    { unfold contribution.
      rewrite decide_True by (unfold k0; by rewrite put_bit_put_bit by lia).
      unfold k0 at 1. by rewrite put_bit_testbit by lia. }
    assert (contribution k k1
            = cmul (entry m (Z.testbit k s) true) (arr_get sv k1)) as Hc1.
    { unfold contribution.
      rewrite decide_True by (unfold k1; by rewrite put_bit_put_bit by lia).
      unfold k1 at 1. by rewrite put_bit_testbit by lia. }
    assert (∀ j, j ≠ k0 → j ≠ k1 → contribution k j = obj 0 0) as Hz.
    { intros j Hj0 Hj1. unfold contribution. case_decide as E; [|done].
      symmetry in E. apply put_bit_cases in E; [|lia].
      unfold k0, k1 in Hj0, Hj1. destruct (Z.testbit j s); congruence. }
    apply amplitude_eq; [done| |].
    + rewrite Hrek.
      rewrite (Rsum_two _ _ k0 k1);
        [|apply NoDup_indices|by apply elem_of_indices
         |by apply elem_of_indices|done|].
      * by rewrite Hc0, Hc1.
      * intros j Hj0 Hj1. by rewrite Hz.
    + rewrite Himk.
      rewrite (Rsum_two _ _ k0 k1);
        [|apply NoDup_indices|by apply elem_of_indices
         |by apply elem_of_indices|done|].
      * by rewrite Hc0, Hc1.
      * intros j Hj0 Hj1. by rewrite Hz.
Qed.
End single_qubit_gate.

Lemma unitary_pair (ar ai br bi cr ci dr di ur ui vr vi : R) :
  (ar * ar + ai * ai + (cr * cr + ci * ci) = 1 →
   br * br + bi * bi + (dr * dr + di * di) = 1 →
   ar * br + ai * bi + cr * dr + ci * di = 0 →
   ar * bi - ai * br + cr * di - ci * dr = 0 →
   let xr := ar * ur - ai * ui + (br * vr - bi * vi) in
   let xi := ar * ui + ai * ur + (br * vi + bi * vr) in
   let yr := cr * ur - ci * ui + (dr * vr - di * vi) in
   let yi := cr * ui + ci * ur + (dr * vi + di * vr) in
   xr * xr + xi * xi + (yr * yr + yi * yi)
   = ur * ur + ui * ui + (vr * vr + vi * vi))%R.
Proof.
  intros H1 H2 H3 H4 xr xi yr yi. unfold xr, xi, yr, yi.
  replace (_ + _)%R with
    ((ar * ar + ai * ai + (cr * cr + ci * ci)) * (ur * ur + ui * ui)
     + (br * br + bi * bi + (dr * dr + di * di)) * (vr * vr + vi * vi)
     + 2 * ((ar * br + ai * bi + cr * dr + ci * di) * (ur * vr + ui * vi)
            - (ar * bi - ai * br + cr * di - ci * dr) * (ur * vi - ui * vr)))%R
    by ring.
  rewrite H1, H2, H3, H4. ring.
Qed.

Lemma flip_bit_involutive (s k : Z) : 0 ≤ s → flip_bit s (flip_bit s k) = k.
Proof.
  intros Hs. unfold flip_bit. rewrite put_bit_testbit by done.
  rewrite put_bit_put_bit by done. rewrite negb_involutive.
  by apply put_bit_same.
Qed.

Lemma modulus2_cadd_cmul (a b u v : value) :
  modulus2 (cadd (cmul a u) (cmul b v))
  = (let xr := re_of a * re_of u - im_of a * im_of u
                 + (re_of b * re_of v - im_of b * im_of v) in
     let xi := re_of a * im_of u + im_of a * re_of u
                 + (re_of b * im_of v + im_of b * re_of v) in
     xr * xr + xi * xi)%R.
Proof. reflexivity. Qed.

Lemma apply_matrix_norm (m : Matrix) (q : Z) (w : world) :
  well_formed w → in_range w q → unitary m →
  ∃ w', apply_matrix m q w = (Normal tt, w') ∧ console w' = console w ∧
        norm_step w w'.
Proof.
  intros Hwf Hq (Hm & H1 & H2 & H3 & H4).
  destruct (apply_matrix_spec m q w Hwf Hq Hm) as (sv' & Hrun & Hlen' & Hsv').
  destruct Hwf as (Hn & Hlen & Hamp). unfold in_range in Hq.
  set (n := numQubits (this w)) in *. set (s := shift n q) in *.
  set (sv := stateVector (this w)) in *.
  pose proof (shift_in_range n q Hq) as Hs. fold s in Hs.
  eexists. split; [exact Hrun|]. split; [done|].
  split; [|split; [done|]].
  { split; [done|]. split; [done|]. cbn. intros k Hk.
    rewrite Hsv' by done. apply is_amplitude_cadd. }
  unfold norm2. cbn [this numQubits stateVector]. fold n sv.
  assert (∀ g : Z → R,
    (2 * Rsum (g <$> indices (size_of n))
     = Rsum ((λ k, g k + g (flip_bit s k)) <$> indices (size_of n)))%R) as Hdouble.
  { intros g. rewrite Rsum_plus.
    rewrite (Rsum_reindex g (flip_bit s)); [lra| |].
    - intros k Hk. apply put_bit_in_range; [done|lia].
    - intros k Hk. apply flip_bit_involutive. lia. }
  apply (Rmult_eq_reg_l 2); [|lra].
  rewrite (Hdouble (λ k, modulus2 (arr_get sv' k))).
  rewrite (Hdouble (λ k, modulus2 (arr_get sv k))).
  apply Rsum_ext. intros k Hk%elem_of_indices.
  assert (0 ≤ flip_bit s k < size_of n) as Hfk
    by (apply put_bit_in_range; [done|lia]).
  rewrite !Hsv' by done. unfold flip_bit in *.
  rewrite put_bit_testbit, !put_bit_put_bit by lia.
  set (u := arr_get sv (put_bit k s false)).
  set (v := arr_get sv (put_bit k s true)).
  rewrite !modulus2_cadd_cmul.
  pose proof (unitary_pair _ _ _ _ _ _ _ _ (re_of u) (im_of u) (re_of v) (im_of v)
                H1 H2 H3 H4) as Hpair. cbv zeta in Hpair. cbv zeta.
  destruct (Z.testbit k s) eqn:Hb; simpl negb.
  - assert (k = put_bit k s true) as Hk1
      by (rewrite <- Hb; symmetry; apply put_bit_same; lia).
    assert (arr_get sv k = v) as -> by (unfold v; congruence).
    fold u. unfold modulus2. lra.
  - assert (k = put_bit k s false) as Hk0
      by (rewrite <- Hb; symmetry; apply put_bit_same; lia).
    assert (arr_get sv k = u) as -> by (unfold u; congruence).
    fold v. unfold modulus2. lra.
Qed.

(** * The matrices of the gate table *)

Lemma unitary_2x2 (e00 e01 e10 e11 : value) (rest0 rest1 : list value)
    (rows : list (list value)) :
  is_amplitude (Complex.fromNumber e00) → is_amplitude (Complex.fromNumber e01) →
  is_amplitude (Complex.fromNumber e10) → is_amplitude (Complex.fromNumber e11) →
  (let a := Complex.fromNumber e00 in let b := Complex.fromNumber e01 in
   let c := Complex.fromNumber e10 in let d := Complex.fromNumber e11 in
   modulus2 a + modulus2 c = 1 ∧ modulus2 b + modulus2 d = 1 ∧
   re_of a * re_of b + im_of a * im_of b
     + re_of c * re_of d + im_of c * im_of d = 0 ∧
   re_of a * im_of b - im_of a * re_of b
     + re_of c * im_of d - im_of c * re_of d = 0)%R →
  unitary ((e00 :: e01 :: rest0) :: (e10 :: e11 :: rest1) :: rows).
Proof.
  intros H00 H01 H10 H11 Heq. split; [|exact Heq].
  intros [] []; (split; [by eexists|done]).
Qed.

Lemma inv_sqrt2_sq : (1 / sqrt 2 * (1 / sqrt 2) = 1 / 2)%R.
Proof.
  assert (0 < sqrt 2)%R as Hpos by (apply sqrt_lt_R0; lra).
  assert (sqrt 2 * sqrt 2 = 2)%R as Hsq by (apply sqrt_sqrt; lra).
  replace (1 / sqrt 2 * (1 / sqrt 2))%R with (1 / (sqrt 2 * sqrt 2))%R
    by (field; lra).
  rewrite Hsq. done.
Qed.

Lemma cos2_sin2 (x : R) : (cos x * cos x + sin x * sin x = 1)%R.
Proof. pose proof (sin2_cos2 x) as H. unfold Rsqr in H. lra. Qed.

Ltac unitary_entries :=
  apply unitary_2x2; [apply is_amplitude_obj..|];
  cbv zeta; unfold modulus2; cbn [Complex.fromNumber lit obj re_of im_of].

Lemma unitary_H (m : Matrix) : gate_matrix GATE_H = Some m → unitary m.
Proof.
  intros [= <-]. unitary_entries. pose proof inv_sqrt2_sq.
  repeat split; nra.
Qed.

Lemma unitary_X (m : Matrix) : gate_matrix GATE_X = Some m → unitary m.
Proof. intros [= <-]. unitary_entries. repeat split; lra. Qed.

Lemma unitary_Y (m : Matrix) : gate_matrix GATE_Y = Some m → unitary m.
Proof. intros [= <-]. unitary_entries. repeat split; lra. Qed.

Lemma unitary_Z (m : Matrix) : gate_matrix GATE_Z = Some m → unitary m.
Proof. intros [= <-]. unitary_entries. repeat split; lra. Qed.

Lemma unitary_S (m : Matrix) : gate_matrix GATE_S = Some m → unitary m.
Proof. intros [= <-]. unitary_entries. repeat split; lra. Qed.

Lemma unitary_T (m : Matrix) : gate_matrix GATE_T = Some m → unitary m.
Proof.
  intros [= <-]. unitary_entries. pose proof (cos2_sin2 (PI / 4)).
  repeat split; lra.
Qed.

Lemma unitary_RX (f : num → Matrix) (t : R) :
  gate_getMatrix GATE_RX = Some f → unitary (f (Fin t)).
Proof.
  intros [= <-]. unitary_entries. cbn. pose proof (cos2_sin2 (t / 2)).
  repeat split; nra.
Qed.

Lemma unitary_RY (f : num → Matrix) (t : R) :
  gate_getMatrix GATE_RY = Some f → unitary (f (Fin t)).
Proof.
  intros [= <-]. unitary_entries. cbn. pose proof (cos2_sin2 (t / 2)).
  repeat split; nra.
Qed.

Lemma unitary_RZ (f : num → Matrix) (t : R) :
  gate_getMatrix GATE_RZ = Some f → unitary (f (Fin t)).
Proof.
  intros [= <-]. unitary_entries. cbn. pose proof (cos2_sin2 (t / 2)).
  repeat split; nra.
Qed.

Lemma or_zero_finite (x : option num) : ∃ t, or_zero x = Fin t.
Proof.
  destruct x as [[|t]|]; simpl; [by eexists| |by eexists].
  destruct (Req_dec_T t 0); by eexists.
Qed.

(** * How [applySingleQubitGate] chooses its matrix *)

Lemma applySingleQubitGate_fixed (name : string) (g : GateDef) (m : Matrix)
    (q : Z) (p : option Params) :
  GATES name = Some g → gate_type g ≠ Some "rotation"%string →
  gate_matrix g = Some m →
  applySingleQubitGate name q p = apply_matrix m q.
Proof.
  intros HG Hty Hm. unfold applySingleQubitGate. rewrite HG.
  rewrite decide_False by done. rewrite Hm. done.
Qed.

Lemma applySingleQubitGate_rotation (name : string) (g : GateDef)
    (f : num → Matrix) (q : Z) (p : option Params) :
  GATES name = Some g → gate_type g = Some "rotation"%string →
  gate_getMatrix g = Some f →
  applySingleQubitGate name q p
  = apply_matrix (f (or_zero (theta (default (mkParams None) p)))) q.
Proof.
  intros HG Hty Hf. unfold applySingleQubitGate. rewrite HG.
  rewrite decide_True by done. rewrite Hf. done.
Qed.

(** * reset and getProbabilities *)

Lemma reset_spec (w : world) :
  (numQubits (this w) ≤ 31)%nat →
  let n := numQubits (this w) in
  ∃ sv, reset w = (Normal tt, mkWorld (mkSimulator n sv) (console w)) ∧
        arr_length sv = size_of n ∧
        arr_get sv 0 = obj 1 0 ∧
        (∀ k, 0 < k < size_of n → arr_get sv k = obj 0 0).
Proof.
  intros Hn n. pose proof (size_of_bounds _ Hn) as Hsize. fold n in Hsize.
  unfold reset. monad_unfold. fold n.
  destruct (arr_make_ok (size_of n) zero) as (a & -> & Hl & Hin & _); [lia|].
  eexists. split; [reflexivity|]. split; [|split].
  - rewrite arr_length_set; lia.
  - by rewrite arr_get_set, decide_True.
  - intros k Hk. rewrite arr_get_set, decide_False by lia. apply Hin. lia.
Qed.

Lemma reset_norm (w : world) :
  (numQubits (this w) ≤ 31)%nat →
  ∃ w', reset w = (Normal tt, w') ∧ well_formed w' ∧
        numQubits (this w') = numQubits (this w) ∧
        console w' = console w ∧ norm2 w' = 1%R.
Proof.
  intros Hn. destruct (reset_spec w Hn) as (sv & Hrun & Hl & H0 & Hk).
  pose proof (size_of_bounds _ Hn) as Hsize.
  eexists. split; [exact Hrun|]. split; [|split; [done|split; [done|]]].
  - split; [done|]. split; [done|]. cbn. intros k Hk0.
    destruct (decide (k = 0)) as [->|]; [rewrite H0|rewrite Hk by lia];
      apply is_amplitude_obj.
  - unfold norm2. cbn.
    rewrite (Rsum_update (λ _, 0%R) _ _ 0);
      [|apply NoDup_indices|apply elem_of_indices; lia|].
    + rewrite (Rsum_zero (λ _ : Z, 0%R)) by done. rewrite H0.
      unfold modulus2. simpl. lra.
    + intros k Hk1%elem_of_indices Hk0. rewrite Hk by lia.
      unfold modulus2. simpl. lra.
Qed.

Lemma reset_returns_inv (w0 w1 : world) :
  reset w0 = (Normal tt, w1) → (numQubits (this w0) ≤ 31)%nat.
Proof.
  intros Hrun. destruct (le_gt_dec (numQubits (this w0)) 31) as [|Hgt]; [done|].
  exfalso. unfold reset, mbind, M_bind, get_numQubits, lift, arr_make in Hrun.
  rewrite decide_False in Hrun; [discriminate|].
  pose proof (pow2_le_mono 32 (Z.of_nat (numQubits (this w0))) ltac:(lia)).
  unfold size_of. lia.
Qed.

Lemma modulus2_nonneg (v : value) : (0 <= modulus2 v)%R.
Proof. unfold modulus2. nra. Qed.

Lemma sqrt_modulus2 (v : value) :
  Math_sqrt (Fin (modulus2 v)) = Fin (sqrt (modulus2 v)) ∧
  (sqrt (modulus2 v) * sqrt (modulus2 v) = modulus2 v)%R.
Proof.
  assert (0 <= modulus2 v)%R as Hpos by (unfold modulus2; nra).
  split; [|by apply sqrt_sqrt]. unfold Math_sqrt.
  destruct (Rlt_dec (modulus2 v) 0); [lra|done].
Qed.

Lemma probability_of_amplitude (v : value) :
  is_amplitude v →
  (mag ← Complex.magnitude v; mret (VNumber (num_mul mag mag)))
  = Normal (VNumber (Fin (modulus2 v))).
Proof.
  intros (x & y & ->). destruct (sqrt_modulus2 (obj x y)) as [Hs Hq].
  unfold Complex.magnitude. cbn -[Math_sqrt].
  change (x * x + y * y)%R with (modulus2 (obj x y)).
  rewrite Hs. cbn. by rewrite Hq.
Qed.

Lemma getProbabilities_spec (w : world) :
  well_formed w →
  ∃ ps, getProbabilities w = (Normal ps, w) ∧
        arr_length ps = size_of (numQubits (this w)) ∧
        (∀ k, 0 ≤ k < size_of (numQubits (this w)) →
              arr_get ps k
              = VNumber (Fin (modulus2 (arr_get (stateVector (this w)) k)))) ∧
        total ps = norm2 w.
Proof.
  intros (Hn & Hlen & Hamp). unfold getProbabilities.
  unfold mbind at 1. unfold M_bind, get_stateVector, lift.
  destruct (arr_map_ok
              (λ c, mag ← Complex.magnitude c; mret (VNumber (num_mul mag mag)))
              (λ c, VNumber (Fin (modulus2 c))) (stateVector (this w)))
    as (ps & Hrun & Hl & Hin & _).
  { intros k Hk. rewrite Hlen in Hk. eexists. split.
    - by apply slot_of_amplitude, Hamp.
    - by apply probability_of_amplitude, Hamp. }
  rewrite Hrun. rewrite Hlen in *. exists ps. split; [done|]. split; [done|]. split; [done|].
  unfold total, norm2. rewrite Hl. apply Rsum_ext.
  intros k Hk%elem_of_indices. by rewrite Hin.
Qed.

(** * Every supported gate is a norm-preserving step *)

Lemma applyCZ_norm (c t : Z) (w : world) :
  well_formed w →
  ∃ w', applyCZ c t w = (Normal tt, w') ∧ console w' = console w ∧
        norm_step w w'.
Proof.
  intros Hwf. destruct (applyCZ_spec c t w Hwf) as (w' & Hrun & Hn' & Hc' & Hl' & Hk').
  destruct Hwf as (Hn & Hlen & Hamp).
  exists w'. split; [done|]. split; [done|]. split; [|split; [done|]].
  - split; [by rewrite Hn'|]. split; [by rewrite Hn', Hl'|].
    rewrite Hn'. intros k Hk. by apply Hk'.
  - unfold norm2. rewrite Hn'. apply Rsum_ext.
    intros k Hk%elem_of_indices. by apply Hk'.
Qed.

Lemma applySWAP_norm (a b : Z) (w : world) :
  well_formed w → in_range w a → in_range w b →
  ∃ w', applySWAP a b w = (Normal tt, w') ∧ console w' = console w ∧
        norm_step w w'.
Proof.
  intros Hwf Ha Hb.
  destruct (applySWAP_spec a b w Hwf Ha Hb) as (sv' & Hrun & Hl' & Hk').
  destruct Hwf as (Hn & Hlen & Hamp). unfold in_range in *.
  set (n := numQubits (this w)) in *.
  pose proof (shift_in_range n a Ha) as Hsa.
  pose proof (shift_in_range n b Hb) as Hsb.
  eexists. split; [exact Hrun|]. split; [done|]. split; [|split; [done|]].
  - split; [done|]. split; [done|]. cbn. intros k Hk. rewrite Hk' by done.
    apply Hamp. by apply swap_bits_range.
  - unfold norm2. cbn. fold n.
    rewrite <- (Rsum_reindex (λ k, modulus2 (arr_get (stateVector (this w)) k))
                  (swap_bits (shift n a) (shift n b))).
    + apply Rsum_ext. intros k Hk%elem_of_indices. by rewrite Hk'.
    + intros k Hk. by apply swap_bits_range.
    + intros k Hk. apply swap_bits_involutive; lia.
Qed.

Lemma fixed_gate_norm (name : string) (g : GateDef) (m : Matrix) (q : Z)
    (p : option Params) (w : world) :
  GATES name = Some g → gate_type g ≠ Some "rotation"%string →
  gate_matrix g = Some m → unitary m →
  well_formed w → in_range w q →
  ∃ w', applySingleQubitGate name q p w = (Normal tt, w') ∧
        console w' = console w ∧ norm_step w w'.
Proof.
  intros HG Hty Hm Hu Hwf Hq.
  rewrite (applySingleQubitGate_fixed name g m q p HG Hty Hm).
  by apply apply_matrix_norm.
Qed.

Lemma rotation_gate_norm (name : string) (g : GateDef) (f : num → Matrix)
    (q : Z) (p : option Params) (w : world) :
  GATES name = Some g → gate_type g = Some "rotation"%string →
  gate_getMatrix g = Some f → (∀ t, unitary (f (Fin t))) →
  well_formed w → in_range w q →
  ∃ w', applySingleQubitGate name q p w = (Normal tt, w') ∧
        console w' = console w ∧ norm_step w w'.
Proof.
  intros HG Hty Hf Hu Hwf Hq.
  rewrite (applySingleQubitGate_rotation name g f q p HG Hty Hf).
  destruct (or_zero_finite (theta (default (mkParams None) p))) as (t & ->).
  by apply apply_matrix_norm.
Qed.

Lemma applyGate_valid (op : GateOp) (w : world) :
  well_formed w → valid_op (numQubits (this w)) op →
  ∃ w', applyGate op w = (Normal tt, w') ∧ console w' = console w ∧
        norm_step w w'.
Proof.
  intros Hwf (Hq & Hkind). destruct op as [g q t p pos]. simpl in *.
  destruct Hkind as [Hg|[Hg Ht]].
  - unfold single_kinds, rotation_kinds in Hg. simpl in Hg.
    repeat (apply elem_of_cons in Hg as [->|Hg]);
      [..|by apply elem_of_nil in Hg].
    + change (applyGate _) with (applySingleQubitGate "H" q None).
      by apply (fixed_gate_norm "H" GATE_H _ _ _ _ eq_refl ltac:(done) eq_refl
                  (unitary_H _ eq_refl)).
    + change (applyGate _) with (applySingleQubitGate "X" q None).
      by apply (fixed_gate_norm "X" GATE_X _ _ _ _ eq_refl ltac:(done) eq_refl
                  (unitary_X _ eq_refl)).
    + change (applyGate _) with (applySingleQubitGate "Y" q None).
      by apply (fixed_gate_norm "Y" GATE_Y _ _ _ _ eq_refl ltac:(done) eq_refl
                  (unitary_Y _ eq_refl)).
    + change (applyGate _) with (applySingleQubitGate "Z" q None).
      by apply (fixed_gate_norm "Z" GATE_Z _ _ _ _ eq_refl ltac:(done) eq_refl
                  (unitary_Z _ eq_refl)).
    + change (applyGate _) with (applySingleQubitGate "S" q None).
      by apply (fixed_gate_norm "S" GATE_S _ _ _ _ eq_refl ltac:(done) eq_refl
                  (unitary_S _ eq_refl)).
    + change (applyGate _) with (applySingleQubitGate "T" q None).
      by apply (fixed_gate_norm "T" GATE_T _ _ _ _ eq_refl ltac:(done) eq_refl
                  (unitary_T _ eq_refl)).
    + change (applyGate _) with (applySingleQubitGate "RX" q p).
      by apply (rotation_gate_norm "RX" GATE_RX _ _ _ _ eq_refl eq_refl eq_refl
                  (λ t, unitary_RX _ t eq_refl)).
    + change (applyGate _) with (applySingleQubitGate "RY" q p).
      by apply (rotation_gate_norm "RY" GATE_RY _ _ _ _ eq_refl eq_refl eq_refl
                  (λ t, unitary_RY _ t eq_refl)).
    + change (applyGate _) with (applySingleQubitGate "RZ" q p).
      by apply (rotation_gate_norm "RZ" GATE_RZ _ _ _ _ eq_refl eq_refl eq_refl
                  (λ t, unitary_RZ _ t eq_refl)).
  - unfold two_qubit_kinds in Hg.
    repeat (apply elem_of_cons in Hg as [->|Hg]);
      [..|by apply elem_of_nil in Hg].
    + change (applyGate _) with (applyCNOT q t). by apply applyCNOT_spec.
    + change (applyGate _) with (applyCZ q t). by apply applyCZ_norm.
    + change (applyGate _) with (applySWAP q t). by apply applySWAP_norm.
Qed.

Lemma applyGates_valid (ops : list GateOp) (w : world) :
  well_formed w → Forall (valid_op (numQubits (this w))) ops →
  ∃ w', applyGates ops w = (Normal tt, w') ∧ console w' = console w ∧
        norm_step w w'.
Proof.
  revert w. induction ops as [|op ops IH]; intros w Hwf Hops.
  - exists w. split; [done|]. split; [done|]. split; [done|]. done.
  - apply Forall_cons in Hops as [Hop Hops].
    destruct (applyGate_valid op w Hwf Hop) as (w1 & Hrun1 & Hc1 & Hwf1 & Hn1 & Hnorm1).
    destruct (IH w1 Hwf1) as (w2 & Hrun2 & Hc2 & Hwf2 & Hn2 & Hnorm2).
    { by rewrite Hn1. }
    exists w2. split.
    { cbn [applyGates]. unfold mbind, M_bind. by rewrite Hrun1. }
    split; [congruence|]. split; [done|]. split; congruence.
Qed.

Lemma getProbabilities_slots (w : world) :
  well_formed w →
  ∃ ps, getProbabilities w = (Normal ps, w) ∧
        arr_length ps = size_of (numQubits (this w)) ∧
        ∀ k, arr_slots ps !! k
             = if decide (0 ≤ k < size_of (numQubits (this w)))
               then Some (VNumber (Fin (modulus2 (arr_get (stateVector (this w)) k))))
               else None.
Proof.
  intros (Hn & Hlen & Hamp). unfold getProbabilities.
  unfold mbind at 1. unfold M_bind, get_stateVector, lift.
  destruct (arr_map_slots
              (λ c, mag ← Complex.magnitude c; mret (VNumber (num_mul mag mag)))
              (λ c, VNumber (Fin (modulus2 c))) (stateVector (this w)))
    as (ps & Hrun & Hl & Hin).
  { intros k Hk. rewrite Hlen in Hk. eexists. split.
    - by apply slot_of_amplitude, Hamp.
    - by apply probability_of_amplitude, Hamp. }
  rewrite Hrun. rewrite Hlen in *. by exists ps.
Qed.

Lemma getProbabilities_eq (w w' : world) :
  well_formed w → well_formed w' →
  numQubits (this w') = numQubits (this w) →
  (∀ k, 0 ≤ k < size_of (numQubits (this w)) →
        modulus2 (arr_get (stateVector (this w')) k)
        = modulus2 (arr_get (stateVector (this w)) k)) →
  ∃ ps, getProbabilities w = (Normal ps, w) ∧
        getProbabilities w' = (Normal ps, w').
Proof.
  intros Hwf Hwf' Hn Hmod.
  destruct (getProbabilities_slots w Hwf) as (ps & Hrun & Hl & Hs).
  destruct (getProbabilities_slots w' Hwf') as (ps' & Hrun' & Hl' & Hs').
  exists ps. split; [done|]. rewrite Hrun'. do 2 f_equal.
  apply jsarray_eq; [congruence|]. intros k. rewrite Hs, Hs', Hn.
  case_decide; [|done]. by rewrite Hmod.
Qed.

Lemma for_each_ext {A} (body1 body2 : Z → A → M A) (ks : list Z) (acc : A)
    (w : world) :
  (∀ i a w, body1 i a w = body2 i a w) →
  for_each ks body1 acc w = for_each ks body2 acc w.
Proof.
  intros Hext. revert acc w. induction ks as [|k ks IH]; intros acc w; [done|].
  cbn [for_each]. unfold mbind, M_bind. rewrite Hext.
  destruct (body2 k acc w) as [[a'|e] w']; [apply IH|done].
Qed.

Lemma entry_2x2 (e00 e01 e10 e11 : value) (r c : bool) :
  entry [[e00; e01]; [e10; e11]] r c
  = Complex.fromNumber (if r then (if c then e11 else e10)
                        else (if c then e01 else e00)).
Proof. by destruct r, c. Qed.

(** RZ only changes phases. *)
Lemma RZ_modulus (t : R) (q : Z) (w : world) :
  well_formed w → in_range w q →
  ∃ w', applySingleQubitGate "RZ" q (Some (mkParams (Some (Fin t)))) w
        = (Normal tt, w') ∧
        well_formed w' ∧ numQubits (this w') = numQubits (this w) ∧
        ∀ k, 0 ≤ k < size_of (numQubits (this w)) →
             modulus2 (arr_get (stateVector (this w')) k)
             = modulus2 (arr_get (stateVector (this w)) k).
Proof.
  intros Hwf Hq.
  rewrite (applySingleQubitGate_rotation "RZ" GATE_RZ _ q _ eq_refl eq_refl eq_refl).
  destruct (or_zero_finite (theta (default (mkParams None)
                                     (Some (mkParams (Some (Fin t)))))))
    as (x & Hx). rewrite Hx.
  destruct (unitary_RZ _ x eq_refl) as [Hfin _].
  destruct (apply_matrix_spec _ q w Hwf Hq Hfin) as (sv' & Hrun & Hl' & Hk').
  pose proof Hwf as (Hn & Hlen & Hamp). unfold in_range in Hq.
  set (n := numQubits (this w)) in *.
  pose proof (shift_in_range n q Hq) as Hs.
  eexists. split; [exact Hrun|]. split; [|split; [done|]].
  { split; [done|]. split; [done|]. cbn. intros k Hk.
    rewrite Hk' by done. apply is_amplitude_cadd. }
  cbn. intros k Hk. rewrite Hk' by done.
  pose proof (cos2_sin2 (x / 2)) as Hcs.
  destruct (Z.testbit k (shift n q)) eqn:Hb.
  - assert (put_bit k (shift n q) true = k) as ->
      by (rewrite <- Hb; apply put_bit_same; lia).
    unfold modulus2. rewrite !entry_2x2. cbn. nra.
  - assert (put_bit k (shift n q) false = k) as ->
      by (rewrite <- Hb; apply put_bit_same; lia).
    unfold modulus2. rewrite !entry_2x2. cbn. nra.
Qed.

Lemma obj_eq (x y x' y' : R) :
  x = x' → y = y' → VObject (mkComplex (Fin x) (Fin y)) = obj x' y'.
Proof. by intros -> ->. Qed.

Lemma hadamard_then_cnot (h : R) (sv : jsarray) (log : list (level * string)) :
  ∃ w, (reset;; apply_matrix [[lit h; lit h]; [lit h; lit (- h)]] 0;;
        applyCNOT 0 1) (mkWorld (mkSimulator 2 sv) log) = (Normal tt, w) ∧
       arr_get (stateVector (this w)) 0 = obj h 0 ∧
       arr_get (stateVector (this w)) 1 = obj 0 0 ∧
       arr_get (stateVector (this w)) 2 = obj h 0 ∧
       arr_get (stateVector (this w)) 3 = obj 0 0.
Proof.
  eexists. split; [vm_compute; reflexivity|].
  repeat split; vm_compute; apply obj_eq; lra.
Qed.

Lemma inv_sqrt2_bounds : (1 / 2 < 1 / sqrt 2 < 1)%R.
Proof.
  assert (0 < sqrt 2)%R as Hpos by (apply sqrt_lt_R0; lra).
  assert (sqrt 2 * sqrt 2 = 2)%R as Hsq by (apply sqrt_sqrt; lra).
  assert (1 < sqrt 2 < 2)%R as [H1 H2] by (split; nra).
  split.
  - apply Rmult_lt_reg_r with (sqrt 2); [done|]. field_simplify; lra.
  - apply Rmult_lt_reg_r with (sqrt 2); [done|]. field_simplify; lra.
Qed.

(** * Qubit indices outside the register *)

Lemma beyond_register_intro (n : nat) (q : Z) :
  Z.of_nat n ≤ q ≤ 31 ∨ Z.of_nat n - 32 ≤ q < 0 → beyond_register n q.
Proof.
  unfold beyond_register, shift. intros [Hq|Hq].
  - rewrite <- (Z.mod_add _ 1) by lia. rewrite Z.mod_small; lia.
  - rewrite Z.mod_small; lia.
Qed.

Lemma beyond_register_not_in_range (w : world) (q : Z) :
  (numQubits (this w) ≤ 31)%nat →
  beyond_register (numQubits (this w)) q → ¬ in_range w q.
Proof.
  unfold beyond_register, in_range, shift. intros Hn Hb Hq.
  rewrite Z.mod_small in Hb; lia.
Qed.

Lemma js_bit_beyond (n : nat) (i s : Z) :
  (n ≤ 31)%nat → 0 ≤ i < size_of n → Z.of_nat n ≤ s `mod` 32 →
  js_and (js_shr i s) 1 = 0.
Proof.
  intros Hn Hi Hs. pose proof (size_of_bounds n Hn) as Hsz.
  pose proof (Z.mod_pos_bound s 32 ltac:(lia)) as Hm.
  unfold js_and, js_shr. rewrite (ToInt32_small i) by lia.
  rewrite Z.shiftr_div_pow2 by lia.
  rewrite Z.div_small; [done|].
  pose proof (pow2_le_mono (Z.of_nat n) (s `mod` 32) ltac:(lia)).
  unfold size_of in Hi. lia.
Qed.

Lemma ToInt32_range (x : Z) : - 2 ^ 31 ≤ ToInt32 x < 2 ^ 31.
Proof.
  unfold ToInt32. pose proof (Z.mod_pos_bound (x + 2 ^ 31) (2 ^ 32) ltac:(lia)).
  lia.
Qed.

Lemma js_shl_1_beyond (n : nat) (s : Z) :
  (n ≤ 31)%nat → Z.of_nat n ≤ s `mod` 32 →
  ¬ 0 ≤ js_shl 1 s < size_of n.
Proof.
  intros Hn Hs. pose proof (size_of_bounds n Hn) as Hsz.
  pose proof (Z.mod_pos_bound s 32 ltac:(lia)) as Hm.
  unfold js_shl. rewrite (ToInt32_small 1) by lia. rewrite Z.shiftl_1_l.
  destruct (decide (s `mod` 32 = 31)) as [->|Hne].
  - vm_compute. intros [H _]. by apply H.
  - pose proof (pow2_le_mono (Z.of_nat n) (s `mod` 32) ltac:(lia)).
    pose proof (pow2_le_mono (s `mod` 32) 30 ltac:(lia)).
    rewrite ToInt32_small by lia. unfold size_of. lia.
Qed.

Lemma js_index_of_zero (b s : Z) :
  js_or (js_and 0 (js_not (js_shl 1 s))) (js_shl b s) = js_shl b s.
Proof.
  unfold js_or, js_and. change (ToInt32 0) with 0. rewrite Z.land_0_l.
  change (ToInt32 0) with 0. rewrite Z.lor_0_l.
  unfold js_shl. apply ToInt32_small, ToInt32_range.
Qed.

Lemma js_shl_0 (s : Z) : js_shl 0 s = 0.
Proof. unfold js_shl. change (ToInt32 0) with 0. by rewrite Z.shiftl_0_l. Qed.

Lemma apply_matrix_beyond (m : Matrix) (q : Z) (w : world) :
  well_formed w → finite_matrix m →
  beyond_register (numQubits (this w)) q →
  apply_matrix m q w = (Throw TypeError, w).
Proof.
  intros (Hn & Hlen & Hamp) Hm Hq. unfold beyond_register in Hq.
  set (n := numQubits (this w)) in *.
  pose proof (size_of_bounds n Hn) as Hsz.
  unfold apply_matrix. monad_unfold. fold n.
  destruct (arr_make_ok (size_of n) zero) as (ns & -> & Hl & Hin & Hout); [lia|].
  unfold indices. rewrite seqZ_cons by lia. cbn [for_each]. monad_unfold.
  rewrite (js_bit_beyond n 0) by (done || lia).
  rewrite !js_index_of_zero, js_shl_0.
  destruct (Hm false false) as ((v0 & Hv0) & Ha0).
  destruct (Hm true false) as ((v1 & Hv1) & Ha1).
  unfold entry in Ha0, Ha1. rewrite Hv0 in Ha0. rewrite Hv1 in Ha1.
  simpl Z.b2z in Hv0, Hv1. rewrite Hv0, Hv1.
  rewrite (multiply_amplitudes _ _ Ha0 (Hamp 0 ltac:(lia))).
  rewrite Hin by lia.
  rewrite (add_amplitudes zero _ (is_amplitude_obj _ _) (is_amplitude_cmul _ _)).
  rewrite (multiply_amplitudes _ _ Ha1 (Hamp 0 ltac:(lia))).
  pose proof (js_shl_1_beyond n (shift n q) Hn Hq) as Hj.
  rewrite arr_get_set, decide_False by lia.
  rewrite Hout by done. done.
Qed.

Lemma applyCZ_beyond (c t : Z) (w : world) :
  (numQubits (this w) ≤ 31)%nat →
  beyond_register (numQubits (this w)) c ∨
  beyond_register (numQubits (this w)) t →
  applyCZ c t w = (Normal tt, w).
Proof.
  intros Hn Hq. unfold beyond_register in Hq.
  set (n := numQubits (this w)) in *.
  pose proof (size_of_bounds n Hn) as Hsz.
  unfold applyCZ. monad_unfold. fold n.
  loop_invariant (λ (_ : Z) (_ : unit) (w' : world), w' = w) u w' Hrun Hinv.
  - lia.
  - done.
  - intros i [] w0 Hi ->. cbv beta. exists tt, w. split; [|done].
    destruct Hq as [Hq|Hq]; rewrite (js_bit_beyond n i _ Hn Hi Hq).
    + done.
    + by rewrite andb_false_r.
  - destruct u. by rewrite Hrun, Hinv.
Qed.

Lemma applyCNOT_beyond_control (c t : Z) (w : world) :
  well_formed w → beyond_register (numQubits (this w)) c →
  ∃ sv', applyCNOT c t w
         = (Normal tt, mkWorld (mkSimulator (numQubits (this w)) sv') (console w)) ∧
         arr_length sv' = arr_length (stateVector (this w)) ∧
         ∀ k, 0 ≤ k < size_of (numQubits (this w)) →
              arr_get sv' k = arr_get (stateVector (this w)) k.
Proof.
  intros Hwf Hq. destruct (copy_state w Hwf) as (copy & Hcopy & Hcl & Hcin & _).
  destruct Hwf as (Hn & Hlen & Hamp). unfold beyond_register in Hq.
  set (n := numQubits (this w)) in *.
  pose proof (size_of_bounds n Hn) as Hsz.
  unfold applyCNOT. monad_unfold. fold n. rewrite Hcopy.
  loop_invariant (λ (_ : Z) (ns : jsarray) (w' : world),
                    w' = w ∧ ns = arr_spread copy) ns' w' Hrun Hinv.
  - lia.
  - done.
  - intros i ns w0 Hi (-> & ->). cbv beta.
    rewrite (js_bit_beyond n i _ Hn Hi Hq).
    rewrite decide_False by done. by eexists _, w.
  - destruct Hinv as (-> & ->). rewrite Hrun.
    eexists. split; [reflexivity|]. split; [cbn; congruence|].
    intros k Hk. rewrite arr_get_spread. rewrite decide_True by lia.
    by apply Hcin.
Qed.

(** * getQubitState never fails on a well-formed state *)

Lemma is_object_amplitude (v : value) : is_amplitude v → is_object v.
Proof. intros (x & y & ->). by eexists. Qed.

Lemma conjugate_object (v : value) :
  is_object v → ∃ c, Complex.conjugate v = Normal (VObject c).
Proof. intros (c & ->). by eexists. Qed.

Lemma multiply_objects (a b : value) :
  is_object a → is_object b → ∃ c, Complex.multiply a b = Normal (VObject c).
Proof. intros (c & ->) (d & ->). by eexists. Qed.

Lemma add_objects (a b : value) :
  is_object a → is_object b → ∃ c, Complex.add a b = Normal (VObject c).
Proof. intros (c & ->) (d & ->). by eexists. Qed.

Lemma getQubitState_total (q : Z) (w : world) :
  well_formed w → ∃ r, getQubitState q w = (Normal r, w).
Proof.
  intros (Hn & Hlen & Hamp).
  set (n := numQubits (this w)) in *.
  pose proof (size_of_bounds n Hn) as Hsz.
  unfold getQubitState. monad_unfold. fold n.
  loop_invariant (λ (_ : Z) rhos (w' : world), w' = w ∧ four_objects rhos)
    rhos w' Hrun Hinv.
  - lia.
  - split; [done|]. repeat split; by eexists.
  - intros i rhos w0 Hi (-> & Hobj). cbv beta.
    loop_invariant (λ (_ : Z) rhos (w' : world), w' = w ∧ four_objects rhos)
      rhos' w' Hrun Hinv.
    + lia.
    + done.
    + intros j [[[r00 r01] r10] r11] w0 Hj (-> & H00 & H01 & H10 & H11).
      cbv beta. case_decide as Hother; [|by eexists _, w].
      destruct (conjugate_object (arr_get (stateVector (this w)) j))
        as (cj & ->); [by apply is_object_amplitude, Hamp|].
      destruct (multiply_objects (arr_get (stateVector (this w)) i) (VObject cj))
        as (ct & ->); [by apply is_object_amplitude, Hamp|by eexists|].
      destruct (_ && _).
      { destruct (add_objects r00 (VObject ct)) as (c' & ->); [done|by eexists|].
        eexists _, w. split; [done|]. split; [done|]. repeat split; (done || by eexists). }
      destruct (_ && _).
      { destruct (add_objects r01 (VObject ct)) as (c' & ->); [done|by eexists|].
        eexists _, w. split; [done|]. split; [done|]. repeat split; (done || by eexists). }
      destruct (_ && _).
      { destruct (add_objects r10 (VObject ct)) as (c' & ->); [done|by eexists|].
        eexists _, w. split; [done|]. split; [done|]. repeat split; (done || by eexists). }
      destruct (add_objects r11 (VObject ct)) as (c' & ->); [done|by eexists|].
      eexists _, w. split; [done|]. split; [done|]. repeat split; (done || by eexists).
    + destruct Hinv as (-> & Hobj'). by eexists _, w.
  - destruct Hinv as (-> & Hobj). rewrite Hrun.
    destruct rhos as [[[r00 r01] r10] r11].
    destruct Hobj as ((c00 & ->) & (c01 & ->) & (c10 & ->) & (c11 & ->)).
    by eexists.
Qed.

Lemma single_gate_beyond (name : string) (q : Z) (p : option Params) (w : world) :
  well_formed w → beyond_register (numQubits (this w)) q →
  name ∈ single_kinds ++ rotation_kinds →
  applySingleQubitGate name q p w = (Throw TypeError, w).
Proof.
  intros Hwf Hq Hname.
  destruct (or_zero_finite (theta (default (mkParams None) p))) as (x & Hx).
  unfold single_kinds, rotation_kinds in Hname. simpl in Hname.
  repeat (apply elem_of_cons in Hname as [->|Hname]);
    [..|by apply elem_of_nil in Hname].
  - rewrite (applySingleQubitGate_fixed "H" GATE_H _ q p eq_refl ltac:(done) eq_refl).
    apply apply_matrix_beyond; [done| |done]. by apply (unitary_H _ eq_refl).
  - rewrite (applySingleQubitGate_fixed "X" GATE_X _ q p eq_refl ltac:(done) eq_refl).
    apply apply_matrix_beyond; [done| |done]. by apply (unitary_X _ eq_refl).
  - rewrite (applySingleQubitGate_fixed "Y" GATE_Y _ q p eq_refl ltac:(done) eq_refl).
    apply apply_matrix_beyond; [done| |done]. by apply (unitary_Y _ eq_refl).
  - rewrite (applySingleQubitGate_fixed "Z" GATE_Z _ q p eq_refl ltac:(done) eq_refl).
    apply apply_matrix_beyond; [done| |done]. by apply (unitary_Z _ eq_refl).
  - rewrite (applySingleQubitGate_fixed "S" GATE_S _ q p eq_refl ltac:(done) eq_refl).
    apply apply_matrix_beyond; [done| |done]. by apply (unitary_S _ eq_refl).
  - rewrite (applySingleQubitGate_fixed "T" GATE_T _ q p eq_refl ltac:(done) eq_refl).
    apply apply_matrix_beyond; [done| |done]. by apply (unitary_T _ eq_refl).
  - rewrite (applySingleQubitGate_rotation "RX" GATE_RX _ q p eq_refl eq_refl eq_refl).
    rewrite Hx. apply apply_matrix_beyond; [done| |done].
    by apply (unitary_RX _ x eq_refl).
  - rewrite (applySingleQubitGate_rotation "RY" GATE_RY _ q p eq_refl eq_refl eq_refl).
    rewrite Hx. apply apply_matrix_beyond; [done| |done].
    by apply (unitary_RY _ x eq_refl).
  - rewrite (applySingleQubitGate_rotation "RZ" GATE_RZ _ q p eq_refl eq_refl eq_refl).
    rewrite Hx. apply apply_matrix_beyond; [done| |done].
    by apply (unitary_RZ _ x eq_refl).
Qed.

Lemma new_well_formed (n : nat) (log : list (level * string)) :
  (n ≤ 31)%nat → well_formed (snd (new n log)).
Proof.
  intros Hn. unfold new.
  destruct (reset_norm (mkWorld (mkSimulator n (mkArray 0 ∅)) log) Hn)
    as (w' & -> & Hwf & _). done.
Qed.

Lemma assoc_None (k : string) (l : list (string * GateDef)) :
  k ∉ fst <$> l → assoc k l = None.
Proof.
  induction l as [|[k' g] l IH]; intros Hk; [done|].
  rewrite fmap_cons in Hk. apply not_elem_of_cons in Hk as [Hne Hk].
  cbn [assoc]. rewrite decide_False by done. by apply IH.
Qed.

(** * measure *)

Lemma mass_cons (ps : jsarray) (lo len : Z) :
  0 < len →
  mass ps lo len = (real_of (arr_get ps lo) + mass ps (lo + 1) (len - 1))%R.
Proof.
  intros Hl. unfold mass. rewrite seqZ_cons by done. rewrite fmap_cons.
  by replace (Z.succ lo) with (lo + 1) by lia.
Qed.

Lemma cumulative_mass_eq (ps : jsarray) (i : Z) :
  cumulative_mass ps i = mass ps 0 (i + 1).
Proof. done. Qed.

Lemma measure_loop_hit (ps : jsarray) (rand : R) (n : nat) (len : nat) :
  ∀ (lo i : Z) (c : R),
    (∀ k, lo ≤ k < lo + Z.of_nat len → ∃ p, arr_get ps k = VNumber (Fin p)) →
    lo ≤ i < lo + Z.of_nat len →
    (rand <= c + mass ps lo (i - lo + 1))%R →
    (∀ j, lo ≤ j < i → (c + mass ps lo (j - lo + 1) < rand)%R) →
    measure_loop ps rand n (seqZ lo (Z.of_nat len)) (Fin c)
    = padStart0 (toString2 i) n.
Proof.
  induction len as [|len IH]; intros lo i c Hps Hi Hhit Hmiss; [lia|].
  rewrite seqZ_cons by lia. cbn [measure_loop].
  destruct (Hps lo) as (p & Hp); [lia|]. rewrite Hp. cbn [to_number num_add num_lift2 num_le].
  destruct (decide (i = lo)) as [->|Hne].
  - replace (lo - lo + 1) with 1 in Hhit by lia.
    rewrite mass_cons in Hhit by lia. rewrite Hp in Hhit.
    unfold mass in Hhit. rewrite seqZ_nil in Hhit by lia.
    unfold Rsum in Hhit. simpl in Hhit.
    destruct (Rle_dec rand (c + p)); [done|lra].
  - pose proof (Hmiss lo ltac:(lia)) as Hlo.
    replace (lo - lo + 1) with 1 in Hlo by lia.
    rewrite mass_cons in Hlo by lia. rewrite Hp in Hlo.
    unfold mass in Hlo. rewrite seqZ_nil in Hlo by lia.
    unfold Rsum in Hlo. simpl in Hlo.
    destruct (Rle_dec rand (c + p)); [lra|].
    replace (Z.pred (Z.of_nat (S len))) with (Z.of_nat len) by lia.
    replace (Z.succ lo) with (lo + 1) by lia.
    apply IH.
    + intros k Hk. apply Hps. lia.
    + lia.
    + rewrite mass_cons in Hhit by lia. rewrite Hp in Hhit.
      replace (i - (lo + 1) + 1) with (i - lo + 1 - 1) by lia.
      cbn [real_of] in Hhit. lra.
    + intros j Hj. pose proof (Hmiss j ltac:(lia)) as Hj'.
      rewrite mass_cons in Hj' by lia. rewrite Hp in Hj'.
      replace (j - (lo + 1) + 1) with (j - lo + 1 - 1) by lia.
      cbn [real_of] in Hj'. lra.
Qed.

Lemma measure_loop_miss (ps : jsarray) (rand : R) (n : nat) (len : nat) :
  ∀ (lo : Z) (c : R),
    (∀ k, lo ≤ k < lo + Z.of_nat len → ∃ p, arr_get ps k = VNumber (Fin p)) →
    (∀ j, lo ≤ j < lo + Z.of_nat len → (c + mass ps lo (j - lo + 1) < rand)%R) →
    measure_loop ps rand n (seqZ lo (Z.of_nat len)) (Fin c) = repeat0 n.
Proof.
  induction len as [|len IH]; intros lo c Hps Hmiss; [done|].
  rewrite seqZ_cons by lia. cbn [measure_loop].
  destruct (Hps lo) as (p & Hp); [lia|]. rewrite Hp. cbn [to_number num_add num_lift2 num_le].
  pose proof (Hmiss lo ltac:(lia)) as Hlo.
  replace (lo - lo + 1) with 1 in Hlo by lia.
  rewrite mass_cons in Hlo by lia. rewrite Hp in Hlo.
  unfold mass in Hlo. rewrite seqZ_nil in Hlo by lia.
  unfold Rsum in Hlo. simpl in Hlo.
  destruct (Rle_dec rand (c + p)); [lra|].
  replace (Z.pred (Z.of_nat (S len))) with (Z.of_nat len) by lia.
  replace (Z.succ lo) with (lo + 1) by lia.
  apply IH.
  - intros k Hk. apply Hps. lia.
  - intros j Hj. pose proof (Hmiss j ltac:(lia)) as Hj'.
    rewrite mass_cons in Hj' by lia. rewrite Hp in Hj'.
    replace (j - (lo + 1) + 1) with (j - lo + 1 - 1) by lia.
      cbn [real_of] in Hj'. lra.
Qed.

Lemma measure_spec (rand : R) (w : world) :
  well_formed w →
  ∃ ps, getProbabilities w = (Normal ps, w) ∧
        measure rand w
        = (Normal (measure_loop ps rand (numQubits (this w))
                     (indices (size_of (numQubits (this w)))) (Fin 0)), w) ∧
        ∀ k, 0 ≤ k < size_of (numQubits (this w)) →
             ∃ p, arr_get ps k = VNumber (Fin p).
Proof.
  intros Hwf. destruct (getProbabilities_spec w Hwf) as (ps & Hrun & Hl & Hk & _).
  exists ps. split; [done|]. split.
  - unfold measure. unfold mbind at 1. unfold M_bind. rewrite Hrun.
    by rewrite <- Hl.
  - intros k Hk0. rewrite Hk by done. by eexists.
Qed.

(** * Width of the measured bit string *)

Lemma length_append (s1 s2 : string) :
  String.length (s1 +:+ s2) = (String.length s1 + String.length s2)%nat.
Proof. induction s1 as [|a s1 IH]; simpl; [done|]. by rewrite IH. Qed.

Lemma length_repeat0 (n : nat) : String.length (repeat0 n) = n.
Proof.
  induction n as [|n IH]; [done|].
  change (repeat0 (S n)) with ("0" +:+ repeat0 n).
  by rewrite length_append, IH.
Qed.

Lemma length_pos_toString2 (p : positive) :
  String.length (pos_toString2 p) = Pos.size_nat p.
Proof.
  induction p as [p IH|p IH|]; simpl; [| |done];
    rewrite length_append, IH; simpl; lia.
Qed.

Lemma size_nat_le (p : positive) (n : nat) :
  Z.pos p < 2 ^ Z.of_nat n → (Pos.size_nat p ≤ n)%nat.
Proof.
  revert n. induction p as [p IH|p IH|]; intros [|n] H;
    try (simpl in H; lia); simpl.
  - rewrite Nat2Z.inj_succ, Z.pow_succ_r in H by lia.
    apply le_n_S, IH. lia.
  - rewrite Nat2Z.inj_succ, Z.pow_succ_r in H by lia.
    apply le_n_S, IH. lia.
  - lia.
Qed.

Lemma binary_string_width (n : nat) (i : Z) :
  (1 ≤ n)%nat → 0 ≤ i < size_of n →
  String.length (padStart0 (toString2 i) n) = n.
Proof.
  intros Hn [H0 Hi]. unfold padStart0. rewrite length_append, length_repeat0.
  assert (String.length (toString2 i) ≤ n)%nat; [|lia].
  destruct i as [|p|p]; simpl; [lia| |lia].
  rewrite length_pos_toString2. by apply size_nat_le.
Qed.

Lemma mass_nil (ps : jsarray) (lo len : Z) : len ≤ 0 → mass ps lo len = 0%R.
Proof. intros Hl. unfold mass. by rewrite seqZ_nil. Qed.

(** * CNOT on two different qubits swaps every pair twice *)

Lemma put_bit_true_false (k s : Z) :
  0 ≤ s → put_bit k s true = put_bit k s false + 2 ^ s.
Proof.
  intros Hs. unfold put_bit. simpl Z.b2z.
  rewrite Z.shiftl_0_l, Z.lor_0_r, Z.shiftl_1_l.
  assert (Z.land (Z.clearbit k s) (2 ^ s) = 0) as Hland.
  { apply Z.bits_inj'. intros j Hj. rewrite Z.land_spec, Z.bits_0.
    rewrite Z.pow2_bits_eqb by done.
    destruct (Z.eqb_spec s j) as [->|Hne].
    - by rewrite Z.clearbit_eq.
    - apply andb_false_r. }
  by rewrite Z.add_nocarry_lxor, Z.lxor_lor.
Qed.

Lemma put_bit_other (k s j : Z) (b : bool) :
  0 ≤ s → 0 ≤ j → j ≠ s → Z.testbit (put_bit k s b) j = Z.testbit k j.
Proof.
  intros Hs Hj Hne. rewrite put_bit_spec by done.
  by rewrite bool_decide_eq_false_2.
Qed.

Lemma applyCNOT_distinct (c t : Z) (w : world) :
  well_formed w → in_range w c → in_range w t → c ≠ t →
  ∃ sv', applyCNOT c t w
         = (Normal tt, mkWorld (mkSimulator (numQubits (this w)) sv') (console w)) ∧
         arr_length sv' = arr_length (stateVector (this w)) ∧
         ∀ k, 0 ≤ k < size_of (numQubits (this w)) →
              arr_get sv' k = arr_get (stateVector (this w)) k.
Proof.
  intros Hwf Hc Ht Hct.
  destruct (copy_state w Hwf) as (copy & Hcopy & Hcl & Hcin & _).
  destruct Hwf as (Hn & Hlen & Hamp). unfold in_range in *.
  set (n := numQubits (this w)) in *. set (sv := stateVector (this w)) in *.
  pose proof (size_of_bounds _ Hn) as Hsize.
  pose proof (shift_in_range n c Hc) as Hsc.
  pose proof (shift_in_range n t Ht) as Hst.
  assert (shift n c ≠ shift n t) as Hs by (unfold shift; lia).
  set (sc := shift n c) in *. set (st := shift n t) in *.
  unfold applyCNOT. monad_unfold. fold n sv sc st. rewrite Hcopy.
  loop_invariant (λ (m : Z) (ns : jsarray) (w' : world),
      w' = w ∧ arr_length ns = size_of n ∧
      ∀ k, 0 ≤ k < size_of n →
           arr_get ns k
           = if Z.testbit k sc && pair_open st m k
             then arr_get sv (flip_bit st k) else arr_get sv k)
    ns' w' Hrun Hinv.
  - lia.
  - split; [done|]. split; [by rewrite <- Hcl|]. intros k Hk.
    rewrite arr_get_spread, decide_True by lia. rewrite Hcin by done.
    unfold pair_open. rewrite bool_decide_eq_false_2; [by rewrite andb_false_r|].
    pose proof (put_bit_in_range n k st false Hk Hst). lia.
  - intros i ns w0 Hi (-> & Hl0 & Hk0). cbv beta.
    rewrite !js_bit by lia.
    assert (∀ k, 0 ≤ k < size_of n → k ≠ put_bit i st false →
                 k ≠ put_bit i st true →
                 pair_open st (i + 1) k = pair_open st i k) as Hsame.
    { intros k Hk H0 H1. unfold pair_open.
      assert (put_bit k st false ≠ i ∧ put_bit k st true ≠ i) as [Hf Ht'].
      { assert (k = put_bit k st (Z.testbit k st)) as Hkk
          by (symmetry; apply put_bit_same; lia).
        split; intros <-; rewrite !put_bit_put_bit in H0, H1 by lia;
          destruct (Z.testbit k st); congruence. }
      apply bool_decide_ext. lia. }
    case_decide as Hcb.
    2:{ exists ns, w. split; [done|]. split; [done|]. split; [done|].
        intros k Hk. rewrite Hk0 by done.
        destruct (Z.testbit k sc) eqn:Hkc; [|done]. simpl.
        rewrite Hsame; [done|done| |]; intros ->;
          rewrite put_bit_other in Hkc by lia;
          rewrite Hkc in Hcb; by apply Hcb. }
    apply b2z_eq_1 in Hcb.
    rewrite one_minus_bit, js_put_bit by lia.
    set (j := put_bit i st (negb (Z.testbit i st))).
    assert (0 ≤ j < size_of n) as Hj by (apply put_bit_in_range; lia).
    assert (Z.testbit j sc = true) as Hjc
      by (unfold j; rewrite put_bit_other by lia; done).
    assert (flip_bit st i = j) as Hfi by done.
    assert (flip_bit st j = i) as Hfj
      by (rewrite <- Hfi; apply flip_bit_involutive; lia).
    pose proof (put_bit_true_false i st ltac:(lia)) as Hlt.
    pose proof (pow2_pos st ltac:(lia)) as Hpos.
    eexists _, w. split; [reflexivity|]. split; [done|]. split.
    { rewrite !arr_length_set; rewrite ?arr_length_set; lia. }
    intros k Hk. rewrite !arr_get_set.
    rewrite (Hk0 i Hi), (Hk0 j Hj), Hcb, Hjc, Hfi, Hfj. simpl andb.
    assert (put_bit j st false = put_bit i st false ∧
            put_bit j st true = put_bit i st true) as [Hj0 Hj1]
      by (unfold j; by rewrite !put_bit_put_bit by lia).
    unfold pair_open at 1 2. rewrite Hj0, Hj1.
    destruct (Z.testbit i st) eqn:Hit; simpl negb in *.
    + (* [i] is the upper member: the pair was open and closes *)
      assert (put_bit i st true = i) as Hi1
        by (rewrite <- Hit; apply put_bit_same; lia).
      assert (j = put_bit i st false) as Hjv by done.
      rewrite !bool_decide_eq_true_2 by lia.
      destruct (decide (j = k)) as [<-|Hjk]; [|destruct (decide (i = k)) as [<-|Hik]].
      * rewrite Hjc. unfold pair_open. rewrite Hj0, Hj1.
        rewrite bool_decide_eq_false_2 by lia. done.
      * rewrite Hcb. unfold pair_open.
        rewrite bool_decide_eq_false_2 by lia. done.
      * rewrite Hk0 by done. rewrite Hsame by (done || lia || congruence). done.
    + (* [i] is the lower member: the pair opens *)
      assert (put_bit i st false = i) as Hi0
        by (rewrite <- Hit; apply put_bit_same; lia).
      assert (j = put_bit i st true) as Hjv by done.
      rewrite !bool_decide_eq_false_2 by lia.
      destruct (decide (j = k)) as [<-|Hjk]; [|destruct (decide (i = k)) as [<-|Hik]].
      * rewrite Hjc. unfold pair_open. rewrite Hj0, Hj1.
        rewrite bool_decide_eq_true_2 by lia. simpl. by rewrite Hfj.
      * rewrite Hcb. unfold pair_open.
        rewrite bool_decide_eq_true_2 by lia. simpl. by rewrite Hfi.
      * rewrite Hk0 by done. rewrite Hsame by (done || lia || congruence). done.
  - destruct Hinv as (-> & Hl' & Hk'). rewrite Hrun.
    eexists. split; [reflexivity|]. split; [cbn; congruence|].
    intros k Hk. rewrite Hk' by done.
    unfold pair_open. rewrite bool_decide_eq_false_2; [by rewrite andb_false_r|].
    pose proof (put_bit_in_range n k st true Hk Hst). lia.
Qed.

(** * Facts about the sample inputs and the measured string *)

Lemma sample_circuit_valid : Forall (valid_op 2) sample_circuit.
Proof.
  unfold sample_circuit, valid_op, single_kinds, rotation_kinds, two_qubit_kinds.
  repeat apply Forall_cons_2; [..|apply Forall_nil_2];
    (split; [simpl; lia|]); simpl.
  - left. rewrite !elem_of_cons. tauto.
  - right. split; [|lia]. rewrite !elem_of_cons. tauto.
  - left. rewrite !elem_of_cons. tauto.
  - right. split; [|lia]. rewrite !elem_of_cons. tauto.
Qed.

Lemma repeat0_snoc (n : nat) : repeat0 (S n) = repeat0 n +:+ "0".
Proof.
  induction n as [|n IH]; [done|].
  change (repeat0 (S (S n))) with ("0" +:+ repeat0 (S n)).
  rewrite IH at 1. reflexivity.
Qed.

Lemma zeros_are_index_0 (n : nat) :
  (1 ≤ n)%nat → repeat0 n = padStart0 (toString2 0) n.
Proof.
  intros Hn. destruct n as [|n]; [lia|]. unfold padStart0.
  change (String.length (toString2 0)) with 1%nat.
  replace (S n - 1)%nat with n by lia. apply repeat0_snoc.
Qed.

Lemma measure_hit (rand : R) (w : world) (ps : jsarray) (i : Z) :
  well_formed w → getProbabilities w = (Normal ps, w) →
  0 ≤ i < size_of (numQubits (this w)) →
  (rand <= cumulative_mass ps i)%R →
  (∀ j, 0 ≤ j < i → (cumulative_mass ps j < rand)%R) →
  measure rand w = (Normal (padStart0 (toString2 i) (numQubits (this w))), w).
Proof.
  intros Hwf Hps Hi Hhit Hmiss.
  destruct (measure_spec rand w Hwf) as (ps' & Hrun & Hm & Hk).
  assert (ps' = ps) as -> by congruence.
  pose proof Hwf as (Hn & _). pose proof (size_of_bounds _ Hn) as Hsz.
  rewrite Hm. unfold indices.
  rewrite <- (Z2Nat.id (size_of (numQubits (this w)))) by lia.
  do 2 f_equal. apply measure_loop_hit.
  - intros k Hk0. apply Hk. lia.
  - lia.
  - rewrite Z.sub_0_r, <- cumulative_mass_eq. lra.
  - intros j Hj. rewrite Z.sub_0_r, <- cumulative_mass_eq.
    pose proof (Hmiss j Hj). lra.
Qed.

Lemma measure_miss (rand : R) (w : world) (ps : jsarray) :
  well_formed w → getProbabilities w = (Normal ps, w) →
  (∀ j, 0 ≤ j < size_of (numQubits (this w)) →
        (cumulative_mass ps j < rand)%R) →
  measure rand w = (Normal (repeat0 (numQubits (this w))), w).
Proof.
  intros Hwf Hps Hmiss.
  destruct (measure_spec rand w Hwf) as (ps' & Hrun & Hm & Hk).
  assert (ps' = ps) as -> by congruence.
  pose proof Hwf as (Hn & _). pose proof (size_of_bounds _ Hn) as Hsz.
  rewrite Hm. unfold indices.
  rewrite <- (Z2Nat.id (size_of (numQubits (this w)))) by lia.
  do 2 f_equal. apply measure_loop_miss.
  - intros k Hk0. apply Hk. lia.
  - intros j Hj. rewrite Z.sub_0_r, <- cumulative_mass_eq.
    pose proof (Hmiss j ltac:(lia)). lra.
Qed.

(** * The model on small inputs *)

Example ToInt32_wraps : ToInt32 (2 ^ 31) = - 2 ^ 31.
Proof. reflexivity. Qed.

Example shift_count_is_reduced : js_shl 1 (-1) = - 2 ^ 31 ∧ js_shr 5 32 = 5.
Proof. split; reflexivity. Qed.

Example clear_and_set_bit :
  js_or (js_and 5 (js_not (js_shl 1 2))) (js_shl 0 2) = 1 ∧
  js_or (js_and 5 (js_not (js_shl 1 1))) (js_shl 1 1) = 7.
Proof. split; reflexivity. Qed.

Example binary_strings :
  toString2 5 = "101"%string ∧ padStart0 (toString2 1) 3 = "001"%string ∧
  padStart0 (toString2 5) 2 = "101"%string ∧ repeat0 3 = "000"%string.
Proof. repeat split; reflexivity. Qed.

Example gate_table_lookups :
  GATES "CZ" = Some GATE_CZ ∧ GATES "constructor" = Some inherited_member ∧
  GATES "Q" = None.
Proof. repeat split; reflexivity. Qed.

Example array_writes :
  arr_length (arr_set (mkArray 2 ∅) 5 VUndefined) = 6 ∧
  arr_length (arr_set (mkArray 2 ∅) (-3) VUndefined) = 2 ∧
  arr_get (arr_set (mkArray 2 ∅) (-3) (VNumber NaN)) (-3) = VNumber NaN ∧
  arr_get (mkArray 2 ∅) 1 = VUndefined.
Proof. repeat split; reflexivity. Qed.

Example sort_is_stable :
  position <$> sort_gates [ mkGateOp "X" 0 0 None 2; mkGateOp "H" 0 0 None 1;
                            mkGateOp "Z" 1 0 None 2; mkGateOp "Y" 1 0 None 1 ]
  = [1; 1; 2; 2] ∧
  gate <$> sort_gates [ mkGateOp "X" 0 0 None 2; mkGateOp "H" 0 0 None 1;
                        mkGateOp "Z" 1 0 None 2; mkGateOp "Y" 1 0 None 1 ]
  = ["H"; "Y"; "X"; "Z"]%string.
Proof. split; reflexivity. Qed.

(** On one qubit in the state [|1>], [applySWAP(0, 1)] returns normally; the
    amplitude 1 is written at the key [-2^31], outside the array, and both
    slots of the new state vector hold 0. *)
Example applySWAP_beyond_register :
  ∃ w, applySWAP 0 1 (mkWorld (mkSimulator 1
                                 (mkArray 2 (<[0 := obj 0 0]> (<[1 := obj 1 0]> ∅))))
                              [])
       = (Normal tt, w) ∧
       arr_length (stateVector (this w)) = 2 ∧
       arr_get (stateVector (this w)) 0 = obj 0 0 ∧
       arr_get (stateVector (this w)) 1 = obj 0 0 ∧
       arr_get (stateVector (this w)) (- 2 ^ 31) = obj 1 0.
Proof. eexists. split; [vm_compute; reflexivity|]. repeat split. Qed.

(** * The properties of the specification *)

(** C1. Norm preservation: for every number of qubits, starting from the
    reset state and after every gate application of a sequence of supported
    gates on qubits of the register (the first [k] gates, for every [k]), the
    gates return normally, [getProbabilities] returns the [2^N] squared
    magnitudes of the amplitudes, each a non-negative finite number, and
    their sum is 1. *)
Theorem norm_preserved (w0 w1 : world) (ops : list GateOp) (k : nat) :
  reset w0 = (Normal tt, w1) →
  Forall (valid_op (numQubits (this w0))) ops →
  ∃ w ps, applyGates (take k ops) w1 = (Normal tt, w) ∧
          getProbabilities w = (Normal ps, w) ∧
          arr_length ps = size_of (numQubits (this w0)) ∧
          (∀ i, 0 ≤ i < size_of (numQubits (this w0)) →
                ∃ p, arr_get ps i = VNumber (Fin p) ∧ (0 <= p)%R) ∧
          total ps = 1%R.
Proof.
  intros Hreset Hops. pose proof (reset_returns_inv w0 w1 Hreset) as Hn.
  destruct (reset_norm w0 Hn) as (w1' & Hrun1 & Hwf1 & Hn1 & Hc1 & Hnorm1).
  assert (w1' = w1) as -> by congruence.
  destruct (applyGates_valid (take k ops) w1 Hwf1)
    as (w2 & Hrun2 & Hc2 & Hwf2 & Hn2 & Hnorm2).
  { rewrite Hn1. by apply Forall_take. }
  destruct (getProbabilities_spec w2 Hwf2) as (ps & Hps & Hlen & Hk & Htot).
  rewrite Hn2, Hn1 in Hlen, Hk.
  exists w2, ps. split; [done|]. split; [done|]. split; [done|].
  split; [|congruence].
  intros i Hi. eexists. split; [by apply Hk|]. apply modulus2_nonneg.
Qed.

Lemma norm_preserved_witness :
  reset two_qubits = (Normal tt, two_qubits_reset) ∧
  Forall (valid_op (numQubits (this two_qubits))) sample_circuit ∧
  ∃ w ps, applyGates (take 3 sample_circuit) two_qubits_reset = (Normal tt, w) ∧
          getProbabilities w = (Normal ps, w) ∧
          arr_length ps = size_of (numQubits (this two_qubits)) ∧
          (∀ i, 0 ≤ i < size_of (numQubits (this two_qubits)) →
                ∃ p, arr_get ps i = VNumber (Fin p) ∧ (0 <= p)%R) ∧
          total ps = 1%R.
Proof.
  assert (reset two_qubits = (Normal tt, two_qubits_reset)) as Hreset
    by (vm_compute; reflexivity).
  split; [exact Hreset|]. split; [exact sample_circuit_valid|].
  exact (norm_preserved two_qubits two_qubits_reset sample_circuit 3
           Hreset sample_circuit_valid).
Defined.

(** C2. The Bell-state construction, evaluated: on two qubits, [reset], then
    the Hadamard gate on qubit 0, then [applyCNOT(0, 1)] leave the amplitude
    [1/√2] at the indices 0 and 2 and the amplitude 0 at the indices 1 and 3.
    The amplitude at index 3 is therefore farther than 1e-6 from [1/√2]: the
    state is not the Bell state that the specification expects, because
    [applyCNOT] exchanges the amplitudes of the indices 2 and 3 twice. *)
Theorem bell_circuit_result (sv : jsarray) (log : list (level * string)) :
  ∃ w, (reset;; applySingleQubitGate "H" 0 None;; applyCNOT 0 1)
         (mkWorld (mkSimulator 2 sv) log) = (Normal tt, w) ∧
       arr_get (stateVector (this w)) 0 = obj (1 / sqrt 2) 0 ∧
       arr_get (stateVector (this w)) 1 = obj 0 0 ∧
       arr_get (stateVector (this w)) 2 = obj (1 / sqrt 2) 0 ∧
       arr_get (stateVector (this w)) 3 = obj 0 0 ∧
       (1 / 1000000
        < Rabs (re_of (arr_get (stateVector (this w)) 3) - 1 / sqrt 2))%R.
Proof.
  rewrite (applySingleQubitGate_fixed "H" GATE_H _ 0 None eq_refl ltac:(done) eq_refl).
  destruct (hadamard_then_cnot (1 / sqrt 2) sv log) as (w & Hrun & H0 & H1 & H2 & H3).
  exists w. split; [exact Hrun|]. repeat (split; [done|]).
  rewrite H3. cbn. pose proof inv_sqrt2_bounds.
  rewrite Rabs_left; lra.
Qed.

(** C3, as stated, fails: on the one-qubit simulator [applyCZ(0, 1)] names the
    qubit index 1, which is not below [numQubits], and yet returns normally. *)
Lemma applyCZ_accepts_index_1_of_1 :
  ¬ in_range one_qubit 1 ∧ applyCZ 0 1 one_qubit = (Normal tt, one_qubit).
Proof.
  split.
  - unfold in_range. vm_compute. intros [_ H]. discriminate H.
  - vm_compute. reflexivity.
Qed.

(** C3, amended. No method checks a qubit index.  For a well-formed state
    and an index [q] whose shift count [numQubits - 1 - q], reduced modulo 32,
    is [numQubits] or more (every [q] with [numQubits ≤ q ≤ 31] or
    [numQubits - 32 ≤ q < 0]): [q] is outside the register;
    [applySingleQubitGate] on [q] with one of the nine matrix gates throws a
    [TypeError] and leaves the simulator as it was; [applyCZ] with [q] as
    control or as target returns normally and leaves the simulator as it was;
    [applyCNOT] with [q] as control returns normally with every amplitude
    unchanged; [getQubitState(q)] returns normally and leaves the simulator
    as it was.  The index is never clamped. *)
Theorem index_beyond_register (q : Z) (w : world) :
  well_formed w → beyond_register (numQubits (this w)) q →
  ¬ in_range w q ∧
  (∀ name p, name ∈ single_kinds ++ rotation_kinds →
     applySingleQubitGate name q p w = (Throw TypeError, w)) ∧
  (∀ t, applyCZ q t w = (Normal tt, w) ∧ applyCZ t q w = (Normal tt, w)) ∧
  (∀ t, ∃ sv',
     applyCNOT q t w
     = (Normal tt, mkWorld (mkSimulator (numQubits (this w)) sv') (console w)) ∧
     arr_length sv' = arr_length (stateVector (this w)) ∧
     ∀ k, 0 ≤ k < size_of (numQubits (this w)) →
          arr_get sv' k = arr_get (stateVector (this w)) k) ∧
  (∃ r, getQubitState q w = (Normal r, w)).
Proof.
  intros Hwf Hq. pose proof Hwf as (Hn & _).
  split; [by apply beyond_register_not_in_range|].
  split; [intros name p Hname; by apply single_gate_beyond|].
  split; [intros t; split; apply applyCZ_beyond; auto|].
  split; [intros t; by apply applyCNOT_beyond_control|].
  by apply getQubitState_total.
Qed.

Lemma index_beyond_register_witness :
  well_formed one_qubit ∧
  beyond_register (numQubits (this one_qubit)) 1 ∧
  applySingleQubitGate "H" 1 None one_qubit = (Throw TypeError, one_qubit) ∧
  applyCZ 1 0 one_qubit = (Normal tt, one_qubit).
Proof.
  assert (well_formed one_qubit) as Hwf by (apply new_well_formed; lia).
  assert (beyond_register (numQubits (this one_qubit)) 1) as Hq
    by (vm_compute; discriminate).
  assert ("H"%string ∈ single_kinds ++ rotation_kinds) as HH by left.
  split; [exact Hwf|]. split; [exact Hq|].
  destruct (index_beyond_register 1 one_qubit Hwf Hq) as (_ & Hsingle & Hcz & _).
  split; [exact (Hsingle "H"%string None HH)|exact (proj1 (Hcz 0))].
Defined.

(** C4, as stated, fails: on the one-qubit state with both amplitudes 1/2 the
    cumulative sums 1/4 and 1/2 stay below the draw 3/4, and [measure]
    returns ["0"], the string of index 0; the string of the last index,
    [2^1 - 1], is ["1"]. *)
Lemma measure_falls_back_to_index_0 :
  well_formed half_half ∧
  ∃ ps, getProbabilities half_half = (Normal ps, half_half) ∧
        (∀ j, 0 ≤ j < size_of 1 → (cumulative_mass ps j < 3 / 4)%R) ∧
        measure (3 / 4) half_half = (Normal "0"%string, half_half) ∧
        padStart0 (toString2 (size_of 1 - 1)) 1 = "1"%string.
Proof.
  assert (well_formed half_half) as Hwf.
  { split; [simpl; lia|]. split; [done|]. intros k Hk.
    change (size_of (numQubits (this half_half))) with 2 in Hk.
    assert (k = 0 ∨ k = 1) as [-> | ->] by lia; apply is_amplitude_obj. }
  split; [done|].
  destruct (getProbabilities_spec half_half Hwf) as (ps & Hrun & _ & Hk & _).
  assert (∀ j, 0 ≤ j < size_of 1 → (cumulative_mass ps j < 3 / 4)%R) as Hcum.
  { intros j Hj. change (size_of 1) with 2 in Hj.
    rewrite cumulative_mass_eq.
    assert (j = 0 ∨ j = 1) as [-> | ->] by lia.
    - rewrite mass_cons, mass_nil by lia.
      rewrite (Hk 0) by done.
      change (arr_get (stateVector (this half_half)) 0) with (obj (1 / 2) 0).
      unfold modulus2; simpl. lra.
    - rewrite mass_cons by lia. rewrite mass_cons, mass_nil by lia.
      change (0 + 1) with 1.
      rewrite (Hk 0), (Hk 1) by done.
      change (arr_get (stateVector (this half_half)) 0) with (obj (1 / 2) 0).
      change (arr_get (stateVector (this half_half)) 1) with (obj (1 / 2) 0).
      unfold modulus2; simpl. lra. }
  exists ps. split; [done|]. split; [done|]. split; [|done].
  by apply (measure_miss (3 / 4) half_half ps).
Qed.

(** C4, amended. Weighted-sample selection: on a well-formed state, whose
    probabilities [ps] are finite numbers, and for a draw [rand], [measure]
    returns the binary string, padded with zeros to [numQubits] characters,
    of the first index whose cumulative probability mass is at least [rand]
    (a string of exactly [numQubits] characters when there is at least one
    qubit); when [rand] exceeds every cumulative sum it falls back to the
    string of [numQubits] zeros, which is the string of index 0. *)
Theorem measure_selects (rand : R) (w : world) :
  well_formed w →
  ∃ ps, getProbabilities w = (Normal ps, w) ∧
    (∀ i, 0 ≤ i < size_of (numQubits (this w)) →
          ∃ p, arr_get ps i = VNumber (Fin p)) ∧
    (∀ i, 0 ≤ i < size_of (numQubits (this w)) →
          (rand <= cumulative_mass ps i)%R →
          (∀ j, 0 ≤ j < i → (cumulative_mass ps j < rand)%R) →
          measure rand w
          = (Normal (padStart0 (toString2 i) (numQubits (this w))), w) ∧
          ((1 ≤ numQubits (this w))%nat →
           String.length (padStart0 (toString2 i) (numQubits (this w)))
           = numQubits (this w))) ∧
    ((∀ j, 0 ≤ j < size_of (numQubits (this w)) →
           (cumulative_mass ps j < rand)%R) →
     measure rand w = (Normal (repeat0 (numQubits (this w))), w) ∧
     ((1 ≤ numQubits (this w))%nat →
      repeat0 (numQubits (this w))
      = padStart0 (toString2 0) (numQubits (this w)))).
Proof.
  intros Hwf.
  destruct (getProbabilities_spec w Hwf) as (ps & Hrun & _ & Hk & _).
  exists ps. split; [done|]. split; [|split].
  - intros i Hi. eexists. by apply Hk.
  - intros i Hi Hhit Hmiss. split.
    + by apply (measure_hit rand w ps).
    + intros Hn. by apply binary_string_width.
  - intros Hmiss. split.
    + by apply (measure_miss rand w ps).
    + intros Hn. by apply zeros_are_index_0.
Qed.

Lemma measure_selects_witness :
  well_formed one_qubit ∧
  ∃ ps, getProbabilities one_qubit = (Normal ps, one_qubit) ∧
    (∀ i, 0 ≤ i < size_of (numQubits (this one_qubit)) →
          ∃ p, arr_get ps i = VNumber (Fin p)) ∧
    (∀ i, 0 ≤ i < size_of (numQubits (this one_qubit)) →
          (1 / 2 <= cumulative_mass ps i)%R →
          (∀ j, 0 ≤ j < i → (cumulative_mass ps j < 1 / 2)%R) →
          measure (1 / 2) one_qubit
          = (Normal (padStart0 (toString2 i) (numQubits (this one_qubit))),
             one_qubit) ∧
          ((1 ≤ numQubits (this one_qubit))%nat →
           String.length (padStart0 (toString2 i) (numQubits (this one_qubit)))
           = numQubits (this one_qubit))) ∧
    ((∀ j, 0 ≤ j < size_of (numQubits (this one_qubit)) →
           (cumulative_mass ps j < 1 / 2)%R) →
     measure (1 / 2) one_qubit
     = (Normal (repeat0 (numQubits (this one_qubit))), one_qubit) ∧
     ((1 ≤ numQubits (this one_qubit))%nat →
      repeat0 (numQubits (this one_qubit))
      = padStart0 (toString2 0) (numQubits (this one_qubit)))).
Proof.
  assert (well_formed one_qubit) as Hwf by (apply new_well_formed; lia).
  split; [exact Hwf|].
  exact (measure_selects (1 / 2) one_qubit Hwf).
Defined.

(** C5, as stated, fails: [applySingleQubitGate('RX', 0, {})] on the one-qubit
    simulator returns normally. *)
Lemma rotation_without_theta_returns :
  ∃ w', applySingleQubitGate "RX" 0 (Some (mkParams None)) one_qubit
        = (Normal tt, w').
Proof.
  destruct (rotation_gate_norm "RX" GATE_RX _ 0 (Some (mkParams None))
              one_qubit eq_refl eq_refl eq_refl
              (λ t, unitary_RX _ t eq_refl)) as (w' & Hrun & _).
  - apply new_well_formed; lia.
  - unfold in_range. vm_compute. split; [discriminate|done].
  - by exists w'.
Qed.

(** C5, amended. A rotation gate (RX, RY or RZ) whose [params] lacks [theta]
    is applied with the angle 0: the call behaves exactly as the call with
    [theta: 0], and on a well-formed state and a qubit of the register it
    returns normally. *)
Theorem rotation_without_theta_uses_zero (name : string) (q : Z) (w : world) :
  name ∈ rotation_kinds →
  applySingleQubitGate name q (Some (mkParams None)) w
  = applySingleQubitGate name q (Some (mkParams (Some (Fin 0)))) w ∧
  (well_formed w → in_range w q →
   ∃ w', applySingleQubitGate name q (Some (mkParams None)) w = (Normal tt, w')).
Proof.
  intros Hname. unfold rotation_kinds in Hname.
  assert (or_zero (Some (Fin 0)) = or_zero None) as Hzero.
  { simpl. by destruct (Req_dec_T 0 0). }
  repeat (apply elem_of_cons in Hname as [->|Hname]);
    [..|by apply elem_of_nil in Hname].
  - split.
    + rewrite !(applySingleQubitGate_rotation "RX" GATE_RX _ q _ eq_refl eq_refl eq_refl).
      simpl default. simpl theta. by rewrite Hzero.
    + intros Hwf Hq.
      destruct (rotation_gate_norm "RX" GATE_RX _ q (Some (mkParams None)) w
                  eq_refl eq_refl eq_refl (λ t, unitary_RX _ t eq_refl) Hwf Hq)
        as (w' & Hrun & _). by exists w'.
  - split.
    + rewrite !(applySingleQubitGate_rotation "RY" GATE_RY _ q _ eq_refl eq_refl eq_refl).
      simpl default. simpl theta. by rewrite Hzero.
    + intros Hwf Hq.
      destruct (rotation_gate_norm "RY" GATE_RY _ q (Some (mkParams None)) w
                  eq_refl eq_refl eq_refl (λ t, unitary_RY _ t eq_refl) Hwf Hq)
        as (w' & Hrun & _). by exists w'.
  - split.
    + rewrite !(applySingleQubitGate_rotation "RZ" GATE_RZ _ q _ eq_refl eq_refl eq_refl).
      simpl default. simpl theta. by rewrite Hzero.
    + intros Hwf Hq.
      destruct (rotation_gate_norm "RZ" GATE_RZ _ q (Some (mkParams None)) w
                  eq_refl eq_refl eq_refl (λ t, unitary_RZ _ t eq_refl) Hwf Hq)
        as (w' & Hrun & _). by exists w'.
Qed.

Lemma rotation_without_theta_uses_zero_witness :
  "RX"%string ∈ rotation_kinds ∧
  applySingleQubitGate "RX" 0 (Some (mkParams None)) one_qubit
  = applySingleQubitGate "RX" 0 (Some (mkParams (Some (Fin 0)))) one_qubit.
Proof.
  assert ("RX"%string ∈ rotation_kinds) as H by (unfold rotation_kinds; left).
  split; [exact H|].
  exact (proj1 (rotation_without_theta_uses_zero "RX" 0 one_qubit H)).
Defined.

(** C6, as stated, fails: [applyGate] on a gate operation of the unknown kind
    ["Q"] returns normally, after one warning on the console. *)
Lemma unknown_kind_returns :
  applyGate (mkGateOp "Q" 0 0 None 0) one_qubit
  = (Normal tt,
     mkWorld (this one_qubit) [(LogWarn, "Unknown gate: Q"%string)]).
Proof. vm_compute. reflexivity. Qed.

(** C6, amended. A kind that is not a key of the gate table does not make the
    call fail: [applyGate] writes the warning "Unknown gate: kind" to the
    console and returns normally; [applySingleQubitGate] writes it as an
    error (or writes nothing, when the kind names a property that the table
    inherits from [Object.prototype]) and returns normally.  Both leave the
    simulator as it was, so no substitute matrix is applied. *)
Theorem unknown_kind_is_logged (kind : string) (q t : Z) (p : option Params)
    (pos : Z) (w : world) :
  kind ∉ supported_kinds →
  applyGate (mkGateOp kind q t p pos) w
  = (Normal tt,
     mkWorld (this w) (console w ++ [(LogWarn, "Unknown gate: " +:+ kind)])) ∧
  applySingleQubitGate kind q p w
  = (Normal tt,
     mkWorld (this w)
       (console w ++ (if decide (kind ∈ Object_prototype_keys) then []
                      else [(LogError, "Unknown gate: " +:+ kind)]))).
Proof.
  intros Hk. split.
  - unfold supported_kinds, GATES_own in Hk. simpl in Hk.
    repeat (apply not_elem_of_cons in Hk as [? Hk]).
    unfold applyGate.
    rewrite decide_False
      by (unfold single_kinds; rewrite !elem_of_cons, elem_of_nil; tauto).
    rewrite decide_False
      by (unfold rotation_kinds; rewrite !elem_of_cons, elem_of_nil; tauto).
    rewrite !decide_False by done. done.
  - unfold applySingleQubitGate, GATES. rewrite (assoc_None kind) by done.
    case_decide.
    + unfold mbind, M_bind, lift. rewrite decide_False by done. cbn.
      rewrite app_nil_r. by destruct w as [[]].
    + done.
Qed.

Lemma unknown_kind_is_logged_witness :
  ("Q"%string ∉ supported_kinds) ∧
  applyGate (mkGateOp "Q" 0 0 None 0) two_qubits
  = (Normal tt, mkWorld (this two_qubits) [(LogWarn, "Unknown gate: Q"%string)]).
Proof.
  assert ("Q"%string ∉ supported_kinds) as HQ.
  { unfold supported_kinds. simpl.
    rewrite !not_elem_of_cons. repeat split; (discriminate || apply not_elem_of_nil). }
  split; [exact HQ|].
  exact (proj1 (unknown_kind_is_logged "Q" 0 0 None 0 two_qubits HQ)).
Defined.

(** C7. SWAP involution: on a well-formed state and for two qubits of the
    register, applying [applySWAP(a, b)] twice returns normally and leaves
    every amplitude of the state vector equal to its value before the two
    swaps. *)
Theorem swap_twice_restores (a b : Z) (w : world) :
  well_formed w → in_range w a → in_range w b →
  ∃ w', (applySWAP a b;; applySWAP a b) w = (Normal tt, w') ∧
        numQubits (this w') = numQubits (this w) ∧
        arr_length (stateVector (this w')) = arr_length (stateVector (this w)) ∧
        ∀ k, 0 ≤ k < size_of (numQubits (this w)) →
             arr_get (stateVector (this w')) k = arr_get (stateVector (this w)) k.
Proof.
  intros Hwf Ha Hb.
  destruct (applySWAP_spec a b w Hwf Ha Hb) as (sv1 & Hrun1 & Hl1 & Hk1).
  pose proof Hwf as (Hn & Hlen & Hamp). unfold in_range in *.
  set (n := numQubits (this w)) in *.
  pose proof (shift_in_range n a Ha) as Hsa.
  pose proof (shift_in_range n b Hb) as Hsb.
  set (w1 := mkWorld (mkSimulator n sv1) (console w)) in *.
  assert (well_formed w1) as Hwf1.
  { split; [done|]. split; [done|]. cbn. intros k Hk. rewrite Hk1 by done.
    apply Hamp. by apply swap_bits_range. }
  destruct (applySWAP_spec a b w1 Hwf1 Ha Hb) as (sv2 & Hrun2 & Hl2 & Hk2).
  cbn in Hrun2, Hl2, Hk2.
  eexists. split.
  { unfold mbind, M_bind. rewrite Hrun1. exact Hrun2. }
  split; [done|]. split; [cbn; congruence|]. cbn. intros k Hk.
  rewrite Hk2 by done. rewrite Hk1 by (by apply swap_bits_range).
  rewrite swap_bits_involutive by lia. done.
Qed.

Lemma swap_twice_restores_witness :
  well_formed two_qubits_reset ∧ in_range two_qubits_reset 0 ∧
  in_range two_qubits_reset 1 ∧
  ∃ w', (applySWAP 0 1;; applySWAP 0 1) two_qubits_reset = (Normal tt, w') ∧
        numQubits (this w') = numQubits (this two_qubits_reset) ∧
        arr_length (stateVector (this w'))
        = arr_length (stateVector (this two_qubits_reset)) ∧
        ∀ k, 0 ≤ k < size_of (numQubits (this two_qubits_reset)) →
             arr_get (stateVector (this w')) k
             = arr_get (stateVector (this two_qubits_reset)) k.
Proof.
  assert (well_formed two_qubits_reset) as Hwf by (apply new_well_formed; lia).
  assert (in_range two_qubits_reset 0) as H0 by (unfold in_range; simpl; lia).
  assert (in_range two_qubits_reset 1) as H1 by (unfold in_range; simpl; lia).
  split; [exact Hwf|]. split; [exact H0|]. split; [exact H1|].
  exact (swap_twice_restores 0 1 two_qubits_reset Hwf H0 H1).
Defined.

(** C8. RZ preserves the probability distribution: for every angle [t], on a
    simulator with at least one qubit, [getProbabilities] returns the same
    array before and after [applySingleQubitGate('RZ', 0, {theta: t})] is
    applied to the freshly reset state. *)
Theorem RZ_keeps_probabilities (w0 w1 : world) (t : R) :
  (1 ≤ numQubits (this w0))%nat →
  reset w0 = (Normal tt, w1) →
  ∃ w2 ps,
    applySingleQubitGate "RZ" 0 (Some (mkParams (Some (Fin t)))) w1
    = (Normal tt, w2) ∧
    getProbabilities w1 = (Normal ps, w1) ∧
    getProbabilities w2 = (Normal ps, w2).
Proof.
  intros Hn1 Hreset. pose proof (reset_returns_inv w0 w1 Hreset) as Hn.
  destruct (reset_norm w0 Hn) as (w1' & Hrun1 & Hwf1 & Hn' & _ & _).
  assert (w1' = w1) as -> by congruence.
  destruct (RZ_modulus t 0 w1 Hwf1) as (w2 & Hrun2 & Hwf2 & Hn2 & Hmod).
  { unfold in_range. rewrite Hn'. lia. }
  destruct (getProbabilities_eq w1 w2 Hwf1 Hwf2 Hn2 Hmod) as (ps & Hp1 & Hp2).
  by exists w2, ps.
Qed.

Lemma RZ_keeps_probabilities_witness :
  (1 ≤ numQubits (this two_qubits))%nat ∧
  reset two_qubits = (Normal tt, two_qubits_reset) ∧
  ∃ w2 ps,
    applySingleQubitGate "RZ" 0 (Some (mkParams (Some (Fin 1)))) two_qubits_reset
    = (Normal tt, w2) ∧
    getProbabilities two_qubits_reset = (Normal ps, two_qubits_reset) ∧
    getProbabilities w2 = (Normal ps, w2).
Proof.
  assert (1 ≤ numQubits (this two_qubits))%nat as Hn by (simpl; lia).
  assert (reset two_qubits = (Normal tt, two_qubits_reset)) as Hreset
    by (vm_compute; reflexivity).
  split; [exact Hn|]. split; [exact Hreset|].
  exact (RZ_keeps_probabilities two_qubits two_qubits_reset 1 Hn Hreset).
Defined.

(** C9. The measurement marker is a no-op: [applyGate] on a gate operation of
    kind ['M'] returns normally and leaves the state vector, and the whole
    simulator, exactly as it was, whatever the state. *)
Theorem measurement_gate_is_noop (q t : Z) (p : option Params) (pos : Z)
    (w : world) :
  applyGate (mkGateOp "M" q t p pos) w = (Normal tt, w).
Proof. reflexivity. Qed.

(** C10. CZ argument symmetry: [applyCZ(c, t)] and [applyCZ(t, c)] have the
    same outcome and leave the same state vector, for every state and every
    pair of indices. *)
Theorem applyCZ_symmetric (c t : Z) (w : world) :
  applyCZ c t w = applyCZ t c w.
Proof.
  unfold applyCZ. unfold mbind at 1 3. unfold M_bind, get_numQubits.
  apply for_each_ext. intros i a w0. by rewrite andb_comm.
Qed.

(** * CNOT with the control as its own target *)

Lemma applyCNOT_same (q : Z) (w : world) :
  well_formed w → in_range w q →
  ∃ sv', applyCNOT q q w
         = (Normal tt, mkWorld (mkSimulator (numQubits (this w)) sv') (console w)) ∧
         arr_length sv' = arr_length (stateVector (this w)) ∧
         ∀ k, 0 ≤ k < size_of (numQubits (this w)) →
              arr_get sv' k
              = arr_get (stateVector (this w))
                  (flip_bit (shift (numQubits (this w)) q) k).
Proof.
  intros Hwf Hq.
  destruct (copy_state w Hwf) as (copy & Hcopy & Hcl & Hcin & _).
  destruct Hwf as (Hn & Hlen & Hamp). unfold in_range in *.
  set (n := numQubits (this w)) in *. set (sv := stateVector (this w)) in *.
  pose proof (size_of_bounds _ Hn) as Hsize.
  pose proof (shift_in_range n q Hq) as Hs.
  set (s := shift n q) in *.
  unfold applyCNOT. monad_unfold. fold n sv s. rewrite Hcopy.
  loop_invariant (λ (m : Z) (ns : jsarray) (w' : world),
      w' = w ∧ arr_length ns = size_of n ∧
      ∀ k, 0 ≤ k < size_of n →
           arr_get ns k
           = if bool_decide (put_bit k s true < m)
             then arr_get sv (flip_bit s k) else arr_get sv k)
    ns' w' Hrun Hinv.
  - lia.
  - split; [done|]. split; [by rewrite <- Hcl|]. intros k Hk.
    rewrite arr_get_spread, decide_True by lia. rewrite Hcin by done.
    rewrite bool_decide_eq_false_2; [done|].
    pose proof (put_bit_in_range n k s true Hk Hs). lia.
  - intros i ns w0 Hi (-> & Hl0 & Hk0). cbv beta.
    rewrite !js_bit by lia.
    case_decide as Hcb.
    + apply b2z_eq_1 in Hcb. rewrite Hcb. simpl Z.b2z.
      change (1 - 1) with (Z.b2z false). rewrite js_put_bit by lia.
      set (j := put_bit i s false).
      assert (0 ≤ j < size_of n) as Hj by (apply put_bit_in_range; lia).
      assert (put_bit i s true = i) as Hi1
        by (rewrite <- Hcb; apply put_bit_same; lia).
      assert (put_bit j s true = i) as Hj1
        by (unfold j; rewrite put_bit_put_bit by lia; done).
      assert (flip_bit s i = j) as Hfi by (unfold flip_bit; by rewrite Hcb).
      assert (flip_bit s j = i) as Hfj
        by (rewrite <- Hfi; apply flip_bit_involutive; lia).
      assert (j ≠ i) as Hji.
      { intros E. apply (f_equal (λ x, Z.testbit x s)) in E.
        unfold j in E. rewrite put_bit_testbit in E by lia. congruence. }
      eexists _, w. split; [reflexivity|]. split; [done|]. split.
      { rewrite !arr_length_set; rewrite ?arr_length_set; lia. }
      intros k Hk. rewrite !arr_get_set.
      rewrite (Hk0 i Hi), (Hk0 j Hj), Hi1, Hj1.
      rewrite !(bool_decide_eq_false_2 (i < i)) by lia.
      destruct (decide (j = k)) as [<-|Hjk]; [|destruct (decide (i = k)) as [<-|Hik]].
      * rewrite Hj1, bool_decide_eq_true_2 by lia. by rewrite Hfj.
      * rewrite Hi1, bool_decide_eq_true_2 by lia. by rewrite Hfi.
      * rewrite Hk0 by done. apply (f_equal (λ b : bool, if b then _ else _)).
        apply bool_decide_ext.
        assert (put_bit k s true ≠ i); [|lia].
        intros E. rewrite <- E in Hi1.
        destruct (Z.testbit k s) eqn:Hb.
        -- apply Hik. rewrite <- E. rewrite <- Hb. apply put_bit_same. lia.
        -- apply Hjk. unfold j. rewrite <- E, put_bit_put_bit by lia.
           rewrite <- Hb. apply put_bit_same. lia.
    + exists ns, w. split; [done|]. split; [done|]. split; [done|].
      intros k Hk. rewrite Hk0 by done.
      apply (f_equal (λ b : bool, if b then _ else _)).
      apply bool_decide_ext.
      assert (put_bit k s true ≠ i); [|lia].
      intros <-. rewrite put_bit_testbit in Hcb by lia. by apply Hcb.
  - destruct Hinv as (-> & Hl' & Hk'). rewrite Hrun.
    eexists. split; [reflexivity|]. split; [cbn; congruence|].
    intros k Hk. rewrite Hk' by done.
    rewrite bool_decide_eq_true_2; [done|].
    pose proof (put_bit_in_range n k s true Hk Hs). lia.
Qed.

(** * CZ, amplitude by amplitude *)

Lemma applyCZ_slots (c t : Z) (w : world) :
  well_formed w →
  let n := numQubits (this w) in
  ∃ sv', applyCZ c t w = (Normal tt, mkWorld (mkSimulator n sv') (console w)) ∧
         arr_length sv' = arr_length (stateVector (this w)) ∧
         ∀ k, arr_slots sv' !! k
              = if decide (0 ≤ k < size_of n) then
                  Some (if cz_hits n c t k
                        then cmul (arr_get (stateVector (this w)) k) (obj (-1) 0)
                        else arr_get (stateVector (this w)) k)
                else arr_slots (stateVector (this w)) !! k.
Proof.
  intros (Hn & Hlen & Hamp) n. fold n in Hn, Hlen, Hamp.
  pose proof (size_of_bounds _ Hn) as Hsize.
  set (sv := stateVector (this w)) in *.
  unfold applyCZ. monad_unfold. fold n.
  loop_invariant (λ (m : Z) (_ : unit) w',
       numQubits (this w') = n ∧ console w' = console w ∧
       arr_length (stateVector (this w')) = arr_length sv ∧
       ∀ k, arr_slots (stateVector (this w')) !! k
            = if decide (0 ≤ k < m) then
                Some (if cz_hits n c t k then cmul (arr_get sv k) (obj (-1) 0)
                      else arr_get sv k)
              else arr_slots sv !! k)
    u w' Hrun Hinv.
  - lia.
  - split; [done|]. split; [done|]. split; [done|]. intros k.
    by rewrite decide_False by lia.
  - intros i [] w0 Hi (Hn0 & Hc0 & Hl0 & Hk0). cbv beta.
    destruct (_ && _) eqn:Hhit.
    + assert (arr_get (stateVector (this w0)) i = arr_get sv i) as Hi0.
      { unfold arr_get at 1. rewrite Hk0, decide_False by lia. done. }
      rewrite Hi0. destruct (Hamp i Hi) as (x & y & Hxy).
      rewrite Hxy, multiply_minus_one.
      eexists tt, _. split; [reflexivity|]. cbn.
      split; [done|]. split; [done|]. split.
      { rewrite decide_True by lia. lia. }
      intros k. destruct (decide (k = i)) as [->|Hne].
      * rewrite lookup_insert_eq, decide_True by lia.
        unfold cz_hits. rewrite Hhit, Hxy. done.
      * rewrite lookup_insert_ne by done. rewrite Hk0.
        destruct (decide (0 ≤ k < i)), (decide (0 ≤ k < i + 1)); done || lia.
    + eexists tt, w0. split; [done|]. split; [done|]. split; [done|].
      split; [done|]. intros k. rewrite Hk0.
      destruct (decide (k = i)) as [->|Hne].
      * rewrite decide_False, decide_True by lia.
        unfold cz_hits. rewrite Hhit. by apply slot_of_amplitude, Hamp.
      * destruct (decide (0 ≤ k < i)), (decide (0 ≤ k < i + 1)); done || lia.
  - destruct u. destruct Hinv as (Hn' & Hc' & Hl' & Hk').
    exists (stateVector (this w')). split.
    { rewrite Hrun. destruct w' as [[n' sv'] c']. cbn in *. by subst. }
    done.
Qed.

Lemma cmul_minus_one_twice (v : value) :
  is_amplitude v → cmul (cmul v (obj (-1) 0)) (obj (-1) 0) = v.
Proof.
  intros (x & y & ->). unfold cmul. cbn [re_of im_of obj].
  apply obj_eq; ring.
Qed.

Lemma is_amplitude_cz (n : nat) (c t k : Z) (v : value) :
  is_amplitude v →
  is_amplitude (if cz_hits n c t k then cmul v (obj (-1) 0) else v).
Proof. intros Hv. destruct (cz_hits n c t k); [apply is_amplitude_cmul|done]. Qed.

(** * Two single-qubit gates in a row *)

Ltac complex_eq :=
  unfold act, product, identity, cadd, cmul, Complex.create;
  cbn [re_of im_of obj Bool.eqb];
  apply obj_eq.

Lemma apply_matrix_act (m : Matrix) (q : Z) (w : world) :
  well_formed w → in_range w q → finite_matrix m →
  let n := numQubits (this w) in
  ∃ sv', apply_matrix m q w
         = (Normal tt, mkWorld (mkSimulator n sv') (console w)) ∧
         well_formed (mkWorld (mkSimulator n sv') (console w)) ∧
         ∀ k, 0 ≤ k < size_of n →
              arr_get sv' k = act (entry m) (shift n q) (stateVector (this w)) k.
Proof.
  intros Hwf Hq Hm n.
  destruct (apply_matrix_spec m q w Hwf Hq Hm) as (sv' & Hrun & Hl & Hk).
  exists sv'. split; [done|]. split; [|done].
  destruct Hwf as (Hn & _). split; [done|]. split; [done|]. cbn.
  intros k Hk'. rewrite Hk by done. apply is_amplitude_cadd.
Qed.

Lemma apply_matrix_seq (m1 m2 : Matrix) (q1 q2 : Z) (w : world) :
  well_formed w → in_range w q1 → in_range w q2 →
  finite_matrix m1 → finite_matrix m2 →
  let n := numQubits (this w) in
  let sv := stateVector (this w) in
  ∃ sv', (apply_matrix m1 q1;; apply_matrix m2 q2) w
         = (Normal tt, mkWorld (mkSimulator n sv') (console w)) ∧
         well_formed (mkWorld (mkSimulator n sv') (console w)) ∧
         ∀ k, 0 ≤ k < size_of n →
              arr_get sv' k
              = cadd (cmul (entry m2 (Z.testbit k (shift n q2)) false)
                           (act (entry m1) (shift n q1) sv
                              (put_bit k (shift n q2) false)))
                     (cmul (entry m2 (Z.testbit k (shift n q2)) true)
                           (act (entry m1) (shift n q1) sv
                              (put_bit k (shift n q2) true))).
Proof.
  intros Hwf Hq1 Hq2 Hm1 Hm2 n sv.
  destruct (apply_matrix_act m1 q1 w Hwf Hq1 Hm1) as (sv1 & Hrun1 & Hwf1 & Hk1).
  fold n sv in Hrun1, Hwf1, Hk1.
  destruct (apply_matrix_act m2 q2 _ Hwf1 Hq2 Hm2) as (sv2 & Hrun2 & Hwf2 & Hk2).
  cbn in Hrun2, Hwf2, Hk2.
  exists sv2. split.
  { unfold mbind, M_bind. rewrite Hrun1. exact Hrun2. }
  split; [done|]. intros k Hk. rewrite Hk2 by done. unfold act at 1.
  unfold in_range in Hq2. pose proof (shift_in_range n q2 Hq2) as Hs2.
  rewrite !Hk1 by (apply put_bit_in_range; lia). done.
Qed.

Lemma act_ext (e e' : bool → bool → value) (s : Z) (sv : jsarray) (k : Z) :
  (∀ r c, e r c = e' r c) → act e s sv k = act e' s sv k.
Proof. intros H. unfold act. by rewrite !H. Qed.

Lemma act_identity (s : Z) (sv : jsarray) (k : Z) :
  0 ≤ s → is_amplitude (arr_get sv k) → act identity s sv k = arr_get sv k.
Proof.
  intros Hs (x & y & Hxy). unfold act.
  destruct (Z.testbit k s) eqn:Hb.
  - assert (put_bit k s true = k) as -> by (rewrite <- Hb; by apply put_bit_same).
    rewrite Hxy. complex_eq; ring.
  - assert (put_bit k s false = k) as -> by (rewrite <- Hb; by apply put_bit_same).
    rewrite Hxy. complex_eq; ring.
Qed.

(** Two gates on the same qubit act as the product of their matrices. *)
Lemma apply_matrix_product (m1 m2 : Matrix) (q : Z) (w : world) :
  well_formed w → in_range w q → finite_matrix m1 → finite_matrix m2 →
  let n := numQubits (this w) in
  ∃ sv', (apply_matrix m1 q;; apply_matrix m2 q) w
         = (Normal tt, mkWorld (mkSimulator n sv') (console w)) ∧
         well_formed (mkWorld (mkSimulator n sv') (console w)) ∧
         ∀ k, 0 ≤ k < size_of n →
              arr_get sv' k
              = act (product (entry m2) (entry m1)) (shift n q)
                    (stateVector (this w)) k.
Proof.
  intros Hwf Hq Hm1 Hm2 n.
  destruct (apply_matrix_seq m1 m2 q q w Hwf Hq Hq Hm1 Hm2) as (sv' & Hrun & Hwf' & Hk).
  exists sv'. split; [done|]. split; [done|]. intros k Hk'.
  rewrite Hk by done. fold n.
  unfold in_range in Hq. pose proof (shift_in_range n q Hq) as Hs.
  unfold act. rewrite !put_bit_testbit, !put_bit_put_bit by lia.
  complex_eq; ring.
Qed.

Lemma entry_amplitude_2x2 (e00 e01 e10 e11 : value) :
  is_amplitude (Complex.fromNumber e00) → is_amplitude (Complex.fromNumber e01) →
  is_amplitude (Complex.fromNumber e10) → is_amplitude (Complex.fromNumber e11) →
  finite_matrix [[e00; e01]; [e10; e11]].
Proof. intros H00 H01 H10 H11 [] []; (split; [by eexists|done]). Qed.

Lemma or_zero_Fin (t : R) : or_zero (Some (Fin t)) = Fin t.
Proof. simpl. destruct (Req_dec_T t 0) as [->|]; done. Qed.

(** The matrix that [applySingleQubitGate] takes from the gate table. *)
Lemma single_gate_matrix (name : string) (p : option Params) :
  name ∈ single_kinds ++ rotation_kinds →
  ∃ m, unitary m ∧ ∀ q, applySingleQubitGate name q p = apply_matrix m q.
Proof.
  intros Hname.
  destruct (or_zero_finite (theta (default (mkParams None) p))) as (t & Ht).
  unfold single_kinds, rotation_kinds in Hname. simpl in Hname.
  repeat (apply elem_of_cons in Hname as [->|Hname]);
    [..|by apply elem_of_nil in Hname].
  - eexists. split; [by apply unitary_H|]. intros q.
    by apply (applySingleQubitGate_fixed "H" GATE_H).
  - eexists. split; [by apply unitary_X|]. intros q.
    by apply (applySingleQubitGate_fixed "X" GATE_X).
  - eexists. split; [by apply unitary_Y|]. intros q.
    by apply (applySingleQubitGate_fixed "Y" GATE_Y).
  - eexists. split; [by apply unitary_Z|]. intros q.
    by apply (applySingleQubitGate_fixed "Z" GATE_Z).
  - eexists. split; [by apply unitary_S|]. intros q.
    by apply (applySingleQubitGate_fixed "S" GATE_S).
  - eexists. split; [by apply unitary_T|]. intros q.
    by apply (applySingleQubitGate_fixed "T" GATE_T).
  - destruct (gate_getMatrix GATE_RX) as [f|] eqn:Hf; [|done].
    exists (f (Fin t)). split; [by apply unitary_RX|]. intros q.
    rewrite (applySingleQubitGate_rotation "RX" GATE_RX f q p eq_refl eq_refl Hf).
    by rewrite Ht.
  - destruct (gate_getMatrix GATE_RY) as [f|] eqn:Hf; [|done].
    exists (f (Fin t)). split; [by apply unitary_RY|]. intros q.
    rewrite (applySingleQubitGate_rotation "RY" GATE_RY f q p eq_refl eq_refl Hf).
    by rewrite Ht.
  - destruct (gate_getMatrix GATE_RZ) as [f|] eqn:Hf; [|done].
    exists (f (Fin t)). split; [by apply unitary_RZ|]. intros q.
    rewrite (applySingleQubitGate_rotation "RZ" GATE_RZ f q p eq_refl eq_refl Hf).
    by rewrite Ht.
Qed.

Lemma put_bit_comm (k s1 s2 : Z) (b1 b2 : bool) :
  0 ≤ s1 → 0 ≤ s2 → s1 ≠ s2 →
  put_bit (put_bit k s1 b1) s2 b2 = put_bit (put_bit k s2 b2) s1 b1.
Proof.
  intros H1 H2 Hne. apply Z.bits_inj'. intros j Hj.
  rewrite !put_bit_spec by done. repeat case_bool_decide; congruence.
Qed.

(** Two gates, the product of whose matrices is [e], act as [e]. *)
Lemma two_gates_act (m1 m2 : Matrix) (e : bool → bool → value) (q : Z)
    (w : world) :
  well_formed w → in_range w q → finite_matrix m1 → finite_matrix m2 →
  (∀ r c, product (entry m2) (entry m1) r c = e r c) →
  let n := numQubits (this w) in
  ∃ w', (apply_matrix m1 q;; apply_matrix m2 q) w = (Normal tt, w') ∧
        numQubits (this w') = n ∧ console w' = console w ∧
        arr_length (stateVector (this w')) = arr_length (stateVector (this w)) ∧
        ∀ k, 0 ≤ k < size_of n →
             arr_get (stateVector (this w')) k
             = act e (shift n q) (stateVector (this w)) k.
Proof.
  intros Hwf Hq Hm1 Hm2 He n.
  destruct (apply_matrix_product m1 m2 q w Hwf Hq Hm1 Hm2)
    as (sv' & Hrun & (_ & Hl & _) & Hk).
  eexists. split; [exact Hrun|]. split; [done|]. split; [done|].
  destruct Hwf as (_ & Hlen & _). split; [cbn in *; congruence|].
  cbn. intros k Hk'. rewrite Hk by done. by apply act_ext.
Qed.

Ltac entries :=
  rewrite ?entry_2x2;
  cbn [Complex.fromNumber Complex.create lit obj re_of im_of Bool.eqb
       cos_half sin_half num_lift1 num_neg].

Ltac matrix_entries r c :=
  intros r c; unfold product; destruct r, c; entries; complex_eq.

Lemma finite_of_unitary (m : Matrix) : unitary m → finite_matrix m.
Proof. by intros [H _]. Qed.

(** Two gate sequences whose matrix products agree leave the same
    amplitudes. *)
Lemma two_gates_as_one (m1 m2 m3 : Matrix) (q : Z) (w : world) :
  well_formed w → in_range w q →
  finite_matrix m1 → finite_matrix m2 → finite_matrix m3 →
  (∀ r c, product (entry m2) (entry m1) r c = entry m3 r c) →
  ∃ w2 w3, (apply_matrix m1 q;; apply_matrix m2 q) w = (Normal tt, w2) ∧
           apply_matrix m3 q w = (Normal tt, w3) ∧
           ∀ k, 0 ≤ k < size_of (numQubits (this w)) →
                arr_get (stateVector (this w2)) k
                = arr_get (stateVector (this w3)) k.
Proof.
  intros Hwf Hq Hm1 Hm2 Hm3 He.
  destruct (two_gates_act m1 m2 _ q w Hwf Hq Hm1 Hm2 He)
    as (w2 & Hrun2 & _ & _ & _ & Hk2).
  destruct (apply_matrix_act m3 q w Hwf Hq Hm3) as (sv3 & Hrun3 & _ & Hk3).
  eexists _, _. split; [exact Hrun2|]. split; [exact Hrun3|].
  intros k Hk. rewrite Hk2 by done. cbn. by rewrite Hk3.
Qed.

Lemma half_sum (a b : R) : ((a + b) / 2 = a / 2 + b / 2)%R.
Proof. lra. Qed.

Lemma cos_sin_PI4 : (cos (PI / 4) * cos (PI / 4) = 1 / 2 ∧
                     sin (PI / 4) * sin (PI / 4) = 1 / 2 ∧
                     cos (PI / 4) * sin (PI / 4) = 1 / 2)%R.
Proof.
  rewrite cos_PI4, sin_PI4. pose proof inv_sqrt2_sq. lra.
Qed.

Lemma pauli_x_flips (q : Z) (p : option Params) (w : world) :
  well_formed w → in_range w q →
  ∃ w', applySingleQubitGate "X" q p w = (Normal tt, w') ∧
        numQubits (this w') = numQubits (this w) ∧
        console w' = console w ∧
        arr_length (stateVector (this w')) = arr_length (stateVector (this w)) ∧
        ∀ k, 0 ≤ k < size_of (numQubits (this w)) →
             arr_get (stateVector (this w')) k
             = arr_get (stateVector (this w))
                 (flip_bit (shift (numQubits (this w)) q) k).
Proof.
  intros Hwf Hq.
  rewrite (applySingleQubitGate_fixed "X" GATE_X _ q _ eq_refl ltac:(done) eq_refl).
  destruct (apply_matrix_act _ q w Hwf Hq (finite_of_unitary _ (unitary_X _ eq_refl)))
    as (sv' & Hrun & (_ & Hl' & _) & Hk').
  pose proof Hwf as (Hn & Hlen & Hamp). unfold in_range in Hq.
  pose proof (shift_in_range _ q Hq) as Hs.
  eexists. split; [exact Hrun|]. split; [done|]. split; [done|].
  split; [cbn in *; congruence|]. cbn. intros k Hk. rewrite Hk' by done.
  unfold flip_bit, act.
  destruct (Hamp (put_bit k (shift (numQubits (this w)) q) false)) as (x0 & y0 & H0);
    [apply put_bit_in_range; lia|].
  destruct (Hamp (put_bit k (shift (numQubits (this w)) q) true)) as (x1 & y1 & H1);
    [apply put_bit_in_range; lia|].
  rewrite H0, H1.
  destruct (Z.testbit k (shift (numQubits (this w)) q)); simpl negb;
    rewrite ?H0, ?H1; entries; complex_eq; lra.
Qed.

(** A diagonal matrix with entries of modulus 1 changes no probability. *)
Lemma act_diagonal (e : bool → bool → value) (s : Z) (sv : jsarray) (k : Z) :
  0 ≤ s →
  e false true = obj 0 0 → e true false = obj 0 0 →
  modulus2 (e false false) = 1%R → modulus2 (e true true) = 1%R →
  modulus2 (act e s sv k) = modulus2 (arr_get sv k).
Proof.
  intros Hs H01 H10 H00 H11. unfold act.
  destruct (Z.testbit k s) eqn:Hb.
  - assert (put_bit k s true = k) as -> by (rewrite <- Hb; by apply put_bit_same).
    rewrite H10. unfold modulus2 in *. unfold cadd, cmul. cbn [re_of im_of obj]. nra.
  - assert (put_bit k s false = k) as -> by (rewrite <- Hb; by apply put_bit_same).
    rewrite H01. unfold modulus2 in *. unfold cadd, cmul. cbn [re_of im_of obj]. nra.
Qed.

Lemma swap_bits_comm (s1 s2 i : Z) :
  0 ≤ s1 → 0 ≤ s2 → swap_bits s1 s2 i = swap_bits s2 s1 i.
Proof.
  intros H1 H2. apply Z.bits_inj'. intros j Hj.
  rewrite !swap_bits_spec by done. repeat case_bool_decide; congruence.
Qed.

(** * The order in which [simulateCircuit] applies the gates *)

Lemma insert_gate_Permutation (g : GateOp) (l : list GateOp) :
  insert_gate g l ≡ₚ g :: l.
Proof.
  induction l as [|h t IH]; [done|]. cbn [insert_gate].
  case_decide; [done|]. rewrite IH. apply Permutation_swap.
Qed.

Lemma insert_gates_Permutation (l acc : list GateOp) :
  foldl (λ sorted g, insert_gate g sorted) acc l ≡ₚ acc ++ l.
Proof.
  revert acc. induction l as [|g l IH]; intros acc; cbn [foldl].
  - by rewrite app_nil_r.
  - rewrite IH, insert_gate_Permutation. simpl. apply Permutation_middle.
Qed.

Lemma sort_gates_Permutation (l : list GateOp) : sort_gates l ≡ₚ l.
Proof. unfold sort_gates. by rewrite insert_gates_Permutation. Qed.

Lemma insert_gate_sorted (g : GateOp) (l : list GateOp) :
  StronglySorted by_position l → StronglySorted by_position (insert_gate g l).
Proof.
  induction 1 as [|h t Ht IH Hh]; cbn [insert_gate].
  - repeat constructor.
  - case_decide as Hlt.
    + constructor; [by constructor|]. constructor; [unfold by_position; lia|].
      eapply Forall_impl; [exact Hh|]. unfold by_position. intros; lia.
    + constructor; [done|]. rewrite insert_gate_Permutation.
      constructor; [unfold by_position; lia|done].
Qed.

Lemma insert_gates_sorted (l acc : list GateOp) :
  StronglySorted by_position acc →
  StronglySorted by_position (foldl (λ sorted g, insert_gate g sorted) acc l).
Proof.
  revert acc. induction l as [|g l IH]; intros acc Hacc; cbn [foldl]; [done|].
  by apply IH, insert_gate_sorted.
Qed.

Lemma sort_gates_sorted (l : list GateOp) :
  StronglySorted by_position (sort_gates l).
Proof. apply insert_gates_sorted. constructor. Qed.

Lemma NoDup_fmap_eq {A B} (f : A → B) (l : list A) (x y : A) :
  NoDup (f <$> l) → x ∈ l → y ∈ l → f x = f y → x = y.
Proof.
  induction l as [|a l IH]; intros Hnd Hx Hy Hf; [by apply elem_of_nil in Hx|].
  rewrite fmap_cons in Hnd. apply NoDup_cons in Hnd as [Ha Hnd].
  apply elem_of_cons in Hx as [->|Hx], Hy as [->|Hy]; [done| | |by apply IH].
  - destruct Ha. rewrite Hf. by apply list_elem_of_fmap_2.
  - destruct Ha. rewrite <- Hf. by apply list_elem_of_fmap_2.
Qed.

Lemma sort_gates_unique (l l' : list GateOp) :
  NoDup (position <$> l) → l' ≡ₚ l → sort_gates l' = sort_gates l.
Proof.
  intros Hnd Hperm.
  apply (StronglySorted_unique_strong by_position);
    [|apply sort_gates_sorted..|by rewrite !sort_gates_Permutation].
  intros g h Hg Hh Hgh Hhg. unfold by_position in *.
  rewrite sort_gates_Permutation in Hg, Hh. rewrite Hperm in Hg.
  apply (NoDup_fmap_eq position l); [done..|lia].
Qed.

Lemma insert_gate_first (g : GateOp) (l : list GateOp) :
  Forall (λ h, position g < position h) l → insert_gate g l = g :: l.
Proof.
  destruct 1 as [|h t Hh _]; [done|]. cbn [insert_gate]. by rewrite decide_True.
Qed.

Lemma filter_insert_gate (P : GateOp → Prop) `{∀ g, Decision (P g)}
    (g : GateOp) (l : list GateOp) :
  StronglySorted by_position l →
  filter P (insert_gate g l)
  = if decide (P g) then insert_gate g (filter P l) else filter P l.
Proof.
  induction 1 as [|h t Ht IH Hh]; cbn [insert_gate].
  - rewrite filter_cons, filter_nil. by destruct (decide (P g)).
  - destruct (decide (position g < position h)) as [Hlt|Hge].
    + rewrite filter_cons. destruct (decide (P g)) as [Hg|Hg]; [|done].
      symmetry. apply insert_gate_first.
      apply Forall_forall. intros h' [_ Hin]%list_elem_of_filter.
      apply elem_of_cons in Hin as [->|Hin]; [done|].
      rewrite Forall_forall in Hh. specialize (Hh _ Hin).
      unfold by_position in Hh. lia.
    + rewrite !(filter_cons _ h). rewrite IH.
      destruct (decide (P h)), (decide (P g)); try done.
      cbn [insert_gate]. by rewrite decide_False.
Qed.

Lemma filter_insert_gates (P : GateOp → Prop) `{∀ g, Decision (P g)}
    (l acc : list GateOp) :
  StronglySorted by_position acc →
  filter P (foldl (λ sorted g, insert_gate g sorted) acc l)
  = foldl (λ sorted g, insert_gate g sorted) (filter P acc) (filter P l).
Proof.
  revert acc. induction l as [|g l IH]; intros acc Hacc; cbn [foldl]; [done|].
  rewrite IH by (by apply insert_gate_sorted).
  rewrite filter_insert_gate by done. rewrite filter_cons.
  by destruct (decide (P g)).
Qed.

Lemma filter_sort_gates (P : GateOp → Prop) `{∀ g, Decision (P g)}
    (l : list GateOp) :
  filter P (sort_gates l) = sort_gates (filter P l).
Proof. unfold sort_gates. rewrite filter_insert_gates; [done|constructor]. Qed.

Lemma applyGates_without_markers (l : list GateOp) (w : world) :
  applyGates (filter (λ g, gate g ≠ "M"%string) l) w = applyGates l w.
Proof.
  revert w. induction l as [|g l IH]; intros w; [done|].
  rewrite filter_cons. destruct (decide (gate g ≠ "M"%string)) as [Hg|Hg].
  - cbn [applyGates]. unfold mbind, M_bind.
    destruct (applyGate g w) as [[[]|e] w']; [apply IH|done].
  - apply dec_stable in Hg. cbn [applyGates]. unfold mbind, M_bind.
    destruct g as [kind q t p pos]. cbn in Hg. subst kind.
    change (applyGate (mkGateOp "M" q t p pos) w) with (Normal tt, w).
    apply IH.
Qed.

Lemma simulateCircuit_sorted (gates gates' : list GateOp) (w : world) :
  (∀ w', applyGates (sort_gates gates') w' = applyGates (sort_gates gates) w') →
  simulateCircuit gates' w = simulateCircuit gates w.
Proof.
  intros H. unfold simulateCircuit. cbv zeta. unfold mbind, M_bind.
  destruct (reset w) as [[[]|e] w0]; [|done]. by rewrite H.
Qed.

Lemma getStateVector_spec (w : world) :
  well_formed w →
  ∃ sv, getStateVector w = (Normal sv, w) ∧
        arr_length sv = size_of (numQubits (this w)) ∧
        ∀ k, 0 ≤ k < size_of (numQubits (this w)) →
             arr_get sv k = arr_get (stateVector (this w)) k.
Proof.
  intros Hwf. destruct (copy_state w Hwf) as (copy & Hcopy & Hl & Hk & _).
  exists copy. split; [|done].
  unfold getStateVector. monad_unfold. by rewrite Hcopy.
Qed.

(** * No method reads the console *)

Lemma blind_ret {A} (a : A) : console_blind (mret a).
Proof. intros s. exists (Normal a), s, []. intros c. by rewrite app_nil_r. Qed.

Lemma blind_lift {A} (x : completion A) : console_blind (lift x).
Proof. intros s. exists x, s, []. intros c. by rewrite app_nil_r. Qed.

Lemma blind_bind {A B} (m : M A) (f : A → M B) :
  console_blind m → (∀ a, console_blind (f a)) → console_blind (m ≫= f).
Proof.
  intros Hm Hf s. destruct (Hm s) as (r & s' & l & Hr).
  destruct r as [a|e].
  - destruct (Hf a s') as (r2 & s2 & l2 & Hr2).
    exists r2, s2, (l ++ l2). intros c. unfold mbind, M_bind.
    rewrite Hr, Hr2. by rewrite app_assoc.
  - exists (Throw e), s', l. intros c. unfold mbind, M_bind. by rewrite Hr.
Qed.

Lemma blind_get_numQubits : console_blind get_numQubits.
Proof.
  intros s. eexists _, s, []. intros c. unfold get_numQubits. cbn.
  by rewrite app_nil_r.
Qed.

Lemma blind_get_stateVector : console_blind get_stateVector.
Proof.
  intros s. eexists _, s, []. intros c. unfold get_stateVector. cbn.
  by rewrite app_nil_r.
Qed.

Lemma blind_set_stateVector (a : jsarray) : console_blind (set_stateVector a).
Proof.
  intros s. eexists _, _, []. intros c. unfold set_stateVector. cbn.
  by rewrite app_nil_r.
Qed.

Lemma blind_set_amplitude (k : Z) (v : value) : console_blind (set_amplitude k v).
Proof.
  intros s. eexists _, _, []. intros c. unfold set_amplitude. cbn.
  by rewrite app_nil_r.
Qed.

Lemma blind_console_log (l : level) (msg : string) :
  console_blind (console_log l msg).
Proof. intros s. by eexists _, s, [(l, msg)]. Qed.

Lemma blind_for_each {A} (ks : list Z) (body : Z → A → M A) (acc : A) :
  (∀ k a, console_blind (body k a)) → console_blind (for_each ks body acc).
Proof.
  intros Hbody. revert acc. induction ks as [|k ks IH]; intros acc.
  - apply blind_ret.
  - cbn [for_each]. apply blind_bind; [apply Hbody|apply IH].
Qed.

Ltac blind :=
  repeat first
    [ apply blind_ret | apply blind_lift | apply blind_get_numQubits
    | apply blind_get_stateVector | apply blind_set_stateVector
    | apply blind_set_amplitude | apply blind_console_log
    | apply blind_for_each; intros ? ?
    | apply blind_bind; [|intros ?]
    | case_decide | case_match ].

Lemma blind_applyGate (g : GateOp) : console_blind (applyGate g).
Proof.
  destruct g as [kind q t p pos]. unfold applyGate.
  unfold applySingleQubitGate, applyCNOT, applyCZ, applySWAP.
  blind.
Qed.

Lemma blind_applyGates (l : list GateOp) : console_blind (applyGates l).
Proof.
  induction l as [|g l IH]; [apply blind_ret|].
  cbn [applyGates]. apply blind_bind; [apply blind_applyGate|by intros _].
Qed.

Lemma blind_reset : console_blind reset.
Proof. unfold reset. blind. Qed.

Lemma blind_getStateVector : console_blind getStateVector.
Proof. unfold getStateVector. blind. Qed.

Lemma blind_getProbabilities : console_blind getProbabilities.
Proof. unfold getProbabilities. blind. Qed.

Lemma blind_same_outcome {A} (m : M A) (w w' : world) :
  console_blind m → this w = this w' → same_outcome (m w) (m w').
Proof.
  intros Hm Hw. destruct w as [s c], w' as [s' c']. cbn in Hw. subst s'.
  destruct (Hm s) as (r & s1 & l & Hr). rewrite !Hr. done.
Qed.

Lemma applyGate_unknown (g : GateOp) (w : world) :
  gate g ∉ supported_kinds →
  applyGate g w
  = (Normal tt,
     mkWorld (this w) (console w ++ [(LogWarn, "Unknown gate: " +:+ gate g)])).
Proof.
  destruct g as [kind q t p pos]. cbn [gate]. intros Hk.
  unfold supported_kinds, GATES_own in Hk. simpl in Hk.
  repeat (apply not_elem_of_cons in Hk as [? Hk]).
  unfold applyGate.
  rewrite decide_False
    by (unfold single_kinds; rewrite !elem_of_cons, elem_of_nil; tauto).
  rewrite decide_False
    by (unfold rotation_kinds; rewrite !elem_of_cons, elem_of_nil; tauto).
  rewrite !decide_False by done. done.
Qed.

Lemma applyGates_known (l : list GateOp) (w w' : world) :
  this w = this w' →
  same_outcome (applyGates l w)
               (applyGates (filter (λ g, gate g ∈ supported_kinds) l) w').
Proof.
  revert w w'. induction l as [|g l IH]; intros w w' Hw; [done|].
  rewrite filter_cons. destruct (decide (gate g ∈ supported_kinds)) as [Hg|Hg].
  - cbn [applyGates]. unfold mbind, M_bind.
    destruct (blind_same_outcome (applyGate g) w w' (blind_applyGate g) Hw)
      as [Hr Ht].
    destruct (applyGate g w) as [[[]|e] w1], (applyGate g w') as [[[]|e'] w1'];
      cbn in Hr, Ht; try done.
    by apply IH.
  - cbn [applyGates]. unfold mbind, M_bind.
    rewrite applyGate_unknown by done. by apply IH.
Qed.

(** * The limit on the number of qubits *)

Lemma reset_too_large (w : world) :
  (32 ≤ numQubits (this w))%nat → reset w = (Throw RangeError, w).
Proof.
  intros Hn. unfold reset, mbind, M_bind, get_numQubits, lift, arr_make.
  rewrite decide_False; [done|].
  pose proof (pow2_le_mono 32 (Z.of_nat (numQubits (this w))) ltac:(lia)).
  unfold size_of. lia.
Qed.

Lemma reset_forgets (n : nat) (sv sv' : jsarray) (c : list (level * string)) :
  (n ≤ 31)%nat →
  reset (mkWorld (mkSimulator n sv) c) = reset (mkWorld (mkSimulator n sv') c).
Proof.
  intros Hn. unfold reset. monad_unfold. cbn.
  pose proof (size_of_bounds n Hn).
  by destruct (arr_make_ok (size_of n) zero) as (a & -> & _); [lia|].
Qed.

(** * The outcome of [measure] *)

Lemma cumulative_mass_snoc (ps : jsarray) (i : Z) :
  0 ≤ i →
  cumulative_mass ps i
  = (Rsum ((λ k, real_of (arr_get ps k)) <$> indices i) + real_of (arr_get ps i))%R.
Proof. intros Hi. unfold cumulative_mass. by rewrite Rsum_snoc. Qed.

Lemma cumulative_mass_step (ps : jsarray) (i : Z) :
  0 < i →
  cumulative_mass ps i
  = (cumulative_mass ps (i - 1) + real_of (arr_get ps i))%R.
Proof.
  intros Hi. rewrite cumulative_mass_snoc by lia. unfold cumulative_mass.
  by replace (i - 1 + 1) with i by lia.
Qed.

Lemma cumulative_mass_0 (ps : jsarray) :
  cumulative_mass ps 0 = real_of (arr_get ps 0).
Proof.
  unfold cumulative_mass. change (indices (0 + 1)) with [0].
  unfold Rsum. simpl. lra.
Qed.

(** Either the cumulative sums reach [rand] at a first index below [m], or
    they all stay below it. *)
Lemma first_reach (F : Z → R) (rand : R) (m : nat) :
  (∃ i, 0 ≤ i < Z.of_nat m ∧ (rand <= F i)%R ∧
        ∀ j, 0 ≤ j < i → (F j < rand)%R) ∨
  (∀ j, 0 ≤ j < Z.of_nat m → (F j < rand)%R).
Proof.
  induction m as [|m [(i & Hi & Hhit & Hmiss)|Hmiss]].
  - right. intros j Hj. lia.
  - left. exists i. split; [lia|done].
  - destruct (Rle_dec rand (F (Z.of_nat m))) as [Hle|Hgt].
    + left. exists (Z.of_nat m). split; [lia|done].
    + right. intros j Hj. destruct (decide (j = Z.of_nat m)) as [->|]; [lra|].
      apply Hmiss. lia.
Qed.

Lemma measure_positive (rand : R) (w : world) (ps : jsarray) :
  well_formed w → getProbabilities w = (Normal ps, w) →
  (0 < rand <= total ps)%R →
  ∃ i p, 0 ≤ i < size_of (numQubits (this w)) ∧
         arr_get ps i = VNumber (Fin p) ∧ (0 < p)%R ∧
         measure rand w
         = (Normal (padStart0 (toString2 i) (numQubits (this w))), w).
Proof.
  intros Hwf Hps [Hpos Htot].
  destruct (getProbabilities_spec w Hwf) as (ps' & Hps' & Hl & Hk & _).
  assert (ps' = ps) as -> by congruence.
  pose proof Hwf as (Hn & _). pose proof (size_of_bounds _ Hn) as Hsize.
  set (n := numQubits (this w)) in *.
  destruct (first_reach (cumulative_mass ps) rand (Z.to_nat (size_of n)))
    as [(i & Hi & Hhit & Hmiss)|Hmiss].
  - rewrite Z2Nat.id in Hi by lia.
    exists i, (modulus2 (arr_get (stateVector (this w)) i)).
    split; [done|]. split; [by apply Hk|]. split.
    + destruct (decide (i = 0)) as [->|Hne].
      * rewrite cumulative_mass_0, Hk in Hhit by done. cbn [real_of] in Hhit. lra.
      * pose proof (Hmiss (i - 1) ltac:(lia)) as Hprev.
        rewrite cumulative_mass_step, Hk in Hhit by (done || lia).
        cbn [real_of] in Hhit. lra.
    + by apply (measure_hit rand w ps).
  - exfalso. rewrite Z2Nat.id in Hmiss by lia.
    pose proof (Hmiss (size_of n - 1) ltac:(lia)) as Hlast.
    unfold cumulative_mass in Hlast. unfold total in Htot.
    rewrite Hl in Htot. replace (size_of n - 1 + 1) with (size_of n) in Hlast by lia.
    lra.
Qed.

Lemma binary_digits_app (s1 s2 : string) :
  binary_digits (s1 +:+ s2) = binary_digits s1 && binary_digits s2.
Proof.
  induction s1 as [|c s1 IH]; simpl; [done|].
  rewrite IH. by rewrite andb_assoc.
Qed.

Lemma binary_digits_repeat0 (n : nat) : binary_digits (repeat0 n) = true.
Proof.
  induction n as [|n IH]; [done|].
  change (repeat0 (S n)) with ("0" +:+ repeat0 n).
  by rewrite binary_digits_app, IH.
Qed.

Lemma binary_digits_pos (p : positive) : binary_digits (pos_toString2 p) = true.
Proof.
  induction p as [p IH|p IH|]; simpl; [| |done];
    by rewrite binary_digits_app, IH.
Qed.

Lemma binary_digits_pad (i : Z) (n : nat) :
  0 ≤ i → binary_digits (padStart0 (toString2 i) n) = true.
Proof.
  intros Hi. unfold padStart0.
  rewrite binary_digits_app, binary_digits_repeat0.
  destruct i as [|p|p]; [done|apply binary_digits_pos|lia].
Qed.

Lemma measure_loop_string (ps : jsarray) (rand : R) (n : nat) (ks : list Z)
    (c : num) :
  (1 ≤ n)%nat → Forall (λ k, 0 ≤ k < size_of n) ks →
  String.length (measure_loop ps rand n ks c) = n ∧
  binary_digits (measure_loop ps rand n ks c) = true.
Proof.
  intros Hn Hks. revert c. induction Hks as [|k ks Hk _ IH]; intros c.
  - cbn [measure_loop]. by rewrite length_repeat0, binary_digits_repeat0.
  - cbn [measure_loop]. destruct (num_le _ _); [|apply IH].
    split; [by apply binary_string_width|apply binary_digits_pad; lia].
Qed.

(** * The complex-number utilities *)

Lemma magnitude_finite (v : value) :
  finite_complex v →
  Complex.magnitude v = Normal (Fin (sqrt (modulus2 (Complex.fromNumber v)))).
Proof.
  intros (x & y & Hv). unfold Complex.magnitude. rewrite Hv.
  destruct (sqrt_modulus2 (obj x y)) as [Hs _].
  cbn -[Math_sqrt]. change (x * x + y * y)%R with (modulus2 (obj x y)).
  by rewrite Hs.
Qed.

(** * The reduced density matrix computed by [getQubitState] *)

Lemma js_clear_bit (i s : Z) :
  0 ≤ i < 2 ^ 31 → 0 ≤ s ≤ 30 →
  js_and i (js_not (js_shl 1 s)) = put_bit i s false.
Proof.
  intros Hi Hs.
  change 1 with (Z.b2z true) at 1. rewrite (js_shl_bit true s) by done.
  simpl Z.b2z.
  assert (0 < 2 ^ s ≤ 2 ^ 30) as Hp.
  { split; [apply pow2_pos; lia|apply pow2_le_mono; lia]. }
  change (2 ^ 30) with 1073741824 in Hp.
  unfold js_and, js_not. rewrite Z.shiftl_1_l.
  rewrite (ToInt32_small (2 ^ s)) by lia.
  rewrite (ToInt32_small i) by lia.
  rewrite (ToInt32_small (Z.lnot (2 ^ s))) by (unfold Z.lnot; lia).
  rewrite <- Z.ldiff_land.
  unfold put_bit, Z.clearbit. simpl Z.b2z.
  by rewrite Z.shiftl_0_l, Z.lor_0_r, Z.shiftl_1_l.
Qed.

Lemma Rsum_indices_0 (f : Z → R) : Rsum (f <$> indices 0) = 0%R.
Proof. reflexivity. Qed.

Lemma conjugate_amplitude (v : value) :
  is_amplitude v → Complex.conjugate v = Normal (conj_of v).
Proof. by intros (x & y & ->). Qed.

Lemma is_amplitude_conj (v : value) : is_amplitude (conj_of v).
Proof. apply is_amplitude_obj. Qed.

Lemma getQubitState_sums (q : Z) (w : world) :
  well_formed w → in_range w q →
  let n := numQubits (this w) in
  let s := shift n q in
  let sv := stateVector (this w) in
  let sum_re bi bj := Rsum (row_re sv s bi bj (size_of n) <$> indices (size_of n)) in
  let sum_im bi bj := Rsum (row_im sv s bi bj (size_of n) <$> indices (size_of n)) in
  ∃ r, getQubitState q w = (Normal r, w) ∧
       qs_rho00 r = obj (sum_re false false) (sum_im false false) ∧
       qs_rho11 r = obj (sum_re true true) (sum_im true true) ∧
       qs_rho01 r = obj (sum_re false true) (sum_im false true) ∧
       qs_x r = Fin (2 * sum_re false true) ∧
       qs_y r = Fin (2 * sum_im false true) ∧
       qs_z r = Fin (sum_re false false - sum_re true true) ∧
       qs_purity r
       = Fin (sum_re false false * sum_re false false
              + sum_re true true * sum_re true true
              + 2 * (sum_re false true * sum_re false true
                     + sum_im false true * sum_im false true)).
Proof.
  intros (Hn & Hlen & Hamp) Hq n s sv sum_re sum_im. fold n in Hn, Hlen, Hamp.
  unfold in_range in Hq. fold n in Hq.
  pose proof (size_of_bounds n Hn) as Hsz.
  pose proof (shift_in_range n q Hq) as Hs. fold s in Hs.
  unfold getQubitState. monad_unfold. fold n s sv.
  loop_invariant (λ (m : Z) rhos (w' : world), w' = w ∧
      ∀ bi bj, sel bi bj rhos
               = obj (Rsum (row_re sv s bi bj (size_of n) <$> indices m))
                     (Rsum (row_im sv s bi bj (size_of n) <$> indices m)))
    rhos w' Hrun Hinv.
  - lia.
  - split; [done|]. by intros [] [].
  - intros i rhos0 w0 Hi (-> & Hsel0). cbv beta.
    loop_invariant (λ (m : Z) rhos (w' : world), w' = w ∧
        ∀ bi bj, sel bi bj rhos
                 = obj (re_of (sel bi bj rhos0)
                        + Rsum ((λ j, re_of (pair_term sv s bi bj i j)) <$> indices m))
                       (im_of (sel bi bj rhos0)
                        + Rsum ((λ j, im_of (pair_term sv s bi bj i j)) <$> indices m)))
      rhos' w' Hrun Hinv.
    + lia.
    + split; [done|]. intros bi bj. rewrite Hsel0. cbn [re_of im_of obj].
      rewrite !Rsum_indices_0. apply obj_eq; lra.
    + intros j [[[r00 r01] r10] r11] w0 Hj (-> & Hsel). cbv beta zeta.
      rewrite !js_clear_bit, !js_bit by lia.
      assert (∀ (bi bj : bool) (v : value) (t : value),
                v = obj (re_of (sel bi bj rhos0)
                         + Rsum ((λ j, re_of (pair_term sv s bi bj i j)) <$> indices j))
                        (im_of (sel bi bj rhos0)
                         + Rsum ((λ j, im_of (pair_term sv s bi bj i j)) <$> indices j)) →
                pair_term sv s bi bj i j = t →
                cadd v t
                = obj (re_of (sel bi bj rhos0)
                       + Rsum ((λ j, re_of (pair_term sv s bi bj i j))
                                 <$> indices (j + 1)))
                      (im_of (sel bi bj rhos0)
                       + Rsum ((λ j, im_of (pair_term sv s bi bj i j))
                                 <$> indices (j + 1)))) as Hadd.
      { intros bi bj v t -> <-. rewrite !Rsum_snoc by lia.
        unfold cadd. cbn [re_of im_of obj]. apply obj_eq; lra. }
      assert (∀ (bi bj : bool) (v : value),
                v = obj (re_of (sel bi bj rhos0)
                         + Rsum ((λ j, re_of (pair_term sv s bi bj i j)) <$> indices j))
                        (im_of (sel bi bj rhos0)
                         + Rsum ((λ j, im_of (pair_term sv s bi bj i j)) <$> indices j)) →
                pair_term sv s bi bj i j = obj 0 0 →
                v
                = obj (re_of (sel bi bj rhos0)
                       + Rsum ((λ j, re_of (pair_term sv s bi bj i j))
                                 <$> indices (j + 1)))
                      (im_of (sel bi bj rhos0)
                       + Rsum ((λ j, im_of (pair_term sv s bi bj i j))
                                 <$> indices (j + 1)))) as Hkeep.
      { intros bi bj v -> Ht. rewrite !Rsum_snoc by lia. rewrite Ht.
        cbn [re_of im_of obj]. apply obj_eq; lra. }
      case_decide as Hother.
      2:{ eexists _, w. split; [done|]. split; [done|]. intros bi bj.
          apply Hkeep; [apply Hsel|]. unfold pair_term.
          by rewrite decide_False. }
      rewrite conjugate_amplitude by (by apply Hamp).
      rewrite multiply_amplitudes by (by apply Hamp || apply is_amplitude_conj).
      assert (∀ bi bj, is_amplitude (sel bi bj (r00, r01, r10, r11))) as Hobj
        by (intros bi bj; rewrite Hsel; apply is_amplitude_obj).
      pose proof (Hobj false false) as H00. pose proof (Hobj false true) as H01.
      pose proof (Hobj true false) as H10. pose proof (Hobj true true) as H11.
      cbn [sel] in H00, H01, H10, H11.
      destruct (Z.testbit i s) eqn:Hbi, (Z.testbit j s) eqn:Hbj; cbn [Z.b2z];
        change (bool_decide (1 = 0)) with false;
        change (bool_decide (1 = 1)) with true;
        change (bool_decide (0 = 0)) with true;
        change (bool_decide (0 = 1)) with false;
        cbn [andb]; rewrite add_amplitudes by (done || apply is_amplitude_cmul);
        (eexists _, w; split; [reflexivity|]; split; [done|]; intros [] [];
         cbn [sel];
         match goal with
         | |- _ = obj (re_of (sel ?bi ?bj _) + _) _ =>
             first [ apply (Hadd bi bj _ _ (Hsel bi bj)); unfold pair_term;
                     rewrite decide_True by done; rewrite Hbi, Hbj; done
                   | apply (Hkeep bi bj _ (Hsel bi bj)); unfold pair_term;
                     rewrite decide_True by done; rewrite Hbi, Hbj; done ]
         end).
    + destruct Hinv as (-> & Hsel'). eexists _, w. split; [exact Hrun|].
      split; [done|]. intros bi bj. rewrite Hsel', Hsel0.
      cbn [re_of im_of obj]. rewrite !Rsum_snoc by lia. done.
  - destruct Hinv as (-> & Hsel). rewrite Hrun.
    destruct rhos as [[[r00 r01] r10] r11].
    pose proof (Hsel false false) as H00. pose proof (Hsel false true) as H01.
    pose proof (Hsel true true) as H11. cbn [sel] in H00, H01, H11.
    rewrite H00, H01, H11. cbn. eexists. split; [reflexivity|]. cbn.
    repeat split.
Qed.

Lemma Rsum_single (f : Z → R) (l : list Z) (p : Z) :
  NoDup l → p ∈ l → (∀ k, k ∈ l → k ≠ p → f k = 0%R) →
  Rsum (f <$> l) = f p.
Proof.
  intros Hnd Hp Hz.
  rewrite (Rsum_update (λ _, 0%R) f l p) by done.
  rewrite (Rsum_zero (λ _ : Z, 0%R)) by done. lra.
Qed.

Lemma row_single (sv : jsarray) (n : nat) (s : Z) (bi bj : bool) (i : Z) :
  0 ≤ s < Z.of_nat n → 0 ≤ i < size_of n →
  row_re sv s bi bj (size_of n) i
  = re_of (pair_term sv s bi bj i (put_bit i s bj)) ∧
  row_im sv s bi bj (size_of n) i
  = im_of (pair_term sv s bi bj i (put_bit i s bj)).
Proof.
  intros Hs Hi.
  assert (∀ j, j ≠ put_bit i s bj → pair_term sv s bi bj i j = obj 0 0) as Hz.
  { intros j Hj. unfold pair_term. case_decide as E; [|done].
    apply put_bit_cases in E; [|lia].
    destruct (decide (Z.testbit j s = bj)) as [<-|Hne]; [done|].
    by rewrite (bool_decide_eq_false_2 (Z.testbit j s = bj)), andb_false_r. }
  assert (put_bit i s bj ∈ indices (size_of n)) as Hin
    by (apply elem_of_indices, put_bit_in_range; lia).
  split.
  - unfold row_re.
    apply (Rsum_single (λ j, re_of (pair_term sv s bi bj i j)));
      [apply NoDup_indices|done|].
    intros k _ Hk. by rewrite Hz.
  - unfold row_im.
    apply (Rsum_single (λ j, im_of (pair_term sv s bi bj i j)));
      [apply NoDup_indices|done|].
    intros k _ Hk. by rewrite Hz.
Qed.

Lemma pair_term_partner (sv : jsarray) (s : Z) (bi bj : bool) (i : Z) :
  0 ≤ s →
  pair_term sv s bi bj i (put_bit i s bj)
  = if bool_decide (Z.testbit i s = bi)
    then cmul (arr_get sv i) (conj_of (arr_get sv (put_bit i s bj)))
    else obj 0 0.
Proof.
  intros Hs. unfold pair_term.
  rewrite decide_True by (by rewrite put_bit_put_bit).
  rewrite put_bit_testbit by done.
  rewrite (bool_decide_eq_true_2 (bj = bj)) by done. by rewrite andb_true_r.
Qed.

Lemma density_sums (sv : jsarray) (n : nat) (s : Z) :
  0 ≤ s < Z.of_nat n →
  Rsum (row_re sv s false false (size_of n) <$> indices (size_of n))
  = marginal sv n s false ∧
  Rsum (row_im sv s false false (size_of n) <$> indices (size_of n)) = 0%R ∧
  Rsum (row_re sv s true true (size_of n) <$> indices (size_of n))
  = marginal sv n s true ∧
  Rsum (row_im sv s true true (size_of n) <$> indices (size_of n)) = 0%R ∧
  Rsum (row_re sv s false true (size_of n) <$> indices (size_of n))
  = coherence_re sv n s ∧
  Rsum (row_im sv s false true (size_of n) <$> indices (size_of n))
  = coherence_im sv n s.
Proof.
  intros Hs.
  assert (∀ (bi bj : bool) (g : Z → R),
    (∀ i, 0 ≤ i < size_of n →
          re_of (if bool_decide (Z.testbit i s = bi)
                 then cmul (arr_get sv i) (conj_of (arr_get sv (put_bit i s bj)))
                 else obj 0 0) = g i) →
    Rsum (row_re sv s bi bj (size_of n) <$> indices (size_of n))
    = Rsum (g <$> indices (size_of n))) as Hre.
  { intros bi bj g Hg. apply Rsum_ext. intros i Hi%elem_of_indices.
    destruct (row_single sv n s bi bj i Hs Hi) as [-> _].
    rewrite pair_term_partner by lia. by apply Hg. }
  assert (∀ (bi bj : bool) (g : Z → R),
    (∀ i, 0 ≤ i < size_of n →
          im_of (if bool_decide (Z.testbit i s = bi)
                 then cmul (arr_get sv i) (conj_of (arr_get sv (put_bit i s bj)))
                 else obj 0 0) = g i) →
    Rsum (row_im sv s bi bj (size_of n) <$> indices (size_of n))
    = Rsum (g <$> indices (size_of n))) as Him.
  { intros bi bj g Hg. apply Rsum_ext. intros i Hi%elem_of_indices.
    destruct (row_single sv n s bi bj i Hs Hi) as [_ ->].
    rewrite pair_term_partner by lia. by apply Hg. }
  assert (∀ i b, Z.testbit i s = b → put_bit i s b = i) as Hsame
    by (intros i b <-; apply put_bit_same; lia).
  repeat split.
  - apply Hre. intros i Hi. case_bool_decide as Hb; [|done].
    rewrite Hsame by done. unfold modulus2, cmul, conj_of.
    cbn [re_of im_of obj]. ring.
  - rewrite (Him false false (λ _, 0%R)); [by apply Rsum_zero|].
    intros i Hi. case_bool_decide as Hb; [|done].
    rewrite Hsame by done. unfold cmul, conj_of. cbn [re_of im_of obj]. ring.
  - apply Hre. intros i Hi. case_bool_decide as Hb; [|done].
    rewrite Hsame by done. unfold modulus2, cmul, conj_of.
    cbn [re_of im_of obj]. ring.
  - rewrite (Him true true (λ _, 0%R)); [by apply Rsum_zero|].
    intros i Hi. case_bool_decide as Hb; [|done].
    rewrite Hsame by done. unfold cmul, conj_of. cbn [re_of im_of obj]. ring.
  - apply Hre. intros i Hi. unfold flip_bit.
    destruct (Z.testbit i s) eqn:Hb.
    + by rewrite bool_decide_eq_false_2.
    + rewrite bool_decide_eq_true_2 by done. simpl negb.
      unfold cmul, conj_of. cbn [re_of im_of obj]. ring.
  - apply Him. intros i Hi. unfold flip_bit.
    destruct (Z.testbit i s) eqn:Hb.
    + by rewrite bool_decide_eq_false_2.
    + rewrite bool_decide_eq_true_2 by done. simpl negb.
      unfold cmul, conj_of. cbn [re_of im_of obj]. ring.
Qed.

Lemma marginals_total (sv : jsarray) (n : nat) (s : Z) :
  (marginal sv n s false + marginal sv n s true
   = Rsum ((λ k, modulus2 (arr_get sv k)) <$> indices (size_of n)))%R.
Proof.
  unfold marginal. rewrite <- Rsum_plus. apply Rsum_ext. intros k _.
  destruct (Z.testbit k s); repeat case_bool_decide; try done; lra.
Qed.

Lemma getQubitState_spec (q : Z) (w : world) :
  well_formed w → in_range w q →
  let n := numQubits (this w) in
  let s := shift n q in
  let sv := stateVector (this w) in
  ∃ r, getQubitState q w = (Normal r, w) ∧
       qs_rho00 r = obj (marginal sv n s false) 0 ∧
       qs_rho11 r = obj (marginal sv n s true) 0 ∧
       qs_rho01 r = obj (coherence_re sv n s) (coherence_im sv n s) ∧
       qs_x r = Fin (2 * coherence_re sv n s) ∧
       qs_y r = Fin (2 * coherence_im sv n s) ∧
       qs_z r = Fin (marginal sv n s false - marginal sv n s true) ∧
       qs_purity r
       = Fin (marginal sv n s false * marginal sv n s false
              + marginal sv n s true * marginal sv n s true
              + 2 * (coherence_re sv n s * coherence_re sv n s
                     + coherence_im sv n s * coherence_im sv n s)).
Proof.
  intros Hwf Hq n s sv.
  destruct (getQubitState_sums q w Hwf Hq)
    as (r & Hrun & H00 & H11 & H01 & Hx & Hy & Hz & Hp).
  fold n s sv in H00, H11, H01, Hx, Hy, Hz, Hp.
  unfold in_range in Hq. pose proof (shift_in_range n q Hq) as Hs. fold s in Hs.
  destruct (density_sums sv n s Hs) as (E1 & E2 & E3 & E4 & E5 & E6).
  rewrite E1, E2, E3, E4, E5, E6 in *.
  exists r. done.
Qed.

(** * The Bloch vector stays in the unit ball *)

Lemma Rsum_cons {A} (f : A → R) (a : A) (l : list A) :
  Rsum (f <$> a :: l) = (f a + Rsum (f <$> l))%R.
Proof. reflexivity. Qed.

Section cauchy_schwarz.
Variables (ur ui vr vi : Z → R).

Local Abbreviation A l := (Rsum ((λ k, ur k * ur k + ui k * ui k)%R <$> l)).
Local Abbreviation B l := (Rsum ((λ k, vr k * vr k + vi k * vi k)%R <$> l)).
Local Abbreviation Cr l := (Rsum ((λ k, ur k * vr k + ui k * vi k)%R <$> l)).
Local Abbreviation Ci l := (Rsum ((λ k, ui k * vr k - ur k * vi k)%R <$> l)).

Lemma quadratic_nonneg (l : list Z) (tr ti : R) :
  (0 <= A l - 2 * tr * Cr l - 2 * ti * Ci l + (tr * tr + ti * ti) * B l
   ∧ 0 <= A l ∧ 0 <= B l)%R.
Proof.
  induction l as [|k l (IH & IHA & IHB)].
  - unfold Rsum; simpl. lra.
  - rewrite !Rsum_cons. split; [|split].
    + set (x := (ur k - tr * vr k + ti * vi k)%R).
      set (y := (ui k - tr * vi k - ti * vr k)%R).
      assert (0 <= x * x + y * y)%R as Hsq by nra.
      replace (_ + _)%R with
        (A l - 2 * tr * Cr l - 2 * ti * Ci l + (tr * tr + ti * ti) * B l
         + (x * x + y * y))%R by (unfold x, y; ring).
      lra.
    + nra.
    + nra.
Qed.

Lemma cauchy_schwarz (l : list Z) :
  (Cr l * Cr l + Ci l * Ci l <= A l * B l)%R.
Proof.
  destruct (quadratic_nonneg l 0 0) as (_ & HA & HB).
  destruct (Req_dec (B l) 0) as [HB0|HB0].
  - set (D := (Cr l * Cr l + Ci l * Ci l)%R).
    assert (0 <= D)%R as HD by (unfold D; nra).
    destruct (Req_dec D 0) as [->|HD0]; [rewrite HB0; lra|].
    exfalso.
    destruct (quadratic_nonneg l ((A l + 1) / D * Cr l) ((A l + 1) / D * Ci l))
      as (H & _ & _).
    rewrite HB0 in H.
    replace (A l - 2 * ((A l + 1) / D * Cr l) * Cr l
             - 2 * ((A l + 1) / D * Ci l) * Ci l + _ * 0)%R
      with (A l - 2 * ((A l + 1) / D) * D)%R in H by (unfold D; ring).
    replace ((A l + 1) / D * D)%R with (A l + 1)%R in H by (field; lra).
    replace (2 * ((A l + 1) / D) * D)%R with (2 * (A l + 1))%R in H
      by (field; lra).
    lra.
  - assert (0 < B l)%R as HBpos by lra.
    destruct (quadratic_nonneg l (Cr l / B l) (Ci l / B l)) as (H & _ & _).
    replace (A l - 2 * (Cr l / B l) * Cr l - 2 * (Ci l / B l) * Ci l
             + (Cr l / B l * (Cr l / B l) + Ci l / B l * (Ci l / B l)) * B l)%R
      with ((A l * B l - (Cr l * Cr l + Ci l * Ci l)) / B l)%R in H
      by (field; lra).
    assert (0 <= (A l * B l - (Cr l * Cr l + Ci l * Ci l)) / B l * B l)%R as H'
      by (apply Rmult_le_pos; lra).
    replace ((A l * B l - (Cr l * Cr l + Ci l * Ci l)) / B l * B l)%R
      with (A l * B l - (Cr l * Cr l + Ci l * Ci l))%R in H' by (field; lra).
    lra.
Qed.

End cauchy_schwarz.

Lemma coherence_bound (sv : jsarray) (n : nat) (s : Z) :
  0 ≤ s < Z.of_nat n →
  (coherence_re sv n s * coherence_re sv n s
   + coherence_im sv n s * coherence_im sv n s
   <= marginal sv n s false * marginal sv n s true)%R.
Proof.
  intros Hs.
  pose proof (cauchy_schwarz
    (λ k, if Z.testbit k s then 0 else re_of (arr_get sv k))%R
    (λ k, if Z.testbit k s then 0 else im_of (arr_get sv k))%R
    (λ k, if Z.testbit k s then 0 else re_of (arr_get sv (flip_bit s k)))%R
    (λ k, if Z.testbit k s then 0 else im_of (arr_get sv (flip_bit s k)))%R
    (indices (size_of n))) as H.
  cbv beta in H.
  pose proof (Rsum_reindex (λ k, if bool_decide (Z.testbit k s = true)
                                then modulus2 (arr_get sv k) else 0%R)
                (flip_bit s) (size_of n)) as Hflip.
  cbv beta in Hflip. fold (marginal sv n s true) in Hflip.
  rewrite <- Hflip;
    [|intros k Hk; apply put_bit_in_range; [done|lia]
     |intros k Hk; apply flip_bit_involutive; lia].
  clear Hflip.
  assert (∀ k, Z.testbit (flip_bit s k) s = negb (Z.testbit k s)) as Hbit
    by (intros k; unfold flip_bit; apply put_bit_testbit; lia).
  unfold coherence_re, coherence_im. unfold marginal at 1.
  erewrite (Rsum_ext _ (λ k, _ * _ + _ * _)%R) in H; [|intros k _; reflexivity].
  match type of H with
  | (?c1 * ?c1 + ?c2 * ?c2 <= ?a * ?b)%R =>
      match goal with
      | |- (?d1 * ?d1 + ?d2 * ?d2 <= ?a' * ?b')%R =>
          assert (c1 = d1) as E1; [|assert (c2 = d2) as E2;
            [|assert (a = a') as E3; [|assert (b = b') as E4;
              [|rewrite <- E1, <- E2, <- E3, <- E4; exact H]]]]
      end
  end.
  - apply Rsum_ext. intros k _. destruct (Z.testbit k s); lra.
  - apply Rsum_ext. intros k _. destruct (Z.testbit k s); lra.
  - apply Rsum_ext. intros k _. unfold modulus2.
    destruct (Z.testbit k s); repeat case_bool_decide; try done; lra.
  - apply Rsum_ext. intros k _. rewrite Hbit. unfold modulus2.
    destruct (Z.testbit k s); repeat case_bool_decide; try done; simpl in *;
      try done; lra.
Qed.

Lemma bloch_ball (P0 P1 cr ci : R) :
  (P0 + P1 = 1 → cr * cr + ci * ci <= P0 * P1 →
   let x := 2 * cr in let y := 2 * ci in let z := P0 - P1 in
   x * x + y * y + z * z <= 1 ∧
   P0 * P0 + P1 * P1 + 2 * (cr * cr + ci * ci)
   = (1 + (x * x + y * y + z * z)) / 2)%R.
Proof. intros H1 H2 x y z. unfold x, y, z. split; [nra|]. nra. Qed.

(** * The projection and the animation of the Bloch sphere *)

Lemma project_length (b : BlochSphere) (cx cy r ax az x y z : R) :
  centerX b = Fin cx → centerY b = Fin cy → radius b = Fin r →
  viewAngleX b = Fin ax → viewAngleZ b = Fin az →
  ∃ sx sy d,
    BlochSphere.project b (Fin x) (Fin y) (Fin z)
    = mkProjected (Fin sx) (Fin sy) (Fin d) ∧
    ((sx - cx) * (sx - cx) + (sy - cy) * (sy - cy) + (r * d) * (r * d)
     = r * r * (x * x + y * y + z * z))%R.
Proof.
  intros Hcx Hcy Hr Hax Haz. unfold BlochSphere.project.
  rewrite Hcx, Hcy, Hr, Hax, Haz. cbn.
  eexists _, _, _. split; [reflexivity|].
  pose proof (cos2_sin2 ax) as HX. pose proof (cos2_sin2 az) as HZ.
  set (cX := cos ax) in *. set (sX := sin ax) in *.
  set (cZ := cos az) in *. set (sZ := sin az) in *.
  replace (_ + _)%R with
    (r * r * ((cZ * cZ + sZ * sZ) * (x * x)
              + (cZ * cZ + sZ * sZ) * ((y * cX - z * sX) * (y * cX - z * sX))
              + (y * sX + z * cX) * (y * sX + z * cX)))%R by ring.
  rewrite HZ.
  replace (1 * (x * x) + 1 * ((y * cX - z * sX) * (y * cX - z * sX))
           + (y * sX + z * cX) * (y * sX + z * cX))%R
    with (x * x + (cX * cX + sX * sX) * (y * y + z * z))%R by ring.
  rewrite HX. ring.
Qed.

Lemma unit_or_pole (x y z : R) :
  let S := (x * x + y * y + z * z)%R in
  ∃ nx ny nz,
    (if num_gt (Math_sqrt (Fin S)) (Fin 0)
     then num_div (Fin x) (Math_sqrt (Fin S)) else Fin 0) = Fin nx ∧
    (if num_gt (Math_sqrt (Fin S)) (Fin 0)
     then num_div (Fin y) (Math_sqrt (Fin S)) else Fin 0) = Fin ny ∧
    (if num_gt (Math_sqrt (Fin S)) (Fin 0)
     then num_div (Fin z) (Math_sqrt (Fin S)) else Fin 1) = Fin nz ∧
    (nx * nx + ny * ny + nz * nz = 1)%R.
Proof.
  intros S. assert (0 <= S)%R as HS by (unfold S; nra).
  unfold Math_sqrt. destruct (Rlt_dec S 0) as [|_]; [lra|].
  unfold num_gt. destruct (Rlt_dec 0 (sqrt S)) as [Hpos|Hzero].
  - unfold num_div. destruct (Req_dec_T (sqrt S) 0) as [|_]; [lra|].
    eexists _, _, _. repeat (split; [reflexivity|]).
    pose proof (sqrt_sqrt S HS) as Hsq.
    set (L := sqrt S) in *.
    replace (_ + _)%R with ((x * x + y * y + z * z) / (L * L))%R by (field; lra).
    rewrite Hsq. fold S. field. nra.
  - eexists _, _, _. repeat (split; [reflexivity|]). lra.
Qed.

Lemma animate_step (b : BlochSphere) (x y z tx ty tz : R) :
  stateX b = Fin x → stateY b = Fin y → stateZ b = Fin z →
  targetX b = Fin tx → targetY b = Fin ty → targetZ b = Fin tz →
  let d := (Rabs (x - tx) + Rabs (y - ty) + Rabs (z - tz))%R in
  ∃ b' x' y' z',
    BlochSphere.animate b
    = (b', if Rlt_dec (1 / 1000) (85 / 100 * d) then true else false) ∧
    same_geometry b' b ∧
    stateX b' = Fin x' ∧ stateY b' = Fin y' ∧ stateZ b' = Fin z' ∧
    targetX b' = Fin tx ∧ targetY b' = Fin ty ∧ targetZ b' = Fin tz ∧
    (Rabs (x' - tx) + Rabs (y' - ty) + Rabs (z' - tz) = 85 / 100 * d)%R.
Proof.
  intros Hx Hy Hz Htx Hty Htz d.
  assert (∀ a t : R, Rabs (a + (t - a) * (15 / 100) - t)
                     = (85 / 100 * Rabs (a - t))%R) as Habs.
  { intros a t. replace (a + (t - a) * (15 / 100) - t)%R
      with (85 / 100 * (a - t))%R by lra.
    rewrite Rabs_mult. rewrite (Rabs_right (85 / 100)) by lra. done. }
  unfold BlochSphere.animate. rewrite Hx, Hy, Hz, Htx, Hty, Htz.
  cbn [num_add num_sub num_mul num_lift2 Math_abs num_lift1 num_gt
       stateX stateY stateZ targetX targetY targetZ].
  rewrite !Habs.
  replace (85 / 100 * Rabs (x - tx) + 85 / 100 * Rabs (y - ty)
           + 85 / 100 * Rabs (z - tz))%R with (85 / 100 * d)%R
    by (unfold d; lra).
  eexists _, _, _, _. split; [reflexivity|].
  split; [done|]. cbn. repeat (split; [reflexivity|]).
  rewrite !Habs. unfold d. lra.
Qed.

Lemma frames_settle (k : nat) :
  ∀ (b : BlochSphere) (x y z tx ty tz : R),
    stateX b = Fin x → stateY b = Fin y → stateZ b = Fin z →
    targetX b = Fin tx → targetY b = Fin ty → targetZ b = Fin tz →
    ((85 / 100) ^ S k * (Rabs (x - tx) + Rabs (y - ty) + Rabs (z - tz))
     <= 1 / 1000)%R →
    ∃ b' x' y' z',
      BlochSphere.frames (S k) b = Some b' ∧ same_geometry b' b ∧
      stateX b' = Fin x' ∧ stateY b' = Fin y' ∧ stateZ b' = Fin z' ∧
      targetX b' = Fin tx ∧ targetY b' = Fin ty ∧ targetZ b' = Fin tz ∧
      (Rabs (x' - tx) + Rabs (y' - ty) + Rabs (z' - tz) <= 1 / 1000)%R.
Proof.
  induction k as [|k IH]; intros b x y z tx ty tz Hx Hy Hz Htx Hty Htz Hk.
  - destruct (animate_step b x y z tx ty tz Hx Hy Hz Htx Hty Htz)
      as (b' & x' & y' & z' & Hrun & Hgeo & Hx' & Hy' & Hz' & Htx' & Hty' & Htz' & Hd).
    cbn [BlochSphere.frames]. rewrite Hrun.
    destruct (Rlt_dec _ _) as [Hlt|Hge]; [simpl in Hk; lra|].
    exists b', x', y', z'. repeat (split; [done|]). lra.
  - destruct (animate_step b x y z tx ty tz Hx Hy Hz Htx Hty Htz)
      as (b' & x' & y' & z' & Hrun & Hgeo & Hx' & Hy' & Hz' & Htx' & Hty' & Htz' & Hd).
    change (BlochSphere.frames (S (S k)) b)
      with (let '(this, again) := BlochSphere.animate b in
            if again then BlochSphere.frames (S k) this else Some this).
    rewrite Hrun.
    destruct (Rlt_dec _ _) as [Hlt|Hge].
    + destruct (IH b' x' y' z' tx ty tz Hx' Hy' Hz' Htx' Hty' Htz')
        as (b2 & x2 & y2 & z2 & Hrun2 & Hgeo2 & H2);
        [rewrite Hd; simpl in Hk |- *; lra|].
      exists b2, x2, y2, z2. split; [done|]. split; [|done].
      destruct Hgeo as (? & ? & ? & ? & ?), Hgeo2 as (? & ? & ? & ? & ?).
      repeat split; congruence.
    + exists b', x', y', z'. repeat (split; [done|]). lra.
Qed.

(** * The positions that [addGate] assigns *)

Lemma foldl_max_ge (l : list Z) (a : Z) :
  a ≤ foldl Z.max a l ∧ ∀ x, x ∈ l → x ≤ foldl Z.max a l.
Proof.
  revert a. induction l as [|y l IH]; intros a; cbn [foldl].
  - split; [lia|]. intros x Hx. by apply elem_of_nil in Hx.
  - destruct (IH (a `max` y)) as [H1 H2]. split; [lia|].
    intros x [->|Hx]%elem_of_cons; [lia|by apply H2].
Qed.

Lemma max_position_ge (g : CircuitGate) (rest : list CircuitGate)
    (h : CircuitGate) :
  h ∈ g :: rest →
  cg_position h ≤ foldl Z.max (cg_position g) (cg_position <$> rest).
Proof.
  destruct (foldl_max_ge (cg_position <$> rest) (cg_position g)) as [H1 H2].
  intros [->|Hh]%elem_of_cons; [done|].
  apply H2. by apply list_elem_of_fmap_2.
Qed.

Lemma findNextPosition_after {E} (c : QuantumCircuit E) (qubit : Z) :
  (∀ h, h ∈ qc_gates c → touches qubit h = true →
        cg_position h < _findNextPosition c qubit) ∧
  ((∀ h, h ∈ qc_gates c → touches qubit h = false) →
   _findNextPosition c qubit = 0).
Proof.
  unfold _findNextPosition. split.
  - intros h Hh Ht.
    assert (h ∈ List.filter (touches qubit) (qc_gates c)) as Hin
      by (apply list_elem_of_In, filter_In; split; [by apply list_elem_of_In|done]).
    destruct (List.filter (touches qubit) (qc_gates c)) as [|g rest];
      [by apply elem_of_nil in Hin|].
    pose proof (max_position_ge g rest h Hin). lia.
  - intros Hnone.
    destruct (List.filter (touches qubit) (qc_gates c)) as [|g rest] eqn:Hf; [done|].
    assert (In g (List.filter (touches qubit) (qc_gates c))) as Hin
      by (rewrite Hf; by left).
    apply filter_In in Hin as [Hin Ht].
    rewrite Hnone in Ht; [done|by apply list_elem_of_In].
Qed.

(** * Sample inputs of the further properties *)

Lemma one_qubit_wf : well_formed one_qubit.
Proof. apply new_well_formed; lia. Qed.

Lemma two_qubits_reset_wf : well_formed two_qubits_reset.
Proof. apply new_well_formed; lia. Qed.

Lemma one_qubit_range : in_range one_qubit 0.
Proof. unfold in_range; simpl; lia. Qed.

Lemma two_qubits_reset_range (q : Z) : 0 ≤ q < 2 → in_range two_qubits_reset q.
Proof. intros Hq. unfold in_range; simpl; lia. Qed.

Lemma new_norm (n : nat) (log : list (level * string)) :
  (n ≤ 31)%nat → norm2 (snd (new n log)) = 1%R.
Proof.
  intros Hn. unfold new.
  destruct (reset_norm (mkWorld (mkSimulator n (mkArray 0 ∅)) log) Hn)
    as (w' & -> & _ & _ & _ & Hnorm). done.
Qed.

Lemma basis_one_wf : well_formed basis_one.
Proof.
  split; [simpl; lia|]. split; [done|]. intros k Hk.
  change (size_of (numQubits (this basis_one))) with 2 in Hk.
  assert (k = 0 ∨ k = 1) as [-> | ->] by lia; apply is_amplitude_obj.
Qed.

Lemma bloch_new_fields (w h : R) :
  centerX (BlochSphere.new (Fin w) (Fin h)) = Fin (w / 2) ∧
  centerY (BlochSphere.new (Fin w) (Fin h)) = Fin (h / 2) ∧
  radius (BlochSphere.new (Fin w) (Fin h)) = Fin (Rmin w h / 2 - 20) ∧
  viewAngleX (BlochSphere.new (Fin w) (Fin h)) = Fin (4 / 10) ∧
  viewAngleZ (BlochSphere.new (Fin w) (Fin h)) = Fin (- (5 / 10)).
Proof.
  cbn. destruct (Req_dec_T 2 0) as [|_]; [lra|]. done.
Qed.

(** * Properties of the code beyond the specification *)

(** X1. [applyCNOT] on two different qubits of the register changes no
    amplitude: the loop exchanges the two amplitudes of a pair in place, once
    when it reaches the lower index of the pair and once more when it reaches
    the upper one.  The call returns normally, on every well-formed state. *)
Theorem cnot_on_distinct_qubits_changes_nothing (c t : Z) (w : world) :
  well_formed w → in_range w c → in_range w t → c ≠ t →
  ∃ w', applyCNOT c t w = (Normal tt, w') ∧
        numQubits (this w') = numQubits (this w) ∧
        console w' = console w ∧
        arr_length (stateVector (this w')) = arr_length (stateVector (this w)) ∧
        ∀ k, 0 ≤ k < size_of (numQubits (this w)) →
             arr_get (stateVector (this w')) k = arr_get (stateVector (this w)) k.
Proof.
  intros Hwf Hc Ht Hct.
  destruct (applyCNOT_distinct c t w Hwf Hc Ht Hct) as (sv' & Hrun & Hl & Hk).
  eexists. split; [exact Hrun|]. done.
Qed.

Lemma cnot_on_distinct_qubits_changes_nothing_witness :
  well_formed two_qubits_reset ∧ in_range two_qubits_reset 0 ∧
  in_range two_qubits_reset 1 ∧ 0 ≠ 1 ∧
  ∃ w', applyCNOT 0 1 two_qubits_reset = (Normal tt, w') ∧
        ∀ k, 0 ≤ k < size_of (numQubits (this two_qubits_reset)) →
             arr_get (stateVector (this w')) k
             = arr_get (stateVector (this two_qubits_reset)) k.
Proof.
  assert (in_range two_qubits_reset 0) as H0 by (apply two_qubits_reset_range; lia).
  assert (in_range two_qubits_reset 1) as H1 by (apply two_qubits_reset_range; lia).
  assert (0 ≠ 1) as Hne by lia.
  split; [exact two_qubits_reset_wf|]. split; [exact H0|]. split; [exact H1|].
  split; [exact Hne|].
  destruct (cnot_on_distinct_qubits_changes_nothing 0 1 two_qubits_reset
              two_qubits_reset_wf H0 H1 Hne) as (w' & Hrun & _ & _ & _ & Hk).
  exists w'. split; [exact Hrun|exact Hk].
Defined.

(** X2. [applyCNOT(q, q)], with the control as its own target, is not
    rejected: it exchanges the two amplitudes of every pair of basis indices
    that differ in the bit of [q], which is exactly what the Pauli-X gate
    [applySingleQubitGate('X', q)] does. *)
Theorem cnot_on_one_qubit_acts_as_pauli_x (q : Z) (p : option Params)
    (w : world) :
  well_formed w → in_range w q →
  ∃ w1 w2, applyCNOT q q w = (Normal tt, w1) ∧
           applySingleQubitGate "X" q p w = (Normal tt, w2) ∧
           ∀ k, 0 ≤ k < size_of (numQubits (this w)) →
                arr_get (stateVector (this w1)) k
                = arr_get (stateVector (this w))
                    (flip_bit (shift (numQubits (this w)) q) k) ∧
                arr_get (stateVector (this w2)) k
                = arr_get (stateVector (this w))
                    (flip_bit (shift (numQubits (this w)) q) k).
Proof.
  intros Hwf Hq.
  destruct (applyCNOT_same q w Hwf Hq) as (sv1 & Hrun1 & _ & Hk1).
  destruct (pauli_x_flips q p w Hwf Hq) as (w2 & Hrun2 & _ & _ & _ & Hk2).
  eexists _, w2. split; [exact Hrun1|]. split; [exact Hrun2|].
  intros k Hk. split; [by apply Hk1|by apply Hk2].
Qed.

Lemma cnot_on_one_qubit_acts_as_pauli_x_witness :
  well_formed one_qubit ∧ in_range one_qubit 0 ∧
  ∃ w1 w2, applyCNOT 0 0 one_qubit = (Normal tt, w1) ∧
           applySingleQubitGate "X" 0 None one_qubit = (Normal tt, w2) ∧
           ∀ k, 0 ≤ k < size_of (numQubits (this one_qubit)) →
                arr_get (stateVector (this w1)) k
                = arr_get (stateVector (this one_qubit))
                    (flip_bit (shift (numQubits (this one_qubit)) 0) k) ∧
                arr_get (stateVector (this w2)) k
                = arr_get (stateVector (this one_qubit))
                    (flip_bit (shift (numQubits (this one_qubit)) 0) k).
Proof.
  split; [exact one_qubit_wf|]. split; [exact one_qubit_range|].
  exact (cnot_on_one_qubit_acts_as_pauli_x 0 None one_qubit
           one_qubit_wf one_qubit_range).
Defined.

(** X3. [applyCZ] is its own inverse: applied twice with the same two
    indices (of the register or not) to a well-formed state, it returns
    normally and leaves the simulator exactly as it was. *)
Theorem cz_twice_restores (c t : Z) (w : world) :
  well_formed w → (applyCZ c t;; applyCZ c t) w = (Normal tt, w).
Proof.
  intros Hwf.
  destruct (applyCZ_slots c t w Hwf) as (sv1 & Hrun1 & Hl1 & Hk1).
  pose proof Hwf as (Hn & Hlen & Hamp).
  set (n := numQubits (this w)) in *. set (sv := stateVector (this w)) in *.
  set (w1 := mkWorld (mkSimulator n sv1) (console w)) in *.
  assert (∀ k, 0 ≤ k < size_of n →
               arr_get sv1 k = if cz_hits n c t k then cmul (arr_get sv k) (obj (-1) 0)
                               else arr_get sv k) as Hg1.
  { intros k Hk. unfold arr_get at 1. rewrite Hk1, decide_True by done. done. }
  assert (well_formed w1) as Hwf1.
  { split; [done|]. split; [cbn; congruence|]. cbn. intros k Hk.
    rewrite Hg1 by done. apply is_amplitude_cz. by apply Hamp. }
  destruct (applyCZ_slots c t w1 Hwf1) as (sv2 & Hrun2 & Hl2 & Hk2).
  cbn in Hrun2, Hl2, Hk2.
  unfold mbind, M_bind. rewrite Hrun1, Hrun2.
  assert (sv2 = sv) as ->.
  { apply jsarray_eq; [congruence|]. intros k. rewrite Hk2.
    case_decide as Hk; [|rewrite Hk1; by rewrite decide_False].
    rewrite Hg1 by done. rewrite slot_of_amplitude by (by apply Hamp).
    f_equal. destruct (cz_hits n c t k); [|done].
    apply cmul_minus_one_twice. by apply Hamp. }
  by destruct w as [[]].
Qed.

Lemma cz_twice_restores_witness :
  well_formed two_qubits_reset ∧
  (applyCZ 0 1;; applyCZ 0 1) two_qubits_reset = (Normal tt, two_qubits_reset).
Proof.
  split; [exact two_qubits_reset_wf|].
  exact (cz_twice_restores 0 1 two_qubits_reset two_qubits_reset_wf).
Defined.

(** X4. [applyCZ] only changes signs: [getProbabilities] returns the same
    array before and after it, on every well-formed state. *)
Theorem cz_keeps_probabilities (c t : Z) (w : world) :
  well_formed w →
  ∃ w' ps, applyCZ c t w = (Normal tt, w') ∧
           getProbabilities w = (Normal ps, w) ∧
           getProbabilities w' = (Normal ps, w').
Proof.
  intros Hwf.
  destruct (applyCZ_spec c t w Hwf) as (w' & Hrun & Hn' & Hc' & Hl' & Hk').
  pose proof Hwf as (Hn & Hlen & Hamp).
  assert (well_formed w') as Hwf'.
  { split; [congruence|]. split; [congruence|]. rewrite Hn'. intros k Hk.
    by apply Hk'. }
  destruct (getProbabilities_eq w w' Hwf Hwf' Hn') as (ps & Hp & Hp').
  { intros k Hk. by apply Hk'. }
  by exists w', ps.
Qed.

Lemma cz_keeps_probabilities_witness :
  well_formed two_qubits_reset ∧
  ∃ w' ps, applyCZ 0 1 two_qubits_reset = (Normal tt, w') ∧
           getProbabilities two_qubits_reset = (Normal ps, two_qubits_reset) ∧
           getProbabilities w' = (Normal ps, w').
Proof.
  split; [exact two_qubits_reset_wf|].
  exact (cz_keeps_probabilities 0 1 two_qubits_reset two_qubits_reset_wf).
Defined.



(** X6. The gates H, X, Y and Z are their own inverses (over exact
    reals): applied twice to the same qubit of the register, each returns
    every amplitude of a well-formed state to its value. *)
Theorem self_inverse_gates_restore (name : string) (q : Z)
    (p1 p2 : option Params) (w : world) :
  name ∈ self_inverse_kinds → well_formed w → in_range w q →
  ∃ w', (applySingleQubitGate name q p1;; applySingleQubitGate name q p2) w
        = (Normal tt, w') ∧
        numQubits (this w') = numQubits (this w) ∧
        console w' = console w ∧
        arr_length (stateVector (this w')) = arr_length (stateVector (this w)) ∧
        ∀ k, 0 ≤ k < size_of (numQubits (this w)) →
             arr_get (stateVector (this w')) k = arr_get (stateVector (this w)) k.
Proof.
  intros Hname Hwf Hq.
  assert (∀ m, finite_matrix m →
               (∀ r c, product (entry m) (entry m) r c = identity r c) →
               ∃ w', (apply_matrix m q;; apply_matrix m q) w = (Normal tt, w') ∧
                     numQubits (this w') = numQubits (this w) ∧
                     console w' = console w ∧
                     arr_length (stateVector (this w'))
                     = arr_length (stateVector (this w)) ∧
                     ∀ k, 0 ≤ k < size_of (numQubits (this w)) →
                          arr_get (stateVector (this w')) k
                          = arr_get (stateVector (this w)) k) as Hgen.
  { intros m Hm Hid.
    destruct (two_gates_act m m identity q w Hwf Hq Hm Hm Hid)
      as (w' & Hrun & Hn' & Hc' & Hl' & Hk').
    exists w'. repeat (split; [done|]). intros k Hk. rewrite Hk' by done.
    destruct Hwf as (_ & _ & Hamp). unfold in_range in Hq.
    apply act_identity; [|by apply Hamp].
    pose proof (shift_in_range _ q Hq). lia. }
  unfold self_inverse_kinds in Hname.
  repeat (apply elem_of_cons in Hname as [->|Hname]);
    [..|by apply elem_of_nil in Hname].
  - rewrite !(applySingleQubitGate_fixed "H" GATE_H _ q _ eq_refl ltac:(done) eq_refl).
    apply Hgen; [by apply finite_of_unitary, unitary_H|].
    pose proof inv_sqrt2_sq. matrix_entries r c; nra.
  - rewrite !(applySingleQubitGate_fixed "X" GATE_X _ q _ eq_refl ltac:(done) eq_refl).
    apply Hgen; [by apply finite_of_unitary, unitary_X|].
    matrix_entries r c; lra.
  - rewrite !(applySingleQubitGate_fixed "Y" GATE_Y _ q _ eq_refl ltac:(done) eq_refl).
    apply Hgen; [by apply finite_of_unitary, unitary_Y|].
    matrix_entries r c; lra.
  - rewrite !(applySingleQubitGate_fixed "Z" GATE_Z _ q _ eq_refl ltac:(done) eq_refl).
    apply Hgen; [by apply finite_of_unitary, unitary_Z|].
    matrix_entries r c; lra.
Qed.

Lemma self_inverse_gates_restore_witness :
  "H"%string ∈ self_inverse_kinds ∧ well_formed two_qubits_reset ∧
  in_range two_qubits_reset 0 ∧
  ∃ w', (applySingleQubitGate "H" 0 None;; applySingleQubitGate "H" 0 None)
          two_qubits_reset = (Normal tt, w') ∧
        ∀ k, 0 ≤ k < size_of (numQubits (this two_qubits_reset)) →
             arr_get (stateVector (this w')) k
             = arr_get (stateVector (this two_qubits_reset)) k.
Proof.
  assert ("H"%string ∈ self_inverse_kinds) as HH by (unfold self_inverse_kinds; left).
  assert (in_range two_qubits_reset 0) as H0 by (apply two_qubits_reset_range; lia).
  split; [exact HH|]. split; [exact two_qubits_reset_wf|]. split; [exact H0|].
  destruct (self_inverse_gates_restore "H" 0 None None two_qubits_reset HH
              two_qubits_reset_wf H0) as (w' & Hrun & _ & _ & _ & Hk).
  exists w'. split; [exact Hrun|exact Hk].
Defined.

(** X7. Rotations about one axis compose by adding their angles: RX, RY
    or RZ by [a] and then by [b] on the same qubit leaves the amplitudes that
    the one rotation by [a + b] leaves (over exact reals). *)
Theorem rotation_angles_add (name : string) (q : Z) (a b : R) (w : world) :
  name ∈ rotation_kinds → well_formed w → in_range w q →
  ∃ w2 w3,
    (applySingleQubitGate name q (Some (mkParams (Some (Fin a))));;
     applySingleQubitGate name q (Some (mkParams (Some (Fin b))))) w
    = (Normal tt, w2) ∧
    applySingleQubitGate name q (Some (mkParams (Some (Fin (a + b))))) w
    = (Normal tt, w3) ∧
    ∀ k, 0 ≤ k < size_of (numQubits (this w)) →
         arr_get (stateVector (this w2)) k = arr_get (stateVector (this w3)) k.
Proof.
  intros Hname Hwf Hq. unfold rotation_kinds in Hname.
  pose proof (cos_plus (a / 2) (b / 2)) as Hcos.
  pose proof (sin_plus (a / 2) (b / 2)) as Hsin.
  repeat (apply elem_of_cons in Hname as [->|Hname]);
    [..|by apply elem_of_nil in Hname].
  - rewrite !(applySingleQubitGate_rotation "RX" GATE_RX _ q _ eq_refl eq_refl eq_refl).
    simpl default. simpl theta. rewrite !or_zero_Fin.
    apply two_gates_as_one;
      [done|done|exact (finite_of_unitary _ (unitary_RX _ a eq_refl))
       |exact (finite_of_unitary _ (unitary_RX _ b eq_refl))
       |exact (finite_of_unitary _ (unitary_RX _ (a + b) eq_refl))|].
    matrix_entries r c; rewrite ?half_sum, ?Hcos, ?Hsin; lra.
  - rewrite !(applySingleQubitGate_rotation "RY" GATE_RY _ q _ eq_refl eq_refl eq_refl).
    simpl default. simpl theta. rewrite !or_zero_Fin.
    apply two_gates_as_one;
      [done|done|exact (finite_of_unitary _ (unitary_RY _ a eq_refl))
       |exact (finite_of_unitary _ (unitary_RY _ b eq_refl))
       |exact (finite_of_unitary _ (unitary_RY _ (a + b) eq_refl))|].
    matrix_entries r c; rewrite ?half_sum, ?Hcos, ?Hsin; lra.
  - rewrite !(applySingleQubitGate_rotation "RZ" GATE_RZ _ q _ eq_refl eq_refl eq_refl).
    simpl default. simpl theta. rewrite !or_zero_Fin.
    apply two_gates_as_one;
      [done|done|exact (finite_of_unitary _ (unitary_RZ _ a eq_refl))
       |exact (finite_of_unitary _ (unitary_RZ _ b eq_refl))
       |exact (finite_of_unitary _ (unitary_RZ _ (a + b) eq_refl))|].
    matrix_entries r c; rewrite ?half_sum, ?Hcos, ?Hsin; lra.
Qed.

Lemma rotation_angles_add_witness :
  "RY"%string ∈ rotation_kinds ∧ well_formed one_qubit ∧ in_range one_qubit 0 ∧
  ∃ w2 w3,
    (applySingleQubitGate "RY" 0 (Some (mkParams (Some (Fin 1))));;
     applySingleQubitGate "RY" 0 (Some (mkParams (Some (Fin 2))))) one_qubit
    = (Normal tt, w2) ∧
    applySingleQubitGate "RY" 0 (Some (mkParams (Some (Fin (1 + 2))))) one_qubit
    = (Normal tt, w3) ∧
    ∀ k, 0 ≤ k < size_of (numQubits (this one_qubit)) →
         arr_get (stateVector (this w2)) k = arr_get (stateVector (this w3)) k.
Proof.
  assert ("RY"%string ∈ rotation_kinds) as HR
    by (unfold rotation_kinds; right; left).
  split; [exact HR|]. split; [exact one_qubit_wf|]. split; [exact one_qubit_range|].
  exact (rotation_angles_add "RY" 0 1 2 one_qubit HR one_qubit_wf one_qubit_range).
Defined.

(** X8. The phase gates of the table form a chain: T applied twice to a
    qubit leaves the amplitudes that S leaves, and S applied twice leaves the
    amplitudes that Z leaves (over exact reals). *)
Theorem phase_gates_square (q : Z) (p1 p2 p3 : option Params) (w : world) :
  well_formed w → in_range w q →
  (∃ w2 w3,
     (applySingleQubitGate "T" q p1;; applySingleQubitGate "T" q p2) w
     = (Normal tt, w2) ∧
     applySingleQubitGate "S" q p3 w = (Normal tt, w3) ∧
     ∀ k, 0 ≤ k < size_of (numQubits (this w)) →
          arr_get (stateVector (this w2)) k = arr_get (stateVector (this w3)) k) ∧
  (∃ w2 w3,
     (applySingleQubitGate "S" q p1;; applySingleQubitGate "S" q p2) w
     = (Normal tt, w2) ∧
     applySingleQubitGate "Z" q p3 w = (Normal tt, w3) ∧
     ∀ k, 0 ≤ k < size_of (numQubits (this w)) →
          arr_get (stateVector (this w2)) k = arr_get (stateVector (this w3)) k).
Proof.
  intros Hwf Hq. split.
  - rewrite !(applySingleQubitGate_fixed "T" GATE_T _ q _ eq_refl ltac:(done) eq_refl).
    rewrite !(applySingleQubitGate_fixed "S" GATE_S _ q _ eq_refl ltac:(done) eq_refl).
    apply two_gates_as_one; [done|done|by apply finite_of_unitary, unitary_T..| |].
    { by apply finite_of_unitary, unitary_S. }
    pose proof cos_sin_PI4 as (Hc & Hs & Hcs).
    matrix_entries r c; lra.
  - rewrite !(applySingleQubitGate_fixed "S" GATE_S _ q _ eq_refl ltac:(done) eq_refl).
    rewrite !(applySingleQubitGate_fixed "Z" GATE_Z _ q _ eq_refl ltac:(done) eq_refl).
    apply two_gates_as_one; [done|done|by apply finite_of_unitary, unitary_S..| |].
    { by apply finite_of_unitary, unitary_Z. }
    matrix_entries r c; lra.
Qed.

Lemma phase_gates_square_witness :
  well_formed one_qubit ∧ in_range one_qubit 0 ∧
  ∃ w2 w3,
    (applySingleQubitGate "T" 0 None;; applySingleQubitGate "T" 0 None) one_qubit
    = (Normal tt, w2) ∧
    applySingleQubitGate "S" 0 None one_qubit = (Normal tt, w3) ∧
    ∀ k, 0 ≤ k < size_of (numQubits (this one_qubit)) →
         arr_get (stateVector (this w2)) k = arr_get (stateVector (this w3)) k.
Proof.
  split; [exact one_qubit_wf|]. split; [exact one_qubit_range|].
  exact (proj1 (phase_gates_square 0 None None None one_qubit
                  one_qubit_wf one_qubit_range)).
Defined.



(** X10. [applySWAP(a, b)] and [applySWAP(b, a)] leave the same
    amplitudes, on every well-formed state and for every two qubits of the
    register. *)
Theorem swap_is_symmetric (a b : Z) (w : world) :
  well_formed w → in_range w a → in_range w b →
  ∃ w1 w2, applySWAP a b w = (Normal tt, w1) ∧
           applySWAP b a w = (Normal tt, w2) ∧
           ∀ k, 0 ≤ k < size_of (numQubits (this w)) →
                arr_get (stateVector (this w1)) k
                = arr_get (stateVector (this w2)) k.
Proof.
  intros Hwf Ha Hb.
  destruct (applySWAP_spec a b w Hwf Ha Hb) as (sv1 & Hrun1 & _ & Hk1).
  destruct (applySWAP_spec b a w Hwf Hb Ha) as (sv2 & Hrun2 & _ & Hk2).
  eexists _, _. split; [exact Hrun1|]. split; [exact Hrun2|].
  cbn. intros k Hk. rewrite Hk1, Hk2 by done.
  unfold in_range in *.
  pose proof (shift_in_range _ a Ha). pose proof (shift_in_range _ b Hb).
  rewrite swap_bits_comm by lia. done.
Qed.

Lemma swap_is_symmetric_witness :
  well_formed two_qubits_reset ∧ in_range two_qubits_reset 0 ∧
  in_range two_qubits_reset 1 ∧
  ∃ w1 w2, applySWAP 0 1 two_qubits_reset = (Normal tt, w1) ∧
           applySWAP 1 0 two_qubits_reset = (Normal tt, w2) ∧
           ∀ k, 0 ≤ k < size_of (numQubits (this two_qubits_reset)) →
                arr_get (stateVector (this w1)) k
                = arr_get (stateVector (this w2)) k.
Proof.
  assert (in_range two_qubits_reset 0) as H0 by (apply two_qubits_reset_range; lia).
  assert (in_range two_qubits_reset 1) as H1 by (apply two_qubits_reset_range; lia).
  split; [exact two_qubits_reset_wf|]. split; [exact H0|]. split; [exact H1|].
  exact (swap_is_symmetric 0 1 two_qubits_reset two_qubits_reset_wf H0 H1).
Defined.

(** X11. SWAP carries a gate from one qubit to the other: swapping [a]
    and [b], applying one of the nine matrix gates to [a] and swapping back
    leaves the amplitudes that the gate applied to [b] leaves. *)
Theorem swap_moves_gate (name : string) (a b : Z) (p : option Params)
    (w : world) :
  name ∈ single_kinds ++ rotation_kinds →
  well_formed w → in_range w a → in_range w b →
  ∃ w1 w2,
    (applySWAP a b;; applySingleQubitGate name a p;; applySWAP a b) w
    = (Normal tt, w1) ∧
    applySingleQubitGate name b p w = (Normal tt, w2) ∧
    ∀ k, 0 ≤ k < size_of (numQubits (this w)) →
         arr_get (stateVector (this w1)) k = arr_get (stateVector (this w2)) k.
Proof.
  intros Hname Hwf Ha Hb.
  destruct (single_gate_matrix name p Hname) as (m & [Hm _] & Heq).
  rewrite !Heq.
  pose proof Hwf as (Hn & Hlen & Hamp). unfold in_range in Ha, Hb.
  set (n := numQubits (this w)) in *. set (sv := stateVector (this w)) in *.
  pose proof (shift_in_range n a Ha) as Hsa.
  pose proof (shift_in_range n b Hb) as Hsb.
  set (sa := shift n a) in *. set (sb := shift n b) in *.
  destruct (applySWAP_spec a b w Hwf Ha Hb) as (sv1 & Hrun1 & Hl1 & Hk1).
  fold n sv sa sb in Hrun1, Hl1, Hk1.
  set (w1 := mkWorld (mkSimulator n sv1) (console w)) in *.
  assert (well_formed w1) as Hwf1.
  { split; [done|]. split; [done|]. cbn. intros k Hk. rewrite Hk1 by done.
    apply Hamp. by apply swap_bits_range. }
  destruct (apply_matrix_act m a w1 Hwf1 Ha Hm) as (sv2 & Hrun2 & Hwf2 & Hk2).
  cbn in Hrun2, Hwf2, Hk2. fold sa in Hk2.
  destruct (applySWAP_spec a b _ Hwf2 Ha Hb) as (sv3 & Hrun3 & Hl3 & Hk3).
  cbn in Hrun3, Hl3, Hk3. fold sa sb in Hk3.
  destruct (apply_matrix_act m b w Hwf Hb Hm) as (sv4 & Hrun4 & _ & Hk4).
  fold n sv sb in Hrun4, Hk4.
  eexists _, _. split.
  { unfold mbind, M_bind. rewrite Hrun1. fold w1. rewrite Hrun2. exact Hrun3. }
  split; [exact Hrun4|]. cbn. intros k Hk.
  rewrite Hk3, Hk4 by done.
  assert (0 ≤ swap_bits sa sb k < size_of n) as Hsk by (by apply swap_bits_range).
  rewrite Hk2 by done. unfold act.
  rewrite !Hk1 by (apply put_bit_in_range; lia).
  assert (Z.testbit (swap_bits sa sb k) sa = Z.testbit k sb) as ->.
  { rewrite swap_bits_spec by lia. repeat case_bool_decide; congruence. }
  assert (∀ c, swap_bits sa sb (put_bit (swap_bits sa sb k) sa c)
               = put_bit k sb c) as Hput.
  { intros c. apply Z.bits_inj'. intros j Hj.
    rewrite swap_bits_spec, !put_bit_spec, ?swap_bits_spec by lia.
    repeat case_bool_decide; congruence. }
  by rewrite !Hput.
Qed.

Lemma swap_moves_gate_witness :
  "H"%string ∈ single_kinds ++ rotation_kinds ∧
  well_formed two_qubits_reset ∧ in_range two_qubits_reset 0 ∧
  in_range two_qubits_reset 1 ∧
  ∃ w1 w2,
    (applySWAP 0 1;; applySingleQubitGate "H" 0 None;; applySWAP 0 1)
      two_qubits_reset = (Normal tt, w1) ∧
    applySingleQubitGate "H" 1 None two_qubits_reset = (Normal tt, w2) ∧
    ∀ k, 0 ≤ k < size_of (numQubits (this two_qubits_reset)) →
         arr_get (stateVector (this w1)) k = arr_get (stateVector (this w2)) k.
Proof.
  assert ("H"%string ∈ single_kinds ++ rotation_kinds) as HH by left.
  assert (in_range two_qubits_reset 0) as H0 by (apply two_qubits_reset_range; lia).
  assert (in_range two_qubits_reset 1) as H1 by (apply two_qubits_reset_range; lia).
  split; [exact HH|]. split; [exact two_qubits_reset_wf|].
  split; [exact H0|]. split; [exact H1|].
  exact (swap_moves_gate "H" 0 1 None two_qubits_reset HH two_qubits_reset_wf H0 H1).
Defined.



(** X13. The order of the array [circuit.gates] does not matter when all
    positions are different: [simulateCircuit] sorts the gates by position,
    so two arrays with the same gates in any order have the same outcome, on
    every simulator and for every kind of gate. *)
Theorem simulateCircuit_array_order (gates gates' : list GateOp) (w : world) :
  NoDup (position <$> gates) → gates' ≡ₚ gates →
  simulateCircuit gates' w = simulateCircuit gates w.
Proof.
  intros Hnd Hperm. apply simulateCircuit_sorted. intros w'.
  by rewrite (sort_gates_unique gates gates').
Qed.

Lemma simulateCircuit_array_order_witness :
  NoDup (position <$> sample_circuit) ∧ reverse sample_circuit ≡ₚ sample_circuit ∧
  simulateCircuit (reverse sample_circuit) two_qubits
  = simulateCircuit sample_circuit two_qubits.
Proof.
  assert (NoDup (position <$> sample_circuit)) as Hnd.
  { apply (bool_decide_unpack _). vm_compute. exact I. }
  assert (reverse sample_circuit ≡ₚ sample_circuit) as Hperm
    by apply reverse_Permutation.
  split; [exact Hnd|]. split; [exact Hperm|].
  exact (simulateCircuit_array_order sample_circuit (reverse sample_circuit)
           two_qubits Hnd Hperm).
Defined.

(** X14. Measurement markers do not influence a simulation: removing
    every operation of kind ['M'] from the circuit leaves the outcome of
    [simulateCircuit] (its result, the final simulator and the console)
    unchanged, wherever the markers stand and whatever the other gates
    are. *)
Theorem simulateCircuit_ignores_markers (gates : list GateOp) (w : world) :
  simulateCircuit (filter (λ g, gate g ≠ "M"%string) gates) w
  = simulateCircuit gates w.
Proof.
  apply simulateCircuit_sorted. intros w'. rewrite <- filter_sort_gates.
  apply applyGates_without_markers.
Qed.

(** X15. Operations of an unknown kind do not stop a simulation and do
    not touch the state: [simulateCircuit] on a circuit and on the circuit
    without the operations whose kind is not a key of the gate table have the
    same result (or throw the same error) and leave the same simulator; only
    the console, which receives the warnings, can differ. *)
Theorem simulateCircuit_skips_unknown_kinds (gates : list GateOp) (w : world) :
  same_outcome (simulateCircuit gates w)
    (simulateCircuit (filter (λ g, gate g ∈ supported_kinds) gates) w).
Proof.
  unfold simulateCircuit. rewrite <- filter_sort_gates.
  unfold mbind at 1 2 5 6. unfold M_bind.
  destruct (reset w) as [[[]|e] w1]; [|done].
  pose proof (applyGates_known (sort_gates gates) w1 w1 eq_refl) as [Hr Ht].
  destruct (applyGates (sort_gates gates) w1) as [[[]|e] w2],
    (applyGates (filter _ (sort_gates gates)) w1) as [[[]|e'] w2'];
    cbn in Hr, Ht; try done.
  - apply blind_same_outcome; [|done].
    apply blind_bind; [apply blind_getStateVector|]. intros sv.
    apply blind_bind; [apply blind_getProbabilities|]. intros ps.
    apply blind_ret.
  - split; cbn; [congruence|done].
Qed.

(** X16. [setNumQubits(n)] with [n ≤ 31] leaves the simulator exactly
    as [new QuantumSimulator(n)] would build it, whatever its state was: the
    state vector has [2^n] amplitudes, 1 at index 0 and 0 elsewhere. *)
Theorem setNumQubits_is_fresh_start (n : nat) (w : world) :
  (n ≤ 31)%nat →
  setNumQubits n w = new n (console w) ∧
  ∃ sv, setNumQubits n w
        = (Normal tt, mkWorld (mkSimulator n sv) (console w)) ∧
        arr_length sv = size_of n ∧
        arr_get sv 0 = obj 1 0 ∧
        (∀ k, 0 < k < size_of n → arr_get sv k = obj 0 0).
Proof.
  intros Hn. split.
  - unfold setNumQubits, new. by apply reset_forgets.
  - unfold setNumQubits.
    apply (reset_spec (mkWorld (mkSimulator n (stateVector (this w))) (console w))).
    done.
Qed.

Lemma setNumQubits_is_fresh_start_witness :
  (3 ≤ 31)%nat ∧ setNumQubits 3 half_half = new 3 (console half_half).
Proof.
  assert (3 ≤ 31)%nat as Hn by lia.
  split; [exact Hn|].
  exact (proj1 (setNumQubits_is_fresh_start 3 half_half Hn)).
Defined.

(** X17. A register of 32 qubits or more cannot be built: [new Array]
    refuses the length [2^n], so the constructor throws a [RangeError], and so
    does [setNumQubits(n)] - after it has already stored [n] in [numQubits],
    which leaves the simulator with the new qubit count and the state vector
    of the old one. *)
Theorem register_too_large (n : nat) (w : world) :
  (32 ≤ n)%nat →
  new n (console w)
  = (Throw RangeError, mkWorld (mkSimulator n (mkArray 0 ∅)) (console w)) ∧
  setNumQubits n w
  = (Throw RangeError,
     mkWorld (mkSimulator n (stateVector (this w))) (console w)).
Proof.
  intros Hn. split.
  - unfold new. by apply reset_too_large.
  - unfold setNumQubits. by apply reset_too_large.
Qed.

Lemma register_too_large_witness :
  (32 ≤ 32)%nat ∧
  setNumQubits 32 one_qubit
  = (Throw RangeError,
     mkWorld (mkSimulator 32 (stateVector (this one_qubit))) (console one_qubit)).
Proof.
  assert (32 ≤ 32)%nat as Hn by lia.
  split; [exact Hn|].
  exact (proj2 (register_too_large 32 one_qubit Hn)).
Defined.

(** X18. What [getQubitState] computes for a qubit of the register, on
    a well-formed state: [rho00] and [rho11] are the probabilities that the
    qubit reads 0 and 1 (real numbers, which add up to the squared norm of
    the state vector), [rho01] is the sum of [a_k · conj(a_k')] over the
    indices [k] whose bit of the qubit is 0, [k'] being [k] with that bit
    set, [x] and [y] are twice its real and imaginary part, [z] is
    [rho00 - rho11], and [purity] is [rho00² + rho11² + 2·|rho01|²].  The
    simulator is left as it was. *)
Theorem getQubitState_density_matrix (q : Z) (w : world) :
  well_formed w → in_range w q →
  let n := numQubits (this w) in
  let s := shift n q in
  let sv := stateVector (this w) in
  ∃ r, getQubitState q w = (Normal r, w) ∧
       qs_rho00 r = obj (marginal sv n s false) 0 ∧
       qs_rho11 r = obj (marginal sv n s true) 0 ∧
       qs_rho01 r = obj (coherence_re sv n s) (coherence_im sv n s) ∧
       qs_x r = Fin (2 * coherence_re sv n s) ∧
       qs_y r = Fin (2 * coherence_im sv n s) ∧
       qs_z r = Fin (marginal sv n s false - marginal sv n s true) ∧
       qs_purity r
       = Fin (marginal sv n s false * marginal sv n s false
              + marginal sv n s true * marginal sv n s true
              + 2 * (coherence_re sv n s * coherence_re sv n s
                     + coherence_im sv n s * coherence_im sv n s)) ∧
       (marginal sv n s false + marginal sv n s true = norm2 w)%R.
Proof.
  intros Hwf Hq n s sv.
  destruct (getQubitState_spec q w Hwf Hq)
    as (r & Hrun & H00 & H11 & H01 & Hx & Hy & Hz & Hp).
  exists r. repeat (split; [done|]). apply marginals_total.
Qed.

Lemma getQubitState_density_matrix_witness :
  well_formed two_qubits_reset ∧ in_range two_qubits_reset 1 ∧
  ∃ r, getQubitState 1 two_qubits_reset = (Normal r, two_qubits_reset) ∧
       qs_z r
       = Fin (marginal (stateVector (this two_qubits_reset)) 2 0 false
              - marginal (stateVector (this two_qubits_reset)) 2 0 true).
Proof.
  assert (in_range two_qubits_reset 1) as H1 by (apply two_qubits_reset_range; lia).
  split; [exact two_qubits_reset_wf|]. split; [exact H1|].
  destruct (getQubitState_density_matrix 1 two_qubits_reset two_qubits_reset_wf H1)
    as (r & Hrun & _ & _ & _ & _ & _ & Hz & _).
  exists r. split; [exact Hrun|exact Hz].
Defined.

(** X19. For a normalised well-formed state, the Bloch vector
    [(x, y, z)] that [getQubitState] returns for a qubit of the register lies
    in the unit ball, and the returned [purity] is [(1 + x² + y² + z²) / 2]
    (so it lies between 1/2 and 1). *)
Theorem bloch_vector_in_unit_ball (q : Z) (w : world) :
  well_formed w → in_range w q → norm2 w = 1%R →
  ∃ r x y z p, getQubitState q w = (Normal r, w) ∧
    qs_x r = Fin x ∧ qs_y r = Fin y ∧ qs_z r = Fin z ∧ qs_purity r = Fin p ∧
    (x * x + y * y + z * z <= 1)%R ∧
    p = ((1 + (x * x + y * y + z * z)) / 2)%R.
Proof.
  intros Hwf Hq Hnorm.
  destruct (getQubitState_spec q w Hwf Hq)
    as (r & Hrun & _ & _ & _ & Hx & Hy & Hz & Hp).
  unfold in_range in Hq. pose proof (shift_in_range _ q Hq) as Hs.
  pose proof (marginals_total (stateVector (this w)) (numQubits (this w))
                (shift (numQubits (this w)) q)) as Htot.
  fold (norm2 w) in Htot. rewrite Hnorm in Htot.
  pose proof (coherence_bound (stateVector (this w)) (numQubits (this w))
                (shift (numQubits (this w)) q) Hs) as Hcs.
  destruct (bloch_ball _ _ _ _ Htot Hcs) as [Hball Hpur].
  eexists r, _, _, _, _. split; [exact Hrun|].
  split; [exact Hx|]. split; [exact Hy|]. split; [exact Hz|].
  split; [exact Hp|]. split; [exact Hball|exact Hpur].
Qed.

Lemma bloch_vector_in_unit_ball_witness :
  well_formed two_qubits_reset ∧ in_range two_qubits_reset 0 ∧
  norm2 two_qubits_reset = 1%R ∧
  ∃ r x y z, getQubitState 0 two_qubits_reset = (Normal r, two_qubits_reset) ∧
    qs_x r = Fin x ∧ qs_y r = Fin y ∧ qs_z r = Fin z ∧
    (x * x + y * y + z * z <= 1)%R.
Proof.
  assert (in_range two_qubits_reset 0) as H0 by (apply two_qubits_reset_range; lia).
  assert (norm2 two_qubits_reset = 1%R) as Hnorm by (apply new_norm; lia).
  split; [exact two_qubits_reset_wf|]. split; [exact H0|]. split; [exact Hnorm|].
  destruct (bloch_vector_in_unit_ball 0 two_qubits_reset two_qubits_reset_wf
              H0 Hnorm) as (r & x & y & z & p & Hrun & Hx & Hy & Hz & _ & Hball & _).
  exists r, x, y, z. repeat (split; [assumption|]). exact Hball.
Defined.

(** X20. On a register of one qubit, every normalised state is pure:
    [getQubitState(0)] returns a Bloch vector of length exactly 1 and the
    purity 1. *)
Theorem one_qubit_state_is_pure (w : world) :
  well_formed w → numQubits (this w) = 1%nat → norm2 w = 1%R →
  ∃ r x y z, getQubitState 0 w = (Normal r, w) ∧
    qs_x r = Fin x ∧ qs_y r = Fin y ∧ qs_z r = Fin z ∧
    qs_purity r = Fin 1 ∧
    (x * x + y * y + z * z = 1)%R.
Proof.
  intros Hwf Hn Hnorm.
  assert (in_range w 0) as Hq by (unfold in_range; lia).
  destruct (getQubitState_spec 0 w Hwf Hq)
    as (r & Hrun & _ & _ & _ & Hx & Hy & Hz & Hp).
  pose proof (marginals_total (stateVector (this w)) (numQubits (this w))
                (shift (numQubits (this w)) 0)) as Htot.
  fold (norm2 w) in Htot. rewrite Hnorm in Htot.
  rewrite Hn in *. change (shift 1 0) with 0 in *.
  set (sv := stateVector (this w)) in *.
  assert (marginal sv 1 0 false = modulus2 (arr_get sv 0)) as E0.
  { unfold marginal. change (indices (size_of 1)) with [0; 1].
    rewrite !Rsum_cons. change (Z.testbit 0 0) with false.
    change (Z.testbit 1 0) with true.
    repeat case_bool_decide; try done.
    unfold Rsum. simpl. lra. }
  assert (marginal sv 1 0 true = modulus2 (arr_get sv 1)) as E1.
  { unfold marginal. change (indices (size_of 1)) with [0; 1].
    rewrite !Rsum_cons. change (Z.testbit 0 0) with false.
    change (Z.testbit 1 0) with true.
    repeat case_bool_decide; try done.
    unfold Rsum. simpl. lra. }
  assert (coherence_re sv 1 0
          = (re_of (arr_get sv 0) * re_of (arr_get sv 1)
             + im_of (arr_get sv 0) * im_of (arr_get sv 1))%R) as Er.
  { unfold coherence_re. change (indices (size_of 1)) with [0; 1].
    rewrite !Rsum_cons. change (Z.testbit 0 0) with false.
    change (Z.testbit 1 0) with true. change (flip_bit 0 0) with 1.
    unfold Rsum. simpl. lra. }
  assert (coherence_im sv 1 0
          = (im_of (arr_get sv 0) * re_of (arr_get sv 1)
             - re_of (arr_get sv 0) * im_of (arr_get sv 1))%R) as Ei.
  { unfold coherence_im. change (indices (size_of 1)) with [0; 1].
    rewrite !Rsum_cons. change (Z.testbit 0 0) with false.
    change (Z.testbit 1 0) with true. change (flip_bit 0 0) with 1.
    unfold Rsum. simpl. lra. }
  rewrite E0, E1, Er, Ei in *. unfold modulus2 in *.
  set (x0 := re_of (arr_get sv 0)) in *. set (y0 := im_of (arr_get sv 0)) in *.
  set (x1 := re_of (arr_get sv 1)) in *. set (y1 := im_of (arr_get sv 1)) in *.
  assert (((x0 * x1 + y0 * y1) * (x0 * x1 + y0 * y1)
           + (y0 * x1 - x0 * y1) * (y0 * x1 - x0 * y1)
           = (x0 * x0 + y0 * y0) * (x1 * x1 + y1 * y1))%R) as Hc by ring.
  eexists r, _, _, _. split; [exact Hrun|].
  split; [exact Hx|]. split; [exact Hy|]. split; [exact Hz|]. split.
  - rewrite Hp. f_equal. nra.
  - nra.
Qed.

Lemma one_qubit_state_is_pure_witness :
  well_formed one_qubit ∧ numQubits (this one_qubit) = 1%nat ∧
  norm2 one_qubit = 1%R ∧
  ∃ r x y z, getQubitState 0 one_qubit = (Normal r, one_qubit) ∧
    qs_x r = Fin x ∧ qs_y r = Fin y ∧ qs_z r = Fin z ∧
    qs_purity r = Fin 1 ∧
    (x * x + y * y + z * z = 1)%R.
Proof.
  assert (numQubits (this one_qubit) = 1%nat) as Hn by reflexivity.
  assert (norm2 one_qubit = 1%R) as Hnorm by (apply new_norm; lia).
  split; [exact one_qubit_wf|]. split; [exact Hn|]. split; [exact Hnorm|].
  exact (one_qubit_state_is_pure one_qubit one_qubit_wf Hn Hnorm).
Defined.

(** X21. On a normalised well-formed state and for a draw [rand] with
    [0 < rand ≤ 1], [measure] never returns an outcome of probability 0: it
    returns the padded binary string of an index of the register whose
    probability is positive, and leaves the simulator as it was (the state
    does not collapse). *)
Theorem measure_outcome_is_possible (rand : R) (w : world) :
  well_formed w → norm2 w = 1%R → (0 < rand <= 1)%R →
  ∃ ps i p, getProbabilities w = (Normal ps, w) ∧
            0 ≤ i < size_of (numQubits (this w)) ∧
            arr_get ps i = VNumber (Fin p) ∧ (0 < p)%R ∧
            measure rand w
            = (Normal (padStart0 (toString2 i) (numQubits (this w))), w).
Proof.
  intros Hwf Hnorm Hrand.
  destruct (getProbabilities_spec w Hwf) as (ps & Hps & _ & _ & Htot).
  destruct (measure_positive rand w ps Hwf Hps) as (i & p & Hi & Hp & Hpos & Hrun).
  { rewrite Htot, Hnorm. exact Hrand. }
  by exists ps, i, p.
Qed.

Lemma measure_outcome_is_possible_witness :
  well_formed one_qubit ∧ norm2 one_qubit = 1%R ∧ (0 < 1 / 2 <= 1)%R ∧
  ∃ ps i p, getProbabilities one_qubit = (Normal ps, one_qubit) ∧
            0 ≤ i < size_of (numQubits (this one_qubit)) ∧
            arr_get ps i = VNumber (Fin p) ∧ (0 < p)%R ∧
            measure (1 / 2) one_qubit
            = (Normal (padStart0 (toString2 i) (numQubits (this one_qubit))),
               one_qubit).
Proof.
  assert (norm2 one_qubit = 1%R) as Hnorm by (apply new_norm; lia).
  assert (0 < 1 / 2 <= 1)%R as Hrand by lra.
  split; [exact one_qubit_wf|]. split; [exact Hnorm|]. split; [exact Hrand|].
  exact (measure_outcome_is_possible (1 / 2) one_qubit one_qubit_wf Hnorm Hrand).
Defined.

(** X22. When [Math.random()] returns 0, [measure] returns the string
    of index 0 on every well-formed state, even on a state whose amplitude at
    index 0 is 0: the test [rand <= cumulative] holds at once. *)
Theorem measure_zero_draw (w : world) :
  well_formed w →
  measure 0 w = (Normal (padStart0 (toString2 0) (numQubits (this w))), w).
Proof.
  intros Hwf.
  destruct (getProbabilities_spec w Hwf) as (ps & Hps & Hl & Hk & _).
  pose proof Hwf as (Hn & _). pose proof (size_of_bounds _ Hn) as Hsize.
  apply (measure_hit 0 w ps); [done|done|lia| |intros j Hj; lia].
  rewrite cumulative_mass_0, Hk by lia. cbn [real_of]. apply modulus2_nonneg.
Qed.

Lemma measure_zero_draw_witness :
  well_formed basis_one ∧
  arr_get (stateVector (this basis_one)) 0 = obj 0 0 ∧
  measure 0 basis_one
  = (Normal (padStart0 (toString2 0) (numQubits (this basis_one))), basis_one).
Proof.
  split; [exact basis_one_wf|]. split; [reflexivity|].
  exact (measure_zero_draw basis_one basis_one_wf).
Defined.

(** X23. On a well-formed state of at least one qubit and for every
    draw, [measure] returns normally, leaves the simulator as it was, and its
    result is a string of exactly [numQubits] characters, each ['0'] or
    ['1']. *)
Theorem measure_returns_bit_string (rand : R) (w : world) :
  well_formed w → (1 ≤ numQubits (this w))%nat →
  ∃ s, measure rand w = (Normal s, w) ∧
       String.length s = numQubits (this w) ∧ binary_digits s = true.
Proof.
  intros Hwf Hn. destruct (measure_spec rand w Hwf) as (ps & _ & Hrun & _).
  eexists. split; [exact Hrun|].
  apply measure_loop_string; [done|].
  apply Forall_forall. intros k Hk. by apply elem_of_indices.
Qed.

Lemma measure_returns_bit_string_witness :
  well_formed two_qubits_reset ∧ (1 ≤ numQubits (this two_qubits_reset))%nat ∧
  ∃ s, measure (1 / 3) two_qubits_reset = (Normal s, two_qubits_reset) ∧
       String.length s = numQubits (this two_qubits_reset) ∧
       binary_digits s = true.
Proof.
  assert (1 ≤ numQubits (this two_qubits_reset))%nat as Hn by (simpl; lia).
  split; [exact two_qubits_reset_wf|]. split; [exact Hn|].
  exact (measure_returns_bit_string (1 / 3) two_qubits_reset
           two_qubits_reset_wf Hn).
Defined.

(** X24. [Complex.magnitude] is multiplicative: for two operands that
    are numbers or objects with finite fields, [Complex.multiply] returns an
    object whose magnitude is the product of the two magnitudes (over exact
    reals). *)
Theorem magnitude_is_multiplicative (a b : value) :
  finite_complex a → finite_complex b →
  ∃ ma mb ab, Complex.magnitude a = Normal (Fin ma) ∧
              Complex.magnitude b = Normal (Fin mb) ∧
              Complex.multiply a b = Normal ab ∧
              Complex.magnitude ab = Normal (Fin (ma * mb)) ∧
              (0 <= ma)%R ∧ (0 <= mb)%R.
Proof.
  intros Ha Hb. pose proof Ha as (xa & ya & Hxa). pose proof Hb as (xb & yb & Hxb).
  eexists _, _, _. split; [by apply magnitude_finite|].
  split; [by apply magnitude_finite|]. split.
  { unfold Complex.multiply. rewrite Hxa, Hxb. reflexivity. }
  split; [|split; apply sqrt_pos].
  rewrite magnitude_finite by apply is_amplitude_obj.
  rewrite Hxa, Hxb. do 2 f_equal.
  rewrite <- sqrt_mult by apply modulus2_nonneg. f_equal.
  unfold modulus2. cbn. ring.
Qed.

Lemma magnitude_is_multiplicative_witness :
  finite_complex (lit 3) ∧ finite_complex (obj 0 1) ∧
  ∃ ma mb ab, Complex.magnitude (lit 3) = Normal (Fin ma) ∧
              Complex.magnitude (obj 0 1) = Normal (Fin mb) ∧
              Complex.multiply (lit 3) (obj 0 1) = Normal ab ∧
              Complex.magnitude ab = Normal (Fin (ma * mb)).
Proof.
  assert (finite_complex (lit 3)) as Ha by (exists 3%R, 0%R; reflexivity).
  assert (finite_complex (obj 0 1)) as Hb by (exists 0%R, 1%R; reflexivity).
  split; [exact Ha|]. split; [exact Hb|].
  destruct (magnitude_is_multiplicative (lit 3) (obj 0 1) Ha Hb)
    as (ma & mb & ab & H1 & H2 & H3 & H4 & _).
  exists ma, mb, ab. split; [exact H1|]. split; [exact H2|].
  split; [exact H3|exact H4].
Defined.



(** X26. [BlochSphere.project] is a rotation followed by a scaling: for
    finite fields and a finite point [(x, y, z)], the screen offsets from the
    centre and the depth, taken together, have the length of the point times
    [radius]:  (sx - cx)² + (sy - cy)² + (radius · depth)² =
    radius² · (x² + y² + z²)  (over exact reals). *)
Theorem project_preserves_length (b : BlochSphere) (cx cy r ax az x y z : R) :
  centerX b = Fin cx → centerY b = Fin cy → radius b = Fin r →
  viewAngleX b = Fin ax → viewAngleZ b = Fin az →
  ∃ sx sy d,
    BlochSphere.project b (Fin x) (Fin y) (Fin z)
    = mkProjected (Fin sx) (Fin sy) (Fin d) ∧
    ((sx - cx) * (sx - cx) + (sy - cy) * (sy - cy) + (r * d) * (r * d)
     = r * r * (x * x + y * y + z * z))%R.
Proof. apply project_length. Qed.

Lemma project_preserves_length_witness :
  centerX (BlochSphere.new (Fin 200) (Fin 100)) = Fin (200 / 2) ∧
  centerY (BlochSphere.new (Fin 200) (Fin 100)) = Fin (100 / 2) ∧
  radius (BlochSphere.new (Fin 200) (Fin 100)) = Fin (Rmin 200 100 / 2 - 20) ∧
  viewAngleX (BlochSphere.new (Fin 200) (Fin 100)) = Fin (4 / 10) ∧
  viewAngleZ (BlochSphere.new (Fin 200) (Fin 100)) = Fin (- (5 / 10)) ∧
  ∃ sx sy d,
    BlochSphere.project (BlochSphere.new (Fin 200) (Fin 100)) (Fin 0) (Fin 0) (Fin 1)
    = mkProjected (Fin sx) (Fin sy) (Fin d).
Proof.
  destruct (bloch_new_fields 200 100) as (Hcx & Hcy & Hr & Hax & Haz).
  split; [exact Hcx|]. split; [exact Hcy|]. split; [exact Hr|].
  split; [exact Hax|]. split; [exact Haz|].
  destruct (project_preserves_length _ _ _ _ _ _ 0 0 1 Hcx Hcy Hr Hax Haz)
    as (sx & sy & d & Hp & _).
  exists sx, sy, d. exact Hp.
Defined.

(** X27. The tip of the state vector is always drawn inside the canvas:
    on a sphere with the geometry that the constructor derives from a canvas
    of at least 40 x 40, and for every finite state [(stateX, stateY,
    stateZ)] - which [_drawStateVector] normalises, or replaces by the north
    pole when it is zero - the point [end] lies at least 20 pixels inside
    each border. *)
Theorem state_tip_inside_canvas (b : BlochSphere) (w h x y z : R) :
  (40 <= w)%R → (40 <= h)%R →
  same_geometry b (BlochSphere.new (Fin w) (Fin h)) →
  stateX b = Fin x → stateY b = Fin y → stateZ b = Fin z →
  ∃ sx sy d,
    BlochSphere.stateVector_end b = mkProjected (Fin sx) (Fin sy) (Fin d) ∧
    (20 <= sx <= w - 20)%R ∧ (20 <= sy <= h - 20)%R.
Proof.
  intros Hw Hh (Hcx & Hcy & Hr & Hax & Haz) Hx Hy Hz.
  cbn in Hcx, Hcy, Hr, Hax, Haz.
  destruct (Req_dec_T 2 0) as [|_]; [lra|].
  unfold BlochSphere.stateVector_end. rewrite Hx, Hy, Hz.
  cbn [num_mul num_add num_lift2].
  destruct (unit_or_pole x y z) as (nx & ny & nz & -> & -> & -> & Hunit).
  destruct (project_length b _ _ _ _ _ nx ny nz Hcx Hcy Hr Hax Haz)
    as (sx & sy & d & Hp & Hlen).
  rewrite Hunit in Hlen.
  exists sx, sy, d. split; [exact Hp|].
  set (r := (Rmin w h / 2 - 20)%R) in *.
  assert (0 <= r ∧ r <= w / 2 - 20 ∧ r <= h / 2 - 20)%R as (Hr0 & Hrw & Hrh).
  { unfold r. pose proof (Rmin_l w h). pose proof (Rmin_r w h).
    assert (40 <= Rmin w h)%R by (apply Rmin_glb; lra). repeat split; lra. }
  pose proof (Rle_0_sqr (sx - w / 2)) as Hqx.
  pose proof (Rle_0_sqr (sy - h / 2)) as Hqy.
  pose proof (Rle_0_sqr (r * d)) as Hqd. unfold Rsqr in Hqx, Hqy, Hqd.
  assert ((sx - w / 2) * (sx - w / 2) <= r * r)%R as Hsx by lra.
  assert ((sy - h / 2) * (sy - h / 2) <= r * r)%R as Hsy by lra.
  split; split; nra.
Qed.

Lemma state_tip_inside_canvas_witness :
  (40 <= 200)%R ∧ (40 <= 100)%R ∧
  ∃ sx sy d,
    BlochSphere.stateVector_end (BlochSphere.new (Fin 200) (Fin 100))
    = mkProjected (Fin sx) (Fin sy) (Fin d) ∧
    (20 <= sx <= 200 - 20)%R ∧ (20 <= sy <= 100 - 20)%R.
Proof.
  assert (40 <= 200)%R as Hw by lra. assert (40 <= 100)%R as Hh by lra.
  split; [exact Hw|]. split; [exact Hh|].
  exact (state_tip_inside_canvas (BlochSphere.new (Fin 200) (Fin 100))
           200 100 0 0 1 Hw Hh
           (conj eq_refl (conj eq_refl (conj eq_refl (conj eq_refl eq_refl))))
           eq_refl eq_refl eq_refl).
Defined.

(** X28. The animation started by [setState] comes to rest (over
    exact reals): from every finite state and target, after finitely many runs
    of [animate] no further frame is requested; the state is then within
    0.001 of the target (sum of the three absolute differences), and target
    and geometry are unchanged. *)
Theorem animation_settles (b : BlochSphere) (x y z tx ty tz : R) :
  stateX b = Fin x → stateY b = Fin y → stateZ b = Fin z →
  targetX b = Fin tx → targetY b = Fin ty → targetZ b = Fin tz →
  ∃ fuel b' x' y' z',
    BlochSphere.frames fuel b = Some b' ∧ same_geometry b' b ∧
    stateX b' = Fin x' ∧ stateY b' = Fin y' ∧ stateZ b' = Fin z' ∧
    targetX b' = Fin tx ∧ targetY b' = Fin ty ∧ targetZ b' = Fin tz ∧
    (Rabs (x' - tx) + Rabs (y' - ty) + Rabs (z' - tz) <= 1 / 1000)%R.
Proof.
  intros Hx Hy Hz Htx Hty Htz.
  set (d := (Rabs (x - tx) + Rabs (y - ty) + Rabs (z - tz))%R).
  assert (0 <= d)%R as Hd
    by (unfold d; pose proof (Rabs_pos (x - tx)); pose proof (Rabs_pos (y - ty));
        pose proof (Rabs_pos (z - tz)); lra).
  destruct (pow_lt_1_zero (85 / 100) ltac:(rewrite Rabs_right; lra)
              (1 / 1000 / (d + 1)) ltac:(apply Rdiv_lt_0_compat; lra))
    as (N & HN).
  pose proof (HN (S N) ltac:(lia)) as Hpow.
  rewrite Rabs_right in Hpow by (apply Rle_ge, pow_le; lra).
  destruct (frames_settle N b x y z tx ty tz Hx Hy Hz Htx Hty Htz)
    as (b' & x' & y' & z' & H); [|by exists (S N), b', x', y', z'].
  fold d.
  assert (0 <= (85 / 100) ^ S N)%R as Hp0 by (apply pow_le; lra).
  assert ((85 / 100) ^ S N * (d + 1) < 1 / 1000)%R as Hlt.
  { apply (Rmult_lt_compat_r (d + 1)) in Hpow; [|lra].
    replace (1 / 1000 / (d + 1) * (d + 1))%R with (1 / 1000)%R in Hpow
      by (field; lra).
    done. }
  nra.
Qed.

Lemma animation_settles_witness :
  ∃ fuel b' x' y' z',
    BlochSphere.frames fuel
      (BlochSphere.setState (BlochSphere.new (Fin 200) (Fin 100))
         (Fin 1) (Fin 0) (Fin 0) true) = Some b' ∧
    stateX b' = Fin x' ∧ stateY b' = Fin y' ∧ stateZ b' = Fin z' ∧
    (Rabs (x' - 1) + Rabs (y' - 0) + Rabs (z' - 0) <= 1 / 1000)%R.
Proof.
  destruct (animation_settles
              (BlochSphere.setState (BlochSphere.new (Fin 200) (Fin 100))
                 (Fin 1) (Fin 0) (Fin 0) true)
              0 0 1 1 0 0 eq_refl eq_refl eq_refl eq_refl eq_refl eq_refl)
    as (fuel & b' & x' & y' & z' & Hrun & _ & Hx & Hy & Hz & _ & _ & _ & Hd).
  exists fuel, b', x', y', z'. split; [exact Hrun|]. split; [exact Hx|].
  split; [exact Hy|]. split; [exact Hz|exact Hd].
Defined.

(** X29. [addGate] without an explicit position appends one gate, which
    it places strictly to the right of every gate that already touches its
    qubit as control or as target, and at position 0 when no gate touches it;
    the listeners are notified once, with the new list of gates, and the
    returned id is the id of the new gate. *)
Theorem addGate_goes_after {E} (c : QuantumCircuit E) (kind : string)
    (qubit : Z) (options : AddOptions) (id : R) (env : E) :
  opt_position options = None →
  ∃ g c', addGate c kind qubit options id env = (id, c', _notifyChange c' env) ∧
    qc_gates c' = qc_gates c ++ [g] ∧
    qc_numQubits c' = qc_numQubits c ∧
    qc_onChangeCallbacks c' = qc_onChangeCallbacks c ∧
    cg_id g = id ∧ cg_gate g = kind ∧ cg_qubit g = qubit ∧
    cg_targetQubit g = opt_targetQubit options ∧
    (∀ h, h ∈ qc_gates c → touches qubit h = true →
          cg_position h < cg_position g) ∧
    ((∀ h, h ∈ qc_gates c → touches qubit h = false) → cg_position g = 0).
Proof.
  intros Hpos. unfold addGate. rewrite Hpos.
  destruct (findNextPosition_after c qubit) as [Hafter Hnone].
  eexists _, _. split; [reflexivity|]. cbn.
  repeat (split; [reflexivity|]). split; [exact Hafter|exact Hnone].
Qed.

Lemma addGate_goes_after_witness :
  opt_position (mkAddOptions None None None) = None ∧
  ∃ g c', addGate (qc_new unit 3) "H" 0 (mkAddOptions None None None) 7 tt
          = (7%R, c', _notifyChange c' tt) ∧
          qc_gates c' = [g] ∧ cg_position g = 0.
Proof.
  assert (opt_position (mkAddOptions None None None) = None) as Hpos
    by reflexivity.
  split; [exact Hpos|].
  destruct (addGate_goes_after (qc_new unit 3) "H" 0 (mkAddOptions None None None)
              7 tt Hpos)
    as (g & c' & Hrun & Hg & _ & _ & _ & _ & _ & _ & _ & Hzero).
  exists g, c'. split; [exact Hrun|]. split; [exact Hg|].
  apply Hzero. intros h Hh. cbn in Hh. by apply elem_of_nil in Hh.
Defined.

